(** * IBM model core: alignment sampling, hill climbing and neighbourhoods

    A shallow embedding of [nltk/align/ibm_model.py]: the class [IBMModel]
    (probability tables, [sample], [hillclimb], [neighboring]) and the value
    object [AlignmentInfo].

    Conventions of the embedding:
    - Python integers are [Z]; Python lists and tuples are [list]s, indexed
      with Python's rules (negative indices count from the end, anything
      else out of range raises [IndexError]);
    - [defaultdict]s are [gmap]s read through a lookup that stores the
      default it hands out, as [defaultdict.__getitem__] does;
    - a Python [set] of [AlignmentInfo] is the list of its members in
      insertion order, kept free of duplicates under [__eq__]; the order in
      which Python iterates a set is a parameter ([SetIteration]);
    - probabilities are an abstract number type with the operations the
      code applies to them ([Prob]); [Float64] instantiates it with
      binary64 floats;
    - the [while True] loop of [hillclimb] runs on fuel;
    - the scoring method [self.probability], which [IBMModel] does not
      define, is a parameter: a function of the alignment in the
      definitions most properties are about, and in [ScoringMethod] a
      method that runs on the model's state, for what [sample] does to
      the tables. *)

From Stdlib Require Import ZArith List Lia Floats.
From stdpp Require Import gmap strings list fin_maps.

Open Scope Z_scope.

(** ** Results of fallible code *)

Inductive result (A : Type) : Type :=
  | Ok (a : A)
  | IndexError
  | OutOfFuel.
Arguments Ok {A} a.
Arguments IndexError {A}.
Arguments OutOfFuel {A}.

Global Instance result_ret : MRet result := fun A a => Ok a.
Global Instance result_bind : MBind result := fun A B f r =>
  match r with
  | Ok a => f a
  | IndexError => IndexError
  | OutOfFuel => OutOfFuel
  end.

Definition of_option {A} (o : option A) : result A :=
  match o with
  | Some a => Ok a
  | None => IndexError
  end.

(** [for x in xs: acc = body(acc, x)], in any monad. *)
Fixpoint for_each {M : Type → Type} `{!MRet M, !MBind M} {A B}
    (xs : list A) (body : B → A → M B) (acc : B) : M B :=
  match xs with
  | [] => mret acc
  | x :: xs' => acc' ← body acc x; for_each xs' body acc'
  end.

(** ** Python sequences *)

(** [range(lo, hi)] *)
Definition py_range (lo hi : Z) : list Z :=
  map (fun k => lo + Z.of_nat k) (seq 0 (Z.to_nat (hi - lo))).

(** The slot a Python index denotes in a sequence of length [len]. *)
Definition py_index (len : nat) (k : Z) : option nat :=
  if decide (0 ≤ k < Z.of_nat len) then Some (Z.to_nat k)
  else if decide (- Z.of_nat len ≤ k < 0) then Some (Z.to_nat (Z.of_nat len + k))
  else None.

(** [xs[k]] *)
Definition py_getitem {A} (xs : list A) (k : Z) : result A :=
  of_option (i ← py_index (length xs) k; xs !! i).

(** [xs[k] = v] *)
Definition py_setitem {A} (xs : list A) (k : Z) (v : A) : result (list A) :=
  of_option (i ← py_index (length xs) k; Some (<[i := v]> xs)).

(** [xs[k] += d] *)
Definition py_additem (xs : list Z) (k : Z) (d : Z) : result (list Z) :=
  x ← py_getitem xs k; py_setitem xs k (x + d).

(** [[v] * n] *)
Definition py_repeat {A} (v : A) (n : Z) : list A := replicate (Z.to_nat n) v.

(** [len(xs)] *)
Definition len {A} (xs : list A) : Z := Z.of_nat (length xs).

(** ** AlignmentInfo *)

(** Target words are strings; a source word is a string or [None], the
    NULL token. *)
Record AlignmentInfo : Type := mkAlignmentInfo {
  alignment : list Z;
  src_sentence : list (option string);
  trg_sentence : list string;
  fertility_of_i : list Z
}.

Global Instance AlignmentInfo_eq_dec : EqDecision AlignmentInfo.
Proof. solve_decision. Defined.

Module AlignmentInfo.

(** [__eq__] *)
Definition eq (self other : AlignmentInfo) : bool :=
  bool_decide (alignment self = alignment other).

(** [__hash__], over the built-in hash of a tuple of integers. *)
Definition hash (tuple_hash : list Z → Z) (self : AlignmentInfo) : Z :=
  tuple_hash (alignment self).

End AlignmentInfo.

(** ** Sets of AlignmentInfo *)

(** [x in s]: some member compares equal to [x]. *)
Definition set_contains (x : AlignmentInfo) (s : list AlignmentInfo) : bool :=
  existsb (AlignmentInfo.eq x) s.

(** [s.add(x)]: a member equal to [x] stays, and [x] is dropped. *)
Definition set_add (s : list AlignmentInfo) (x : AlignmentInfo)
  : list AlignmentInfo :=
  if set_contains x s then s else s ++ [x].

(** The order in which a [for] loop (or [update]) walks a set. *)
Class SetIteration : Type := {
  set_iter : list AlignmentInfo → list AlignmentInfo;
  set_iter_perm : ∀ s, set_iter s ≡ₚ s
}.

(** [s.update(other)] *)
Definition set_update `{SetIteration} (s other : list AlignmentInfo)
  : list AlignmentInfo :=
  foldl set_add s (set_iter other).

(** ** Neighbouring alignments *)

Section Neighboring.

Variable alignment_info : AlignmentInfo.
Variable j_pegged : Z.

Let l : Z := len (src_sentence alignment_info) - 1.
Let m : Z := len (trg_sentence alignment_info).
Let original_alignment := alignment alignment_info.
Let original_fertility := fertility_of_i alignment_info.

(** The candidate built by the first loop for the pair [(j, i)]. *)
Definition move_candidate (j i : Z) : result AlignmentInfo :=
  new_alignment ← py_setitem original_alignment j i;
  new_fertility ← py_additem original_fertility i 1;
  old_i ← py_getitem original_alignment j;
  new_fertility ← py_additem new_fertility old_i (-1);
  Ok (mkAlignmentInfo new_alignment (src_sentence alignment_info)
        (trg_sentence alignment_info) new_fertility).

(** The candidate built by the second loop for the pair [(j, other_j)]. *)
Definition swap_candidate (j other_j : Z) : result AlignmentInfo :=
  a_other ← py_getitem original_alignment other_j;
  new_alignment ← py_setitem original_alignment j a_other;
  a_j ← py_getitem original_alignment j;
  new_alignment ← py_setitem new_alignment other_j a_j;
  Ok (mkAlignmentInfo new_alignment (src_sentence alignment_info)
        (trg_sentence alignment_info) original_fertility).

Definition add_moves (neighbors : list AlignmentInfo)
  : result (list AlignmentInfo) :=
  for_each (py_range 1 (m + 1)) (fun neighbors j =>
    if decide (j ≠ j_pegged) then
      for_each (py_range 0 (l + 1)) (fun neighbors i =>
        new_alignment_info ← move_candidate j i;
        Ok (set_add neighbors new_alignment_info)) neighbors
    else Ok neighbors) neighbors.

Definition add_swaps (neighbors : list AlignmentInfo)
  : result (list AlignmentInfo) :=
  for_each (py_range 1 (m + 1)) (fun neighbors j =>
    if decide (j ≠ j_pegged) then
      for_each (py_range 1 (m + 1)) (fun neighbors other_j =>
        if decide (other_j ≠ j_pegged ∧ other_j ≠ j) then
          new_alignment_info ← swap_candidate j other_j;
          Ok (set_add neighbors new_alignment_info)
        else Ok neighbors) neighbors
    else Ok neighbors) neighbors.

Definition neighboring : result (list AlignmentInfo) :=
  neighbors ← add_moves [];
  add_swaps neighbors.

End Neighboring.

(** ** Hill climbing *)

Section HillClimb.

Context {P : Type} (gt : P → P → bool) `{SetIteration}.

(** The scoring function [self.probability], abstract in [IBMModel]. *)
Variable probability : AlignmentInfo → P.

(** One pass of the [for] loop over the neighbours of the alignment the
    pass starts from; [alignment] is the rolling best. *)
Definition hillclimb_pass (neighbors : list AlignmentInfo)
    (alignment : AlignmentInfo) : AlignmentInfo :=
  foldl (fun alignment neighbor_alignment =>
           let neighbor_probability := probability neighbor_alignment in
           let current_probability := probability alignment in
           if gt neighbor_probability current_probability
           then neighbor_alignment else alignment)
        alignment (set_iter neighbors).

(** The [while True] loop; its value is the local variable [alignment]
    when the loop breaks. *)
Fixpoint hillclimb_loop (fuel : nat) (alignment : AlignmentInfo)
    (j_pegged : Z) : result AlignmentInfo :=
  match fuel with
  | O => OutOfFuel
  | S fuel' =>
      let old_alignment := alignment in
      neighbors ← neighboring alignment j_pegged;
      let alignment := hillclimb_pass neighbors alignment in
      if AlignmentInfo.eq alignment old_alignment then Ok alignment
      else hillclimb_loop fuel' alignment j_pegged
  end.

(** [hillclimb]: the loop runs, and the function returns its argument
    [alignment_info]. *)
Definition hillclimb (fuel : nat) (alignment_info : AlignmentInfo)
    (j_pegged : Z) : result AlignmentInfo :=
  _ ← hillclimb_loop fuel alignment_info j_pegged;
  Ok alignment_info.

End HillClimb.

(** ** Probability tables *)

(** The numbers the tables hold and the operations the code applies to
    them: the floor [MIN_PROB], the product [*], the comparison [>] and the
    literal [0.5]. *)
Class Prob (P : Type) : Type := {
  MIN_PROB : P;
  prob_mul : P → P → P;
  prob_gt : P → P → bool;
  prob_half : P
}.

(** [d[k]] on a [defaultdict]: a missing key is given the default, which
    is stored under the key before it is returned. *)
Definition dd_getitem `{Countable K} {V} (default_factory : V) (k : K)
    (d : gmap K V) : V * gmap K V :=
  match d !! k with
  | Some v => (v, d)
  | None => (default_factory, <[k := default_factory]> d)
  end.

(** [d[k]...] where [d[k]] is itself a dictionary that the rest of the
    subscript chain [inner] reads (and so may grow): the inner dictionary is
    the object stored in [d], the growth is seen through [d]. *)
Definition dd_nested `{Countable K} {V R} (default_factory : V) (k : K)
    (inner : V → R * V) (d : gmap K V) : R * gmap K V :=
  let '(v, d) := dd_getitem default_factory k d in
  let '(r, v) := inner v in
  (r, <[k := v]> d).

Record AlignedSent : Type := mkAlignedSent {
  words : list string;
  mots : list (option string)
}.

Section Model.

Context {P : Type} `{Prob P} `{SetIteration}.

Record IBMModel : Type := mkIBMModel {
  src_vocab : gset (option string);
  trg_vocab : gset string;
  translation_table : gmap string (gmap (option string) P);
  alignment_table : gmap Z (gmap Z (gmap Z (gmap Z P)));
  fertility_table : gmap Z (gmap (option string) P);
  p1 : P
}.

(** [init_vocab]: the source and the target vocabulary of the corpus, the
    source one with the NULL token. *)
Definition init_vocab (sentence_aligned_corpus : list AlignedSent)
  : gset (option string) * gset string :=
  let '(src_vocab, trg_vocab) :=
    foldl (fun '(src_vocab, trg_vocab) aligned_sentence =>
             (src_vocab ∪ list_to_set (mots aligned_sentence),
              trg_vocab ∪ list_to_set (words aligned_sentence)))
          (∅, ∅) sentence_aligned_corpus in
  (src_vocab ∪ {[ None ]}, trg_vocab).

(** [__init__]: the vocabularies, three empty tables and [p1 = 0.5]. *)
Definition init (sentence_aligned_corpus : list AlignedSent) : IBMModel :=
  let '(src_vocab, trg_vocab) := init_vocab sentence_aligned_corpus in
  mkIBMModel src_vocab trg_vocab ∅ ∅ ∅ prob_half.

(** Methods of the model: they may raise, and they run on the model's
    state, which survives an exception. *)
Definition method (A : Type) : Type := IBMModel → result A * IBMModel.

Global Instance method_ret : MRet method := fun A a self => (Ok a, self).
Global Instance method_bind : MBind method := fun A B f c self =>
  match c self with
  | (Ok a, self') => f a self'
  | (IndexError, self') => (IndexError, self')
  | (OutOfFuel, self') => (OutOfFuel, self')
  end.

(** Code that does not touch the model. *)
Definition pure {A} (r : result A) : method A := fun self => (r, self).

(** [self.translation_table[t][s]] *)
Definition translation_table_getitem (t : string) (s : option string)
  : method P := fun self =>
  let '(p, table) :=
    dd_nested ∅ t (dd_getitem MIN_PROB s) (translation_table self) in
  (Ok p, mkIBMModel (src_vocab self) (trg_vocab self) table
           (alignment_table self) (fertility_table self) (p1 self)).

(** [self.alignment_table[i][j][l][m]] *)
Definition alignment_table_getitem (i j l m : Z) : method P := fun self =>
  let '(p, table) :=
    dd_nested ∅ i (dd_nested ∅ j (dd_nested ∅ l (dd_getitem MIN_PROB m)))
      (alignment_table self) in
  (Ok p, mkIBMModel (src_vocab self) (trg_vocab self)
           (translation_table self) table (fertility_table self) (p1 self)).

(** [self.fertility_table[fertility][s]] *)
Definition fertility_table_getitem (fertility : Z) (s : option string)
  : method P := fun self =>
  let '(p, table) :=
    dd_nested ∅ fertility (dd_getitem MIN_PROB s) (fertility_table self) in
  (Ok p, mkIBMModel (src_vocab self) (trg_vocab self)
           (translation_table self) (alignment_table self) table (p1 self)).

Section Sample.

Variable probability : AlignmentInfo → P.
Variable fuel : nat.
Variable trg_sentence : list string.
Variable src_sentence : list (option string).

Let l : Z := len src_sentence - 1.
Let m : Z := len trg_sentence.

(** The loop over [ii] that finds the best alignment of target
    position [jj] according to model 2; its value is [best_i]. *)
Definition best_model2_source (jj : Z) : method Z :=
  r ← for_each (py_range 0 (l + 1)) (fun '(max_alignment_prob, best_i) ii =>
         s ← pure (py_getitem src_sentence ii);
         t ← pure (py_getitem trg_sentence (jj - 1));
         pt ← translation_table_getitem t s;
         pa ← alignment_table_getitem ii jj l m;
         let alignment_prob := prob_mul pt pa in
         if prob_gt alignment_prob max_alignment_prob
         then mret (alignment_prob, ii)
         else mret (max_alignment_prob, best_i))
       (MIN_PROB, 1);
  mret r.2.

(** The initial alignment for the peg [(i, j)]. *)
Definition initial_alignment (i j : Z) : method AlignmentInfo :=
  let alignment := py_repeat 0 (m + 1) in
  let fertility_of_i := py_repeat 0 (l + 1) in
  alignment ← pure (py_setitem alignment j i);
  fertility_of_i ← pure (py_setitem fertility_of_i i 1);
  r ← for_each (py_range 1 (m + 1)) (fun '(alignment, fertility_of_i) jj =>
         if decide (jj ≠ j) then
           best_i ← best_model2_source jj;
           alignment ← pure (py_setitem alignment jj best_i);
           fertility_of_i ← pure (py_additem fertility_of_i best_i 1);
           mret (alignment, fertility_of_i)
         else mret (alignment, fertility_of_i))
       (alignment, fertility_of_i);
  mret (mkAlignmentInfo r.1 src_sentence trg_sentence r.2).

(** The body of the two loops over the pegs. *)
Definition sample_peg (sampled_alignments : list AlignmentInfo) (i j : Z)
  : method (list AlignmentInfo) :=
  alignment_info ← initial_alignment i j;
  best_alignment ← pure (hillclimb prob_gt probability fuel alignment_info j);
  neighbors ← pure (neighboring best_alignment j);
  mret (set_update sampled_alignments neighbors).

Definition sample : method (list AlignmentInfo) :=
  for_each (py_range 0 (l + 1)) (fun sampled_alignments i =>
    for_each (py_range 1 (m + 1)) (fun sampled_alignments j =>
      sample_peg sampled_alignments i j) sampled_alignments) [].

End Sample.

End Model.

Arguments IBMModel P : clear implicits.
Arguments method P : clear implicits.

(** ** The scoring function as a method

    [self.probability] is a method of the model: a subclass may read the
    tables in it, and a subscript of a [defaultdict] writes. Here the
    climb and the sampler run the scoring method on the model's state, in
    the order of the calls of the code (the neighbour first, then the
    current alignment); the scoring method may raise. The definitions
    above are the case of a scoring function that does not touch the
    model. *)
Module ScoringMethod.

Section ScoringMethod.

Context {P : Type} `{Prob P} `{SetIteration}.

Variable probability : AlignmentInfo → method P P.

Definition hillclimb_pass (neighbors : list AlignmentInfo)
    (alignment : AlignmentInfo) : method P AlignmentInfo :=
  for_each (set_iter neighbors) (fun alignment neighbor_alignment =>
    neighbor_probability ← probability neighbor_alignment;
    current_probability ← probability alignment;
    if prob_gt neighbor_probability current_probability
    then mret neighbor_alignment else mret alignment) alignment.

Fixpoint hillclimb_loop (fuel : nat) (alignment : AlignmentInfo)
    (j_pegged : Z) : method P AlignmentInfo :=
  match fuel with
  | O => pure OutOfFuel
  | S fuel' =>
      let old_alignment := alignment in
      neighbors ← pure (neighboring alignment j_pegged);
      alignment ← hillclimb_pass neighbors alignment;
      if AlignmentInfo.eq alignment old_alignment then mret alignment
      else hillclimb_loop fuel' alignment j_pegged
  end.

Definition hillclimb (fuel : nat) (alignment_info : AlignmentInfo)
    (j_pegged : Z) : method P AlignmentInfo :=
  _ ← hillclimb_loop fuel alignment_info j_pegged;
  mret alignment_info.

Section Pegs.

Variable fuel : nat.
Variable trg_sentence : list string.
Variable src_sentence : list (option string).

Let l : Z := len src_sentence - 1.
Let m : Z := len trg_sentence.

Definition sample_peg (sampled_alignments : list AlignmentInfo) (i j : Z)
  : method P (list AlignmentInfo) :=
  alignment_info ← initial_alignment trg_sentence src_sentence i j;
  best_alignment ← hillclimb fuel alignment_info j;
  neighbors ← pure (neighboring best_alignment j);
  mret (set_update sampled_alignments neighbors).

Definition sample : method P (list AlignmentInfo) :=
  for_each (py_range 0 (l + 1)) (fun sampled_alignments i =>
    for_each (py_range 1 (m + 1)) (fun sampled_alignments j =>
      sample_peg sampled_alignments i j) sampled_alignments) [].

End Pegs.

End ScoringMethod.

End ScoringMethod.

(** ** Concrete instances *)

(** Python floats: binary64, [MIN_PROB = 1.0e-12] (the literal denotes the
    nearest binary64 value, [0x1.19799812dea11p-40], in Python as here). *)
Module Float64.

#[warnings="-inexact-float"]
Definition min_prob : float := 1.0e-12%float.

Global Instance float_prob : Prob float := {|
  MIN_PROB := min_prob;
  prob_mul := PrimFloat.mul;
  prob_gt := fun x y => PrimFloat.ltb y x;
  prob_half := 0.5%float
|}.

End Float64.

(** Sets walked in insertion order. *)
Program Definition insertion_order : SetIteration :=
  {| set_iter := fun s => s |}.
Next Obligation. reflexivity. Qed.

(** * Vocabulary of the properties *)

(** ** Where the members of a neighbourhood come from *)

Definition is_move (a : AlignmentInfo) (j_pegged : Z) (n : AlignmentInfo)
  : Prop :=
  ∃ j i, 1 ≤ j ≤ len (trg_sentence a) ∧ j ≠ j_pegged ∧
         0 ≤ i ≤ len (src_sentence a) - 1 ∧
         move_candidate a j i = Ok n.

Definition is_swap (a : AlignmentInfo) (j_pegged : Z) (n : AlignmentInfo)
  : Prop :=
  ∃ j other_j, 1 ≤ j ≤ len (trg_sentence a) ∧ j ≠ j_pegged ∧
               1 ≤ other_j ≤ len (trg_sentence a) ∧
               other_j ≠ j_pegged ∧ other_j ≠ j ∧
               swap_candidate a j other_j = Ok n.

(** ** Entries of the probability tables *)

Section TableEntries.

Context {P : Type} `{Prob P}.

(** The entry of the translation table under [t], [s], if there is one. *)
Definition translation_entry (self : IBMModel P) (t : string)
    (s : option string) : option P :=
  translation_table self !! t ≫= (fun row => row !! s).

(** The entry of the alignment table under [i], [j], [l], [m]. *)
Definition alignment_entry (self : IBMModel P) (i j l m : Z) : option P :=
  alignment_table self !! i ≫= (fun d =>
  d !! j ≫= (fun d => d !! l ≫= (fun d => d !! m))).

(** An entry after a read: what it was, or the floor where it was
    missing. *)
Definition floor_extends (before after : option P) : Prop :=
  after = before ∨ (before = None ∧ after = Some MIN_PROB).

(** The state after a run that only subscripts the tables: nothing but
    the translation and alignment tables differs, and these differ only in
    entries that were missing and now hold the floor. *)
Definition reads_only (self self' : IBMModel P) : Prop :=
  src_vocab self' = src_vocab self ∧
  trg_vocab self' = trg_vocab self ∧
  fertility_table self' = fertility_table self ∧
  p1 self' = p1 self ∧
  (∀ t s, floor_extends (translation_entry self t s)
                        (translation_entry self' t s)) ∧
  (∀ i j l m, floor_extends (alignment_entry self i j l m)
                            (alignment_entry self' i j l m)).

Definition preserves {A} (c : method P A) : Prop :=
  ∀ self, reads_only self (c self).2.

(** A method that never runs out of fuel. *)
Definition fuel_free {A} (c : method P A) : Prop :=
  ∀ self, (c self).1 ≠ OutOfFuel.

(** The entry of the fertility table under [fertility], [s]. *)
Definition fertility_entry (self : IBMModel P) (fertility : Z)
    (s : option string) : option P :=
  fertility_table self !! fertility ≫= (fun row => row !! s).

(** The state after a run that does nothing to the model but subscript
    its tables, the fertility table among them: [p1] is what it was, and
    the entries of the three tables are what they were, or were missing
    and now hold the floor. *)
Definition floors_missing_entries (self self' : IBMModel P) : Prop :=
  p1 self' = p1 self ∧
  (∀ t s, floor_extends (translation_entry self t s)
                        (translation_entry self' t s)) ∧
  (∀ i j l m, floor_extends (alignment_entry self i j l m)
                            (alignment_entry self' i j l m)) ∧
  (∀ fertility s, floor_extends (fertility_entry self fertility s)
                                (fertility_entry self' fertility s)).

(** A method that leaves the model in a state related by [R] to the one
    it started in, whether it returns or raises. *)
Definition keeps {A} (R : IBMModel P → IBMModel P → Prop)
    (c : method P A) : Prop :=
  ∀ self, R self (c self).2.

End TableEntries.

(** ** The fertility invariant *)

Global Instance result_eq_dec {A} `{EqDecision A} : EqDecision (result A).
Proof. solve_decision. Defined.

(** The sum of [f x] over the [x] of [xs]. *)
Definition sum_over {A} (f : A → Z) (xs : list A) : Z :=
  foldr (fun x acc => f x + acc) 0 xs.

(** The number of target positions [j] in [1..m] with [alignment[j] == i]. *)
Definition aligned_to (a : AlignmentInfo) (i : Z) : Z :=
  len (filter (fun j => py_getitem (alignment a) j = Ok i)
         (py_range 1 (len (trg_sentence a) + 1))).

(** [fertility_of_i[i]] (and 0 where the subscript raises). *)
Definition fertility_at (a : AlignmentInfo) (i : Z) : Z :=
  match py_getitem (fertility_of_i a) i with
  | Ok x => x
  | _ => 0
  end.

(** The fertilities of the source positions [0..l] sum to [m], and each is
    the number of target positions aligned to its source position. *)
Definition fertility_invariant (a : AlignmentInfo) : Prop :=
  let l := len (src_sentence a) - 1 in
  let m := len (trg_sentence a) in
  sum_over (fertility_at a) (py_range 0 (l + 1)) = m ∧
  Forall (fun i => py_getitem (fertility_of_i a) i = Ok (aligned_to a i))
         (py_range 0 (l + 1)).

Global Instance fertility_invariant_dec (a : AlignmentInfo) :
  Decision (fertility_invariant a).
Proof. unfold fertility_invariant. apply _. Defined.

(** A subscript that returned a member of [xs]. *)
Definition returned_in (x : result Z) (xs : list Z) : Prop :=
  match x with
  | Ok v => v ∈ xs
  | _ => False
  end.

Global Instance returned_in_dec (x : result Z) (xs : list Z) :
  Decision (returned_in x xs).
Proof. destruct x; simpl; apply _. Defined.

(** Target position [j] is aligned to one of the source positions [0..l]. *)
Definition aligned_in_range (a : AlignmentInfo) (j : Z) : Prop :=
  returned_in (py_getitem (alignment a) j)
              (py_range 0 (len (src_sentence a) - 1 + 1)).

Global Instance aligned_in_range_dec (a : AlignmentInfo) (j : Z) :
  Decision (aligned_in_range a j).
Proof. unfold aligned_in_range. apply _. Defined.

(** The alignments the search works on: they describe the sentence pair,
    slot 0 of the alignment is the unused 0, the two vectors have lengths
    [m + 1] and [l + 1], and the fertility invariant holds. *)
Definition canonical (src : list (option string)) (trg : list string)
    (a : AlignmentInfo) : Prop :=
  src_sentence a = src ∧ trg_sentence a = trg ∧
  length (alignment a) = S (length trg) ∧
  length (fertility_of_i a) = length src ∧
  alignment a !! 0%nat = Some 0 ∧
  fertility_invariant a.

(** ** The loop that builds an initial alignment *)

Section SeedInvariant.

Variable src : list (option string).
Variable trg : list string.
Variable j : Z.

Let l : Z := len src - 1.
Let m : Z := len trg.

(** Target positions of [rest] that the loop will still assign. *)
Definition pending (rest : list Z) : Z :=
  len (filter (fun jj => jj ≠ j) rest).

(** The state of the loop over [jj] with the positions [rest] to go:
    the positions to go are aligned to NULL but not yet counted. *)
Definition seed_inv (rest : list Z) (st : list Z * list Z) : Prop :=
  let cur := mkAlignmentInfo st.1 src trg st.2 in
  NoDup rest ∧ (∀ jj, jj ∈ rest → 1 ≤ jj ≤ m) ∧
  length st.1 = S (length trg) ∧ length st.2 = length src ∧
  st.1 !! 0%nat = Some 0 ∧
  Forall (aligned_in_range cur) (py_range 1 (m + 1)) ∧
  (∀ jj, jj ∈ rest → jj ≠ j → st.1 !! Z.to_nat jj = Some 0) ∧
  (∀ k, 0 ≤ k ≤ l →
        st.2 !! Z.to_nat k =
        Some (aligned_to cur k - if decide (k = 0) then pending rest else 0)).

End SeedInvariant.

Section SampleOrigin.

Context {P : Type} `{Prob P}.

(** Where the members of a sample come from: a neighbourhood of the
    initial alignment of some peg. *)
Definition peg_neighbor trg src (n : AlignmentInfo) : Prop :=
  ∃ (i j : Z) (seed : AlignmentInfo) (ns : list AlignmentInfo)
    (s s' : IBMModel P),
    0 ≤ i ≤ len src - 1 ∧ 1 ≤ j ≤ len trg ∧
    initial_alignment trg src i j s = (Ok seed, s') ∧
    neighboring seed j = Ok ns ∧ n ∈ ns.

End SampleOrigin.

Arguments peg_neighbor P {_} trg src n.

(** ** The search space of the hill climber *)

(** All sequences of [n] elements of [range]. *)
Fixpoint assignments (n : nat) (range : list Z) : list (list Z) :=
  match n with
  | O => [[]]
  | S n' => x ← range; (fun w => x :: w) <$> assignments n' range
  end.

(** The [AlignmentInfo] of the sentence pair whose target positions
    [1..m] are aligned as [w] says. *)
Definition canon (src : list (option string)) (trg : list string)
    (w : list Z) : AlignmentInfo :=
  let shell := mkAlignmentInfo (0 :: w) src trg [] in
  mkAlignmentInfo (0 :: w) src trg
    (aligned_to shell <$> py_range 0 (len src - 1 + 1)).

(** Every alignment the search can visit for a sentence pair. *)
Definition universe (src : list (option string)) (trg : list string)
  : list AlignmentInfo :=
  canon src trg <$> assignments (length trg) (py_range 0 (len src - 1 + 1)).

Section BetterThan.

Context {P : Type} (gt : P → P → bool).
Variable probability : AlignmentInfo → P.
Variable src : list (option string).
Variable trg : list string.

(** The alignments of the search space that beat [cur]. *)
Definition better_than (cur : AlignmentInfo) : list AlignmentInfo :=
  filter (fun x => gt (probability x) (probability cur) = true)
         (universe src trg).

End BetterThan.

(** ** Inputs of the examples *)

Definition example_alignment : AlignmentInfo :=
  mkAlignmentInfo [0; 1; 2; 0] [None; Some "a"; Some "b"]%string
    ["x"; "y"; "z"]%string [1; 1; 1].

Module HillclimbExample.

(** Source [(None, "a")], target [("x", "y")], everything aligned to
    NULL, target position 1 pegged. *)
Definition seed : AlignmentInfo :=
  mkAlignmentInfo [0; 0; 0] [None; Some "a"]%string ["x"; "y"]%string [2; 0].

Definition better : AlignmentInfo :=
  mkAlignmentInfo [0; 0; 1] [None; Some "a"]%string ["x"; "y"]%string [1; 1].

(** A scoring function that prefers ["y"] aligned to ["a"]. *)
Definition probability (a : AlignmentInfo) : float :=
  if bool_decide (alignment a = [0; 0; 1]) then 0.75%float else 0.25%float.

End HillclimbExample.

Module SampleExample.

Definition src : list (option string) := [None; Some "a"]%string.
Definition trg : list string := ["x"; "y"]%string.

(** The member of the sample that aligns both target words to ["a"]. *)
Definition both_to_a : AlignmentInfo := mkAlignmentInfo [0; 1; 1] src trg [0; 2].

Definition run : result (list AlignmentInfo) * IBMModel float :=
  @sample float _ insertion_order (fun _ => 0.5%float) 1 trg src (init []).

End SampleExample.

Module FertilityScorer.

(** A scoring method that reads the fertility table, as the models above
    model 2 do: the probability that NULL has the fertility the
    alignment gives it. *)
Definition probability (a : AlignmentInfo) : method float float :=
  fertility_table_getitem (fertility_at a 0) None.

End FertilityScorer.

Module NullSourceExample.

(** A model that has seen ["x"] and ["y"] generated by NULL. *)
Definition model : IBMModel float :=
  mkIBMModel {[ None ]} {[ "x"; "y" ]}%string
    {[ "x"%string := {[ None := 0.5%float ]};
       "y"%string := {[ None := 0.5%float ]} ]}
    {[ 0 := {[ 1 := {[ 0 := {[ 2 := 0.5%float ]} ]};
               2 := {[ 0 := {[ 2 := 0.5%float ]} ]} ]} ]}
    ∅ 0.5%float.

Definition all_null : AlignmentInfo :=
  mkAlignmentInfo [0; 0; 0] [None] ["x"; "y"]%string [2].

End NullSourceExample.

(** * Properties *)

(** ** The monads *)

Lemma bind_Ok {A B} (r : result A) (f : A → result B) (b : B) :
  r ≫= f = Ok b → ∃ a, r = Ok a ∧ f a = Ok b.
Proof. destruct r; simpl; try discriminate. eauto. Qed.

Lemma of_option_Ok {A} (o : option A) (a : A) :
  of_option o = Ok a ↔ o = Some a.
Proof. destruct o; simpl; split; congruence. Qed.

Lemma bind_Ok_l {A B} (a : A) (f : A → result B) : Ok a ≫= f = f a.
Proof. reflexivity. Qed.

Ltac inv_bind H :=
  let a := fresh "a" in
  let E := fresh "E" in
  apply bind_Ok in H; destruct H as (a & E & H).

Lemma for_each_Ok_inv {A B} (I : B → Prop) (xs : list A)
    (body : B → A → result B) (acc r : B) :
  for_each xs body acc = Ok r →
  I acc →
  (∀ b x b', x ∈ xs → I b → body b x = Ok b' → I b') →
  I r.
Proof.
  revert acc. induction xs as [|x xs IH]; intros acc Hr Hacc Hstep.
  - simpl in Hr. injection Hr as <-. exact Hacc.
  - simpl in Hr. inv_bind Hr.
    apply (IH a Hr).
    + eapply Hstep; [left | exact Hacc | exact E].
    + intros b y b' Hy. apply Hstep. by right.
Qed.

Section MethodMonad.

Context {P : Type} `{Prob P}.

Lemma method_bind_Ok {A B} (c : method P A) (f : A → method P B)
    (self self' : IBMModel P) (b : B) :
  (c ≫= f) self = (Ok b, self') →
  ∃ a s, c self = (Ok a, s) ∧ f a s = (Ok b, self').
Proof.
  unfold mbind, method_bind. destruct (c self) as [[a| |] s]; try discriminate.
  eauto.
Qed.

Lemma method_ret_Ok {A} (a b : A) (self self' : IBMModel P) :
  mret (M := method P) a self = (Ok b, self') → a = b ∧ self = self'.
Proof. unfold mret, method_ret. intros [= -> ->]. done. Qed.

Lemma pure_Ok {A} (r : result A) (a : A) (self self' : IBMModel P) :
  pure r self = (Ok a, self') → r = Ok a ∧ self = self'.
Proof. unfold pure. intros [= -> ->]. done. Qed.

(** A loop invariant that may mention the iterations still to come. *)
Lemma for_each_method_inv {A B} (I : list A → B → Prop) (xs : list A)
    (body : B → A → method P B) (acc r : B) (self self' : IBMModel P) :
  for_each xs body acc self = (Ok r, self') →
  I xs acc →
  (∀ x rest b s b' s',
      I (x :: rest) b → body b x s = (Ok b', s') → I rest b') →
  I [] r.
Proof.
  revert acc self. induction xs as [|x xs IH]; intros acc self Hr Hacc Hstep.
  - simpl in Hr. apply method_ret_Ok in Hr as [<- _]. exact Hacc.
  - simpl in Hr. apply method_bind_Ok in Hr as (a & s & E & Hr).
    apply (IH a s Hr); [|exact Hstep].
    eapply Hstep; [exact Hacc | exact E].
Qed.

(** A property of the model's state that every iteration keeps is kept
    by the loop, whether it ends normally or not. *)
Lemma for_each_method_state {A B} (Q : IBMModel P → Prop) (xs : list A)
    (body : B → A → method P B) (acc : B) (self : IBMModel P) :
  Q self →
  (∀ b x s, Q s → Q (body b x s).2) →
  Q (for_each xs body acc self).2.
Proof.
  revert acc self. induction xs as [|x xs IH]; intros acc self Hq Hstep.
  - exact Hq.
  - simpl. unfold mbind, method_bind.
    pose proof (Hstep acc x self Hq) as Hx.
    destruct (body acc x self) as [[a| |] s]; simpl in *; auto.
Qed.

Lemma method_bind_state {A B} (Q : IBMModel P → Prop) (c : method P A)
    (f : A → method P B) (self : IBMModel P) :
  Q (c self).2 → (∀ a s, Q s → Q (f a s).2) → Q ((c ≫= f) self).2.
Proof.
  unfold mbind, method_bind. intros Hc Hf.
  destruct (c self) as [[a| |] s]; simpl in *; auto.
Qed.

End MethodMonad.

(** ** Python sequences *)

Lemma elem_of_py_range (lo hi x : Z) : x ∈ py_range lo hi ↔ lo ≤ x < hi.
Proof.
  unfold py_range. rewrite list_elem_of_fmap. split.
  - intros (k & -> & Hk). apply elem_of_seq in Hk. lia.
  - intros Hx. exists (Z.to_nat (x - lo)). split; [lia|].
    apply elem_of_seq. lia.
Qed.

Lemma NoDup_py_range (lo hi : Z) : NoDup (py_range lo hi).
Proof.
  unfold py_range. apply NoDup_fmap_2; [|apply NoDup_seq].
  intros a b. lia.
Qed.

Lemma py_index_nonneg (n : nat) (k : Z) :
  0 ≤ k →
  py_index n k = if decide (k < Z.of_nat n) then Some (Z.to_nat k) else None.
Proof.
  intros Hk. unfold py_index. repeat case_decide; try lia; reflexivity.
Qed.

Lemma py_index_lt (n : nat) (k : Z) (i : nat) :
  py_index n k = Some i → (i < n)%nat.
Proof.
  unfold py_index. repeat case_decide; intros [= <-]; lia.
Qed.

Lemma py_getitem_nonneg {A} (xs : list A) (k : Z) (v : A) :
  0 ≤ k → py_getitem xs k = Ok v ↔ xs !! Z.to_nat k = Some v.
Proof.
  intros Hk. unfold py_getitem. rewrite of_option_Ok, py_index_nonneg by done.
  case_decide; simpl; [done|].
  split; [done|]. intros Hl%lookup_lt_Some. lia.
Qed.

Lemma py_getitem_Ok {A} (xs : list A) (k : Z) (v : A) :
  py_getitem xs k = Ok v ↔
  ∃ i, py_index (length xs) k = Some i ∧ xs !! i = Some v.
Proof.
  unfold py_getitem. rewrite of_option_Ok.
  destruct (py_index (length xs) k) as [i|]; simpl; split.
  - eauto.
  - by intros (i' & [= <-] & ?).
  - done.
  - by intros (i' & [=] & ?).
Qed.

Lemma py_setitem_Ok {A} (xs ys : list A) (k : Z) (v : A) :
  py_setitem xs k v = Ok ys ↔
  ∃ i, py_index (length xs) k = Some i ∧ ys = <[i := v]> xs.
Proof.
  unfold py_setitem. rewrite of_option_Ok.
  destruct (py_index (length xs) k) as [i|]; simpl; split.
  - intros [= <-]. eauto.
  - by intros (i' & [= <-] & ->).
  - done.
  - by intros (i' & [=] & ?).
Qed.

Lemma py_setitem_nonneg {A} (xs ys : list A) (k : Z) (v : A) :
  0 ≤ k →
  py_setitem xs k v = Ok ys ↔
  k < len xs ∧ ys = <[Z.to_nat k := v]> xs.
Proof.
  intros Hk. rewrite py_setitem_Ok, py_index_nonneg by done. unfold len.
  case_decide; split.
  - by intros (i & [= <-] & ->).
  - intros [_ ->]. eauto.
  - by intros (i & [=] & _).
  - intros [? _]. lia.
Qed.

Lemma py_additem_Ok (xs ys : list Z) (k d : Z) :
  py_additem xs k d = Ok ys ↔
  ∃ i x, py_index (length xs) k = Some i ∧ xs !! i = Some x ∧
         ys = <[i := x + d]> xs.
Proof.
  unfold py_additem. split.
  - intros H. inv_bind H. apply py_getitem_Ok in E as (i & Hi & Hx).
    apply py_setitem_Ok in H as (i' & Hi' & ->).
    rewrite Hi in Hi'. injection Hi' as <-. eauto.
  - intros (i & x & Hi & Hx & ->).
    assert (py_getitem xs k = Ok x) as -> by (apply py_getitem_Ok; eauto).
    simpl. apply py_setitem_Ok. eauto.
Qed.

(** ** Sets *)

Lemma elem_of_set_add (s : list AlignmentInfo) (x n : AlignmentInfo) :
  n ∈ set_add s x → n ∈ s ∨ n = x.
Proof.
  unfold set_add. destruct (set_contains x s); [by left|].
  rewrite elem_of_app, list_elem_of_singleton. done.
Qed.

Lemma elem_of_foldl_set_add (xs s : list AlignmentInfo) (n : AlignmentInfo) :
  n ∈ foldl set_add s xs → n ∈ s ∨ n ∈ xs.
Proof.
  revert s. induction xs as [|x xs IH]; intros s; simpl; [by left|].
  intros [Hn | Hn]%IH; [|by right; right].
  apply elem_of_set_add in Hn as [? | ->]; [by left | right; by left].
Qed.

Lemma elem_of_set_update `{SetIteration} (s other : list AlignmentInfo)
    (n : AlignmentInfo) :
  n ∈ set_update s other → n ∈ s ∨ n ∈ other.
Proof.
  unfold set_update. intros [? | Hn]%elem_of_foldl_set_add; [by left|].
  right. by rewrite <- (set_iter_perm other).
Qed.

(** ** Where the members of a neighbourhood come from *)

Lemma add_moves_members (a : AlignmentInfo) (j_pegged : Z)
    (ns ns' : list AlignmentInfo) (n : AlignmentInfo) :
  add_moves a j_pegged ns = Ok ns' → n ∈ ns' → n ∈ ns ∨ is_move a j_pegged n.
Proof.
  intros Hadd. revert n. unfold add_moves in Hadd.
  apply (for_each_Ok_inv
           (fun acc => ∀ n, n ∈ acc → n ∈ ns ∨ is_move a j_pegged n)
           _ _ _ _ Hadd); [by left|].
  intros b j b' Hj%elem_of_py_range Hb Hbody.
  case_decide as Hpeg; [|by injection Hbody as <-].
  apply (for_each_Ok_inv
           (fun acc => ∀ n, n ∈ acc → n ∈ ns ∨ is_move a j_pegged n)
           _ _ _ _ Hbody); [exact Hb|].
  intros c i c' Hi%elem_of_py_range Hc Hstep n.
  inv_bind Hstep. injection Hstep as <-.
  intros [Hn | ->]%elem_of_set_add; [by apply Hc|].
  right. exists j, i. repeat split; try done; lia.
Qed.

Lemma add_swaps_members (a : AlignmentInfo) (j_pegged : Z)
    (ns ns' : list AlignmentInfo) (n : AlignmentInfo) :
  add_swaps a j_pegged ns = Ok ns' → n ∈ ns' → n ∈ ns ∨ is_swap a j_pegged n.
Proof.
  intros Hadd. revert n. unfold add_swaps in Hadd.
  apply (for_each_Ok_inv
           (fun acc => ∀ n, n ∈ acc → n ∈ ns ∨ is_swap a j_pegged n)
           _ _ _ _ Hadd); [by left|].
  intros b j b' Hj%elem_of_py_range Hb Hbody.
  case_decide as Hpeg; [|by injection Hbody as <-].
  apply (for_each_Ok_inv
           (fun acc => ∀ n, n ∈ acc → n ∈ ns ∨ is_swap a j_pegged n)
           _ _ _ _ Hbody); [exact Hb|].
  intros c oj c' Hoj%elem_of_py_range Hc Hstep n.
  case_decide as Hne; [|injection Hstep as <-; apply Hc].
  inv_bind Hstep. injection Hstep as <-.
  intros [Hn | ->]%elem_of_set_add; [by apply Hc|].
  right. exists j, oj. repeat split; try tauto; lia.
Qed.

Lemma neighboring_members (a : AlignmentInfo) (j_pegged : Z)
    (ns : list AlignmentInfo) (n : AlignmentInfo) :
  neighboring a j_pegged = Ok ns → n ∈ ns →
  is_move a j_pegged n ∨ is_swap a j_pegged n.
Proof.
  unfold neighboring. intros H Hn. inv_bind H.
  destruct (add_swaps_members _ _ _ _ _ H Hn) as [Hm | ?]; [|by right].
  destruct (add_moves_members _ _ _ _ _ E Hm) as [Hnil | ?]; [|by left].
  by apply elem_of_nil in Hnil.
Qed.

(** ** What a candidate looks like *)

Lemma py_getitem_insert_ne {A} (xs : list A) (i : nat) (v : A) (k : Z) :
  0 ≤ k → k ≠ Z.of_nat i →
  py_getitem (<[i := v]> xs) k = py_getitem xs k.
Proof.
  intros Hk Hne. unfold py_getitem. rewrite length_insert.
  rewrite py_index_nonneg by done. case_decide; simpl; [|done].
  rewrite list_lookup_insert_ne by lia. done.
Qed.

Lemma move_candidate_Ok (a n : AlignmentInfo) (j i : Z) :
  1 ≤ j → move_candidate a j i = Ok n →
  ∃ old_i fertility',
    j < len (alignment a) ∧
    alignment a !! Z.to_nat j = Some old_i ∧
    alignment n = <[Z.to_nat j := i]> (alignment a) ∧
    py_additem (fertility_of_i a) i 1 = Ok fertility' ∧
    py_additem fertility' old_i (-1) = Ok (fertility_of_i n) ∧
    src_sentence n = src_sentence a ∧ trg_sentence n = trg_sentence a.
Proof.
  intros Hj Hm. unfold move_candidate in Hm.
  inv_bind Hm. rename a0 into al, E into Hal.
  inv_bind Hm. rename a0 into fe, E into Hfe.
  inv_bind Hm. rename a0 into old_i, E into Hold.
  inv_bind Hm. rename a0 into fe', E into Hfe'.
  injection Hm as <-. simpl.
  apply py_setitem_nonneg in Hal as [Hlt ->]; [|lia].
  apply py_getitem_nonneg in Hold; [|lia].
  exists old_i, fe. done.
Qed.

Lemma swap_candidate_Ok (a n : AlignmentInfo) (j other_j : Z) :
  1 ≤ j → 1 ≤ other_j → swap_candidate a j other_j = Ok n →
  ∃ a_j a_other,
    alignment a !! Z.to_nat j = Some a_j ∧
    alignment a !! Z.to_nat other_j = Some a_other ∧
    alignment n =
      <[Z.to_nat other_j := a_j]> (<[Z.to_nat j := a_other]> (alignment a)) ∧
    fertility_of_i n = fertility_of_i a ∧
    src_sentence n = src_sentence a ∧ trg_sentence n = trg_sentence a.
Proof.
  intros Hj Hoj Hs. unfold swap_candidate in Hs.
  inv_bind Hs. rename a0 into a_other, E into Hother.
  inv_bind Hs. rename a0 into al, E into Hal.
  inv_bind Hs. rename a0 into a_j, E into Haj.
  inv_bind Hs. rename a0 into al', E into Hal'.
  injection Hs as <-. simpl.
  apply py_getitem_nonneg in Hother; [|lia].
  apply py_getitem_nonneg in Haj; [|lia].
  apply py_setitem_nonneg in Hal as [_ ->]; [|lia].
  apply py_setitem_nonneg in Hal' as [_ ->]; [|lia].
  exists a_j, a_other. done.
Qed.

(** ** The pegged position (C5) *)

(** C5. Every member [n] of [neighboring(a, peg)] has
    [n.alignment[peg] == a.alignment[peg]]: no move and no swap writes the
    pegged target position. Target positions are the non-negative indices
    into the alignment; the two subscripts agree also when both raise. *)
Theorem neighboring_keeps_pegged_position
    (a : AlignmentInfo) (j_pegged : Z) (ns : list AlignmentInfo)
    (n : AlignmentInfo) :
  0 ≤ j_pegged →
  neighboring a j_pegged = Ok ns →
  n ∈ ns →
  py_getitem (alignment n) j_pegged = py_getitem (alignment a) j_pegged.
Proof.
  intros Hpeg Hns Hn.
  destruct (neighboring_members _ _ _ _ Hns Hn) as [Hm | Hs].
  - destruct Hm as (j & i & Hj & Hne & _ & Hm).
    apply move_candidate_Ok in Hm as (? & ? & _ & _ & -> & _); [|lia].
    apply py_getitem_insert_ne; lia.
  - destruct Hs as (j & oj & Hj & Hne & Hoj & Hone & _ & Hs).
    apply swap_candidate_Ok in Hs as (? & ? & _ & _ & -> & _); [|lia..].
    rewrite !py_getitem_insert_ne by lia. done.
Qed.

Lemma neighboring_keeps_pegged_position_witness :
  ∃ ns n,
    neighboring example_alignment 2 = Ok ns ∧ n ∈ ns ∧
    alignment n = [0; 0; 2; 1] ∧
    py_getitem (alignment n) 2 = py_getitem (alignment example_alignment) 2.
Proof.
  eexists _, (mkAlignmentInfo [0; 0; 2; 1] _ _ [1; 1; 1]).
  assert (0 ≤ 2) as Hpeg by lia.
  pose proof (neighboring_keeps_pegged_position example_alignment 2 _
                (mkAlignmentInfo [0; 0; 2; 1]
                   [None; Some "a"; Some "b"]%string ["x"; "y"; "z"]%string
                   [1; 1; 1])
                Hpeg eq_refl) as Hw.
  split; [reflexivity|]. split; [|split; [reflexivity|]].
  - vm_compute. repeat constructor.
  - apply Hw. vm_compute. repeat constructor.
Defined.

(** ** Swaps and the fertility vector (C6) *)

(** C6. Every [AlignmentInfo] that the swap loop of [neighboring] adds to
    the set carries the fertility vector of the input, unchanged. *)
Theorem swap_neighbors_keep_fertility
    (a : AlignmentInfo) (j_pegged : Z) (ns ns' : list AlignmentInfo)
    (n : AlignmentInfo) :
  add_swaps a j_pegged ns = Ok ns' →
  n ∈ ns' →
  n ∉ ns →
  fertility_of_i n = fertility_of_i a.
Proof.
  intros Hadd Hn Hnew.
  destruct (add_swaps_members _ _ _ _ _ Hadd Hn) as [? | Hs]; [done|].
  destruct Hs as (j & oj & Hj & _ & Hoj & _ & _ & Hs).
  apply swap_candidate_Ok in Hs as (? & ? & _ & _ & _ & Hf & _); [done|lia..].
Qed.

Lemma swap_neighbors_keep_fertility_witness :
  ∃ ns' n,
    add_swaps example_alignment 2 [] = Ok ns' ∧ n ∈ ns' ∧
    alignment n = [0; 0; 2; 1] ∧
    fertility_of_i n = fertility_of_i example_alignment.
Proof.
  eexists _, (mkAlignmentInfo [0; 0; 2; 1] _ _ [1; 1; 1]).
  split; [reflexivity|].
  assert (mkAlignmentInfo [0; 0; 2; 1]
            [None; Some "a"; Some "b"]%string ["x"; "y"; "z"]%string [1; 1; 1]
          ∈ [mkAlignmentInfo [0; 0; 2; 1]
               [None; Some "a"; Some "b"]%string ["x"; "y"; "z"]%string
               [1; 1; 1]]) as Hin by (left).
  split; [exact Hin|]. split; [reflexivity|].
  apply (swap_neighbors_keep_fertility example_alignment 2 [] _ _ eq_refl Hin).
  apply not_elem_of_nil.
Defined.

(** ** Equality, hashing and set membership (C7) *)

Lemma AlignmentInfo_eq_spec (a b : AlignmentInfo) :
  AlignmentInfo.eq a b = true ↔ alignment a = alignment b.
Proof. unfold AlignmentInfo.eq. apply bool_decide_eq_true. Qed.

Lemma set_contains_spec (x : AlignmentInfo) (s : list AlignmentInfo) :
  set_contains x s = true ↔ ∃ y, y ∈ s ∧ alignment x = alignment y.
Proof.
  unfold set_contains. rewrite existsb_exists. split.
  - intros (y & Hy%list_elem_of_In & He%AlignmentInfo_eq_spec). eauto.
  - intros (y & Hy%list_elem_of_In & He%AlignmentInfo_eq_spec). eauto.
Qed.

Lemma set_contains_after_add (s : list AlignmentInfo) (x : AlignmentInfo) :
  set_contains x (set_add s x) = true.
Proof.
  unfold set_add. destruct (set_contains x s) eqn:E; [done|].
  apply set_contains_spec. exists x. split; [|done].
  apply elem_of_app. right. by left.
Qed.

(** C7. [a == b] exactly when the alignments are equal, equal instances
    have equal hashes, and an instance whose alignment equals that of an
    instance just added to a set is not added again, whatever the two
    fertility vectors are. *)
Theorem AlignmentInfo_identity_is_alignment
    (tuple_hash : list Z → Z) (a b : AlignmentInfo) :
  (AlignmentInfo.eq a b = true ↔ alignment a = alignment b) ∧
  (AlignmentInfo.eq a b = true →
   AlignmentInfo.hash tuple_hash a = AlignmentInfo.hash tuple_hash b) ∧
  (alignment a = alignment b →
   AlignmentInfo.eq a b = true ∧
   AlignmentInfo.hash tuple_hash a = AlignmentInfo.hash tuple_hash b ∧
   ∀ s, set_add (set_add s a) b = set_add s a).
Proof.
  split; [apply AlignmentInfo_eq_spec|]. split.
  - intros He%AlignmentInfo_eq_spec. unfold AlignmentInfo.hash. by rewrite He.
  - intros He. split; [by apply AlignmentInfo_eq_spec|].
    split; [unfold AlignmentInfo.hash; by rewrite He|].
    intros s. unfold set_add at 1.
    assert (set_contains b (set_add s a) = true) as ->; [|done].
    pose proof (set_contains_after_add s a) as Ha.
    apply set_contains_spec in Ha as (y & Hy & Hay).
    apply set_contains_spec. exists y. split; [done | congruence].
Qed.

(** The same alignment with two different fertility vectors: one member. *)
Example stale_fertility_collapses :
  let a := mkAlignmentInfo [0; 1; 1] [None; Some "a"]%string ["x"; "y"]%string [0; 2] in
  let b := mkAlignmentInfo [0; 1; 1] [None; Some "a"]%string ["x"; "y"]%string [2; 0] in
  a ≠ b ∧ AlignmentInfo.eq a b = true ∧ set_add (set_add [] a) b = [a].
Proof. split; [discriminate|]. split; reflexivity. Qed.

(** ** The probability tables *)

Section Tables.

Context {P : Type} `{Prob P}.

Lemma floor_extends_refl (o : option P) : floor_extends o o.
Proof. by left. Qed.

Lemma floor_extends_trans (o1 o2 o3 : option P) :
  floor_extends o1 o2 → floor_extends o2 o3 → floor_extends o1 o3.
Proof.
  unfold floor_extends. intros [-> | [-> ->]] [-> | [? ->]]; auto.
Qed.

Lemma dd_getitem_fst `{Countable K} {V} (f : V) (k : K) (d : gmap K V) :
  (dd_getitem f k d).1 = default f (d !! k).
Proof. unfold dd_getitem. by destruct (d !! k). Qed.

Lemma dd_getitem_snd `{Countable K} {V} (f : V) (k : K) (d : gmap K V) :
  (dd_getitem f k d).2 = <[k := default f (d !! k)]> d.
Proof.
  unfold dd_getitem. destruct (d !! k) eqn:E; simpl; [|done].
  by rewrite insert_id.
Qed.

Lemma dd_nested_fst `{Countable K} {V R} (f : V) (k : K)
    (inner : V → R * V) (d : gmap K V) :
  (dd_nested f k inner d).1 = (inner (default f (d !! k))).1.
Proof.
  unfold dd_nested. rewrite (surjective_pairing (dd_getitem f k d)).
  rewrite dd_getitem_fst. by destruct (inner _).
Qed.

Lemma dd_nested_snd `{Countable K} {V R} (f : V) (k : K)
    (inner : V → R * V) (d : gmap K V) :
  (dd_nested f k inner d).2 = <[k := (inner (default f (d !! k))).2]> d.
Proof.
  unfold dd_nested. rewrite (surjective_pairing (dd_getitem f k d)).
  rewrite dd_getitem_fst, dd_getitem_snd. destruct (inner _); simpl.
  by rewrite insert_insert_eq.
Qed.

Lemma dd_getitem_extends `{Countable K} (k k' : K) (d : gmap K P) :
  floor_extends (d !! k') ((dd_getitem MIN_PROB k d).2 !! k').
Proof.
  rewrite dd_getitem_snd. destruct (decide (k = k')) as [<- | Hne].
  - rewrite lookup_insert_eq. destruct (d !! k); [by left | by right].
  - rewrite lookup_insert_ne by done. by left.
Qed.

(** One more level of nesting: if reading through [inner] only floors
    missing entries of the inner dictionary, so does reading through
    [d[k]] first. [entry] names the entries of an inner dictionary. *)
Lemma dd_nested_extends `{Countable K} {V R E} (entry : V → E → option P)
    (f : V) (inner : V → R * V) (k k' : K) (e : E) (d : gmap K V) :
  (∀ e, entry f e = None) →
  (∀ v e, floor_extends (entry v e) (entry (inner v).2 e)) →
  floor_extends (d !! k' ≫= (fun v => entry v e))
                ((dd_nested f k inner d).2 !! k' ≫= (fun v => entry v e)).
Proof.
  intros Hf Hinner. rewrite dd_nested_snd.
  destruct (decide (k = k')) as [<- | Hne].
  - rewrite lookup_insert_eq. simpl.
    destruct (d !! k) as [v|]; simpl; [apply Hinner|].
    rewrite <- (Hf e). apply Hinner.
  - rewrite lookup_insert_ne by done. by left.
Qed.

(** The value a subscript chain returns is the entry, or the floor. *)
Lemma translation_table_getitem_fst (self : IBMModel P) (t : string)
    (s : option string) :
  (translation_table_getitem t s self).1 =
  Ok (default MIN_PROB (translation_entry self t s)).
Proof.
  unfold translation_table_getitem, translation_entry.
  rewrite (surjective_pairing (dd_nested _ _ _ _)). simpl.
  rewrite dd_nested_fst, dd_getitem_fst.
  destruct (translation_table self !! t) as [row|]; simpl; [done|].
  by rewrite lookup_empty.
Qed.

Lemma alignment_table_getitem_fst (self : IBMModel P) (i j l m : Z) :
  (alignment_table_getitem i j l m self).1 =
  Ok (default MIN_PROB (alignment_entry self i j l m)).
Proof.
  unfold alignment_table_getitem, alignment_entry.
  rewrite (surjective_pairing (dd_nested _ _ _ _)). simpl.
  rewrite !dd_nested_fst, dd_getitem_fst.
  destruct (alignment_table self !! i) as [d1|]; simpl;
    [|by rewrite !lookup_empty].
  destruct (d1 !! j) as [d2|]; simpl; [|by rewrite !lookup_empty].
  destruct (d2 !! l) as [d3|]; simpl; [done | by rewrite !lookup_empty].
Qed.

End Tables.

(** ** What a method does to the model's state *)

Section ReadsOnly.

Context {P : Type} `{Prob P} `{SetIteration}.

Lemma reads_only_refl (self : IBMModel P) : reads_only self self.
Proof. repeat split; intros; apply floor_extends_refl. Qed.

Lemma reads_only_trans (s1 s2 s3 : IBMModel P) :
  reads_only s1 s2 → reads_only s2 s3 → reads_only s1 s3.
Proof.
  intros (? & ? & ? & ? & Ht & Ha) (? & ? & ? & ? & Ht' & Ha').
  repeat split; try congruence.
  - intros t s. eapply floor_extends_trans; [apply Ht | apply Ht'].
  - intros i j l m. eapply floor_extends_trans; [apply Ha | apply Ha'].
Qed.

Lemma preserves_ret {A} (a : A) : preserves (mret a).
Proof. intros self. apply reads_only_refl. Qed.

Lemma preserves_pure {A} (r : result A) : preserves (pure r).
Proof. intros self. apply reads_only_refl. Qed.

Lemma preserves_bind {A B} (c : method P A) (f : A → method P B) :
  preserves c → (∀ a, preserves (f a)) → preserves (c ≫= f).
Proof.
  intros Hc Hf self. specialize (Hc self).
  unfold mbind, method_bind. destruct (c self) as [[a| |] s]; simpl in *; try done.
  eapply reads_only_trans; [exact Hc | apply Hf].
Qed.

Lemma preserves_for_each {A B} (xs : list A) (body : B → A → method P B)
    (acc : B) :
  (∀ b x, preserves (body b x)) → preserves (for_each xs body acc).
Proof.
  intros Hbody. revert acc. induction xs as [|x xs IH]; intros acc; simpl.
  - apply preserves_ret.
  - apply preserves_bind; [apply Hbody | intros a; apply IH].
Qed.

Lemma preserves_translation_table_getitem (t : string) (s : option string) :
  preserves (translation_table_getitem t s).
Proof.
  intros self. unfold translation_table_getitem.
  rewrite (surjective_pairing (dd_nested _ _ _ _)).
  repeat split; simpl; intros; try apply floor_extends_refl.
  unfold translation_entry; simpl.
  apply (dd_nested_extends (fun (row : gmap (option string) P) s => row !! s)).
  - intros e. apply lookup_empty.
  - intros v e. apply dd_getitem_extends.
Qed.

Lemma preserves_alignment_table_getitem (i j l m : Z) :
  preserves (alignment_table_getitem i j l m).
Proof.
  intros self. unfold alignment_table_getitem.
  rewrite (surjective_pairing (dd_nested _ _ _ _)).
  repeat split; simpl; intros; try apply floor_extends_refl.
  unfold alignment_entry; simpl.
  apply (dd_nested_extends
           (fun (d : gmap Z (gmap Z (gmap Z P))) (e : Z * (Z * Z)) =>
              d !! e.1 ≫= (fun d => d !! e.2.1 ≫= (fun d => d !! e.2.2)))
           _ _ _ _ (_, (_, _))).
  { intros e. by rewrite lookup_empty. }
  intros d1 [j1 [l1 m1]]; simpl.
  apply (dd_nested_extends
           (fun (d : gmap Z (gmap Z P)) (e : Z * Z) =>
              d !! e.1 ≫= (fun d => d !! e.2))
           _ _ _ _ (_, _)).
  { intros e. by rewrite lookup_empty. }
  intros d2 [l2 m2]; simpl.
  apply (dd_nested_extends (fun (d : gmap Z P) (e : Z) => d !! e)).
  { intros e. apply lookup_empty. }
  intros d3 m3. apply dd_getitem_extends.
Qed.

Lemma preserves_best_model2_source trg src (jj : Z) :
  preserves (best_model2_source trg src jj).
Proof.
  unfold best_model2_source. apply preserves_bind; [|intros; apply preserves_ret].
  apply preserves_for_each. intros [mx best] ii.
  apply preserves_bind; [apply preserves_pure | intros s].
  apply preserves_bind; [apply preserves_pure | intros t].
  apply preserves_bind; [apply preserves_translation_table_getitem | intros pt].
  apply preserves_bind; [apply preserves_alignment_table_getitem | intros pa].
  simpl. destruct (prob_gt _ _); apply preserves_ret.
Qed.

Lemma preserves_initial_alignment trg src (i j : Z) :
  preserves (initial_alignment trg src i j).
Proof.
  unfold initial_alignment.
  apply preserves_bind; [apply preserves_pure | intros al].
  apply preserves_bind; [apply preserves_pure | intros fe].
  apply preserves_bind; [|intros; apply preserves_ret].
  apply preserves_for_each. intros [al' fe'] jj.
  case_decide; [|apply preserves_ret].
  apply preserves_bind; [apply preserves_best_model2_source | intros best_i].
  apply preserves_bind; [apply preserves_pure | intros al''].
  apply preserves_bind; [apply preserves_pure | intros fe''].
  apply preserves_ret.
Qed.

Lemma preserves_sample probability fuel trg src :
  preserves (sample probability fuel trg src).
Proof.
  unfold sample. apply preserves_for_each. intros sampled i.
  apply preserves_for_each. intros sampled' j. unfold sample_peg.
  apply preserves_bind; [apply preserves_initial_alignment | intros a].
  apply preserves_bind; [apply preserves_pure | intros best].
  apply preserves_bind; [apply preserves_pure | intros ns].
  apply preserves_ret.
Qed.

End ReadsOnly.

(** ** The floor of the translation table (C8) *)

(** C8. Subscripting the translation table with a pair (target word,
    source word) that has no entry returns, without raising, exactly
    [MIN_PROB], which is the float [1.0e-12] and is not zero. *)
Theorem unseen_translation_reads_floor
    (self : IBMModel float) (t : string) (s : option string) :
  translation_entry self t s = None →
  (translation_table_getitem t s self).1 = Ok MIN_PROB ∧
  MIN_PROB = Float64.min_prob ∧
  PrimFloat.eqb MIN_PROB 0 = false.
Proof.
  intros Hnone. rewrite translation_table_getitem_fst, Hnone. done.
Qed.

Lemma unseen_translation_reads_floor_witness :
  translation_entry (init (P := float) []) "x" None = None ∧
  (translation_table_getitem "x" None (init (P := float) [])).1
  = Ok Float64.min_prob.
Proof.
  split; [reflexivity|].
  apply (unseen_translation_reads_floor (init []) "x" None). reflexivity.
Defined.

(** ** Reading the tables writes them (C3) *)

Section FloorsMissingEntries.

Context {P : Type} `{Prob P} `{SetIteration}.

Lemma floors_missing_entries_refl (self : IBMModel P) :
  floors_missing_entries self self.
Proof. split_and!; intros; by try apply floor_extends_refl. Qed.

Lemma floors_missing_entries_trans (s1 s2 s3 : IBMModel P) :
  floors_missing_entries s1 s2 → floors_missing_entries s2 s3 →
  floors_missing_entries s1 s3.
Proof.
  intros (Hp & Ht & Ha & Hf) (Hp' & Ht' & Ha' & Hf').
  split_and!; [congruence | intros t s | intros i j l m | intros n s];
    (eapply floor_extends_trans; [apply Ht || apply Ha || apply Hf|]);
    done.
Qed.

Lemma reads_only_floors_missing_entries (self self' : IBMModel P) :
  reads_only self self' → floors_missing_entries self self'.
Proof.
  intros (_ & _ & Hf & Hp & Ht & Ha). split_and!; try done.
  intros n s. unfold fertility_entry. rewrite Hf. apply floor_extends_refl.
Qed.

Lemma fertility_table_getitem_fst (self : IBMModel P) (fertility : Z)
    (s : option string) :
  (fertility_table_getitem fertility s self).1
  = Ok (default MIN_PROB (fertility_entry self fertility s)).
Proof.
  unfold fertility_table_getitem, fertility_entry.
  rewrite (surjective_pairing (dd_nested _ _ _ _)). simpl.
  rewrite dd_nested_fst. f_equal.
  destruct (fertility_table self !! fertility) as [row|]; simpl.
  - rewrite dd_getitem_fst. done.
  - rewrite dd_getitem_fst, lookup_empty. done.
Qed.

Lemma fertility_table_getitem_floors (fertility : Z) (s : option string) :
  keeps floors_missing_entries (fertility_table_getitem fertility s).
Proof.
  intros self. unfold fertility_table_getitem.
  rewrite (surjective_pairing (dd_nested _ _ _ _)).
  split_and!; simpl; intros; try apply floor_extends_refl; [done|].
  unfold fertility_entry; simpl.
  apply (dd_nested_extends (fun (row : gmap (option string) P) s => row !! s)).
  - intros e. apply lookup_empty.
  - intros v e. apply dd_getitem_extends.
Qed.

End FloorsMissingEntries.

(** What every step of [sample] keeps, the climb with its scoring method
    included. [R] relates the state of the model before a step to the
    state after it. *)
Section ScoringMethodFrame.

Context {P : Type} `{Prob P} `{SetIteration}.

Variable R : IBMModel P → IBMModel P → Prop.
Hypothesis R_refl : ∀ s, R s s.
Hypothesis R_trans : ∀ s1 s2 s3, R s1 s2 → R s2 s3 → R s1 s3.
Hypothesis R_reads : ∀ s s', reads_only s s' → R s s'.

Variable probability : AlignmentInfo → method P P.
Hypothesis probability_keeps : ∀ a, keeps R (probability a).

Lemma keeps_ret {A} (a : A) : keeps R (mret a : method P A).
Proof. intros self. apply R_refl. Qed.

Lemma keeps_pure {A} (r : result A) : keeps R (pure (P := P) r).
Proof. intros self. apply R_refl. Qed.

Lemma keeps_bind {A B} (c : method P A) (f : A → method P B) :
  keeps R c → (∀ a, keeps R (f a)) → keeps R (c ≫= f).
Proof.
  intros Hc Hf self. specialize (Hc self).
  unfold mbind, method_bind.
  destruct (c self) as [[a| |] s]; simpl in *; try done.
  eapply R_trans; [exact Hc | apply Hf].
Qed.

Lemma keeps_for_each {A B} (xs : list A) (body : B → A → method P B)
    (acc : B) :
  (∀ b x, keeps R (body b x)) → keeps R (for_each xs body acc).
Proof.
  intros Hbody. revert acc. induction xs as [|x xs IH]; intros acc; simpl.
  - apply keeps_ret.
  - apply keeps_bind; [apply Hbody | intros a; apply IH].
Qed.

Lemma keeps_preserves {A} (c : method P A) : preserves c → keeps R c.
Proof. intros Hc self. apply R_reads, Hc. Qed.

Lemma keeps_hillclimb_pass (neighbors : list AlignmentInfo)
    (alignment : AlignmentInfo) :
  keeps R (ScoringMethod.hillclimb_pass probability neighbors alignment).
Proof.
  unfold ScoringMethod.hillclimb_pass. apply keeps_for_each.
  intros a n.
  apply keeps_bind; [apply probability_keeps | intros pn].
  apply keeps_bind; [apply probability_keeps | intros pc].
  destruct (prob_gt pn pc); apply keeps_ret.
Qed.

Lemma keeps_hillclimb_loop (fuel : nat) (alignment : AlignmentInfo)
    (j_pegged : Z) :
  keeps R (ScoringMethod.hillclimb_loop probability fuel alignment j_pegged).
Proof.
  revert alignment. induction fuel as [|fuel IH]; intros alignment; simpl.
  - apply keeps_pure.
  - apply keeps_bind; [apply keeps_pure | intros ns].
    apply keeps_bind; [apply keeps_hillclimb_pass | intros a].
    destruct (AlignmentInfo.eq a alignment); [apply keeps_ret | apply IH].
Qed.

Lemma keeps_hillclimb (fuel : nat) (alignment_info : AlignmentInfo)
    (j_pegged : Z) :
  keeps R (ScoringMethod.hillclimb probability fuel alignment_info j_pegged).
Proof.
  unfold ScoringMethod.hillclimb.
  apply keeps_bind; [apply keeps_hillclimb_loop | intros _; apply keeps_ret].
Qed.

Lemma keeps_sample (fuel : nat) (trg : list string)
    (src : list (option string)) :
  keeps R (ScoringMethod.sample probability fuel trg src).
Proof.
  unfold ScoringMethod.sample. apply keeps_for_each. intros sampled i.
  apply keeps_for_each. intros sampled' j. unfold ScoringMethod.sample_peg.
  apply keeps_bind;
    [apply keeps_preserves, preserves_initial_alignment | intros a].
  apply keeps_bind; [apply keeps_hillclimb | intros best].
  apply keeps_bind; [apply keeps_pure | intros ns].
  apply keeps_ret.
Qed.

End ScoringMethodFrame.

(** The climb and the sampler over a scoring function that does not
    touch the model are those over the scoring method that returns its
    value and leaves the state as it is. *)
Section StateFreeScorer.

Context {P : Type} `{Prob P} `{SetIteration}.

Variable probability : AlignmentInfo → P.

Lemma for_each_method_ext {A B} (xs : list A)
    (body1 body2 : B → A → method P B) (acc : B) (self : IBMModel P) :
  (∀ b x s, body1 b x s = body2 b x s) →
  for_each xs body1 acc self = for_each xs body2 acc self.
Proof.
  intros Hbody. revert acc self.
  induction xs as [|x xs IH]; intros acc self; [done|].
  simpl. unfold mbind, method_bind. rewrite Hbody.
  destruct (body2 acc x self) as [[a| |] s]; [apply IH | done | done].
Qed.

Lemma method_bind_ext {A B} (c : method P A) (f g : A → method P B)
    (self : IBMModel P) :
  (∀ a s, f a s = g a s) → (c ≫= f) self = (c ≫= g) self.
Proof.
  intros Hfg. unfold mbind, method_bind.
  destruct (c self) as [[a| |] s]; [apply Hfg | done | done].
Qed.

Lemma hillclimb_pass_state_free (neighbors : list AlignmentInfo)
    (alignment : AlignmentInfo) (self : IBMModel P) :
  ScoringMethod.hillclimb_pass (fun a => mret (probability a))
    neighbors alignment self
  = (Ok (hillclimb_pass prob_gt probability neighbors alignment), self).
Proof.
  unfold ScoringMethod.hillclimb_pass, hillclimb_pass.
  generalize (set_iter neighbors). intros xs. revert alignment.
  induction xs as [|x xs IH]; intros alignment; [done|].
  simpl. rewrite <- IH. unfold mbind, method_bind, mret, method_ret.
  by destruct (prob_gt _ _).
Qed.

Lemma hillclimb_loop_state_free (fuel : nat) (alignment : AlignmentInfo)
    (j_pegged : Z) (self : IBMModel P) :
  ScoringMethod.hillclimb_loop (fun a => mret (probability a))
    fuel alignment j_pegged self
  = (hillclimb_loop prob_gt probability fuel alignment j_pegged, self).
Proof.
  revert alignment. induction fuel as [|fuel IH]; intros alignment; [done|].
  simpl. unfold mbind at 1, method_bind at 1, pure at 1.
  destruct (neighboring alignment j_pegged) as [ns| |]; try done.
  simpl. unfold mbind at 1, method_bind at 1.
  rewrite hillclimb_pass_state_free.
  destruct (AlignmentInfo.eq _ alignment); [done | apply IH].
Qed.

Lemma hillclimb_state_free (fuel : nat) (alignment_info : AlignmentInfo)
    (j_pegged : Z) (self : IBMModel P) :
  ScoringMethod.hillclimb (fun a => mret (probability a))
    fuel alignment_info j_pegged self
  = (hillclimb prob_gt probability fuel alignment_info j_pegged, self).
Proof.
  unfold ScoringMethod.hillclimb, hillclimb.
  unfold mbind at 1, method_bind at 1. rewrite hillclimb_loop_state_free.
  by destruct (hillclimb_loop _ _ _ _ _).
Qed.

Lemma sample_state_free (fuel : nat) (trg : list string)
    (src : list (option string)) (self : IBMModel P) :
  ScoringMethod.sample (fun a => mret (probability a)) fuel trg src self
  = sample probability fuel trg src self.
Proof.
  unfold ScoringMethod.sample, sample.
  apply for_each_method_ext. intros sampled i s.
  apply for_each_method_ext. intros sampled' j s'.
  unfold ScoringMethod.sample_peg, sample_peg.
  apply method_bind_ext. intros a s''.
  unfold mbind, method_bind. rewrite hillclimb_state_free. reflexivity.
Qed.

End StateFreeScorer.

(** C3, as the code has it. [sample] itself does nothing to the model but
    subscript the translation and alignment tables; [hillclimb] calls the
    scoring method [self.probability] on the same model. When the scoring
    method does no more than subscript the tables (it leaves [p1] alone,
    and an entry of a table is after a call what it was, or was missing
    and holds [MIN_PROB]), then after [sample], whether it returned or
    raised: [p1] is what it was; in the three tables every entry that
    existed is still there with its value, and an entry that did not exist
    is still missing or now holds [MIN_PROB]; so every subscript of a
    table returns what it returned before. When moreover the scoring
    method leaves the fertility table as it is, so does [sample]. *)
Theorem sample_only_floors_missing_entries
    {P : Type} `{Prob P} `{SetIteration}
    (probability : AlignmentInfo → method P P) (fuel : nat)
    (trg_sentence : list string) (src_sentence : list (option string))
    (self : IBMModel P) :
  (∀ a, keeps floors_missing_entries (probability a)) →
  let self' :=
    (ScoringMethod.sample probability fuel trg_sentence src_sentence
       self).2 in
  p1 self' = p1 self ∧
  (∀ t s, floor_extends (translation_entry self t s)
                        (translation_entry self' t s)) ∧
  (∀ i j l m, floor_extends (alignment_entry self i j l m)
                            (alignment_entry self' i j l m)) ∧
  (∀ fertility s, floor_extends (fertility_entry self fertility s)
                                (fertility_entry self' fertility s)) ∧
  (∀ t s, (translation_table_getitem t s self').1
          = (translation_table_getitem t s self).1) ∧
  (∀ i j l m, (alignment_table_getitem i j l m self').1
              = (alignment_table_getitem i j l m self).1) ∧
  (∀ fertility s, (fertility_table_getitem fertility s self').1
                  = (fertility_table_getitem fertility s self).1) ∧
  ((∀ a s, fertility_table (probability a s).2 = fertility_table s) →
   fertility_table self' = fertility_table self).
Proof.
  intros Hprob self'.
  destruct (keeps_sample floors_missing_entries
              floors_missing_entries_refl floors_missing_entries_trans
              reads_only_floors_missing_entries probability Hprob
              fuel trg_sentence src_sentence self)
    as (Hp & Ht & Ha & Hf).
  fold self' in Hp, Ht, Ha, Hf.
  split_and!; try done.
  - intros t s. rewrite !translation_table_getitem_fst.
    destruct (Ht t s) as [-> | [-> ->]]; done.
  - intros i j l m. rewrite !alignment_table_getitem_fst.
    destruct (Ha i j l m) as [-> | [-> ->]]; done.
  - intros n s. rewrite !fertility_table_getitem_fst.
    destruct (Hf n s) as [-> | [-> ->]]; done.
  - intros Hsame.
    apply (keeps_sample (fun s s' => fertility_table s' = fertility_table s));
      [done | intros s1 s2 s3 H12 H23; congruence
      | by intros s s' (_ & _ & ? & _) | exact Hsame].
Qed.

Lemma sample_only_floors_missing_entries_witness :
  let self := init (P := float) [] in
  let self' :=
    (@ScoringMethod.sample float _ insertion_order
       FertilityScorer.probability 5 SampleExample.trg SampleExample.src
       self).2 in
  p1 self' = p1 self ∧
  ∀ fertility s, (fertility_table_getitem fertility s self').1
                 = (fertility_table_getitem fertility s self).1.
Proof.
  intros self self'.
  assert (∀ a, keeps floors_missing_entries (FertilityScorer.probability a))
    as Hprob by (intros a; apply fertility_table_getitem_floors).
  destruct (sample_only_floors_missing_entries (H0 := insertion_order)
              FertilityScorer.probability 5
              SampleExample.trg SampleExample.src self Hprob)
    as (Hp & _ & _ & _ & _ & _ & Hf & _).
  split; [exact Hp | exact Hf].
Defined.

(** The claim as the spec words it fails: a model fresh from [__init__]
    has an empty translation table, and a table with a row for ["x"] once a
    two-word sentence has been sampled. *)
Lemma sample_grows_translation_table :
  let self := init (P := float) [] in
  let self' :=
    (@sample float _ insertion_order (fun _ => 0%float) 1
       ["x"; "y"]%string [None; Some "a"]%string self).2 in
  translation_table self !! "x"%string = None ∧
  translation_entry self' "x" None = Some Float64.min_prob ∧
  translation_table self' ≠ translation_table self.
Proof.
  intros self self'.
  assert (translation_entry self' "x" None = Some Float64.min_prob) as He
    by (vm_compute; reflexivity).
  split; [reflexivity|]. split; [exact He|].
  intros Heq. unfold translation_entry in He. rewrite Heq in He.
  discriminate He.
Qed.

(** The fertility table grows in the same way under a scoring method that
    subscripts it: [sample] never touches the table, the climb it starts
    does. *)
Lemma sample_grows_fertility_table :
  let self := init (P := float) [] in
  let self' :=
    (@ScoringMethod.sample float _ insertion_order
       FertilityScorer.probability 5 SampleExample.trg SampleExample.src
       self).2 in
  fertility_table self = ∅ ∧
  fertility_entry self' 2 None = Some Float64.min_prob ∧
  fertility_table self' ≠ fertility_table self.
Proof.
  intros self self'.
  assert (fertility_entry self' 2 None = Some Float64.min_prob) as He
    by (vm_compute; reflexivity).
  split; [reflexivity|]. split; [exact He|].
  intros Heq. unfold fertility_entry in He. rewrite Heq in He.
  discriminate He.
Qed.

(** ** Hill climbing returns its argument (C1) *)

Lemma hillclimb_returns_argument {P : Type} (gt : P → P → bool)
    `{SetIteration} (probability : AlignmentInfo → P) (fuel : nat)
    (alignment_info r : AlignmentInfo) (j_pegged : Z) :
  hillclimb gt probability fuel alignment_info j_pegged = Ok r →
  r = alignment_info.
Proof. unfold hillclimb. intros Hr. inv_bind Hr. congruence. Qed.

Lemma hillclimb_of_loop {P : Type} (gt : P → P → bool)
    `{SetIteration} (probability : AlignmentInfo → P) (fuel : nat)
    (alignment_info best : AlignmentInfo) (j_pegged : Z) :
  hillclimb_loop gt probability fuel alignment_info j_pegged = Ok best →
  hillclimb gt probability fuel alignment_info j_pegged = Ok alignment_info.
Proof. unfold hillclimb. by intros ->. Qed.

Lemma hillclimb_loop_S {P : Type} (gt : P → P → bool) `{SetIteration}
    (probability : AlignmentInfo → P) (fuel : nat) (a : AlignmentInfo)
    (j_pegged : Z) :
  hillclimb_loop gt probability (S fuel) a j_pegged =
  neighbors ← neighboring a j_pegged;
  if AlignmentInfo.eq (hillclimb_pass gt probability neighbors a) a
  then Ok (hillclimb_pass gt probability neighbors a)
  else hillclimb_loop gt probability fuel
         (hillclimb_pass gt probability neighbors a) j_pegged.
Proof. reflexivity. Qed.

(** The two members of a neighbourhood in the example, in either order. *)
Lemma set_iter_pair `{SetIteration} (x y : AlignmentInfo) :
  set_iter [x; y] = [x; y] ∨ set_iter [x; y] = [y; x].
Proof.
  apply Permutation_length_2_inv. symmetry. apply set_iter_perm.
Qed.

(** C1 fails on the code. From [seed], the loop of [hillclimb] climbs to
    [better] and stops there, a fixed point; but [hillclimb] returns
    [alignment_info], the seed it was given, and [better] is a neighbour of
    the seed with a strictly greater probability. This is so in whatever
    order the sets are walked. *)
Theorem hillclimb_returns_seed_not_fixed_point (order : SetIteration) :
  hillclimb_loop prob_gt HillclimbExample.probability 2
    HillclimbExample.seed 1 = Ok HillclimbExample.better ∧
  hillclimb prob_gt HillclimbExample.probability 2
    HillclimbExample.seed 1 = Ok HillclimbExample.seed ∧
  (∃ ns, neighboring HillclimbExample.seed 1 = Ok ns ∧
         HillclimbExample.better ∈ ns) ∧
  prob_gt (HillclimbExample.probability HillclimbExample.better)
          (HillclimbExample.probability HillclimbExample.seed) = true.
Proof.
  assert (neighboring HillclimbExample.seed 1
          = Ok [HillclimbExample.seed; HillclimbExample.better]) as Hns
    by (vm_compute; reflexivity).
  assert (neighboring HillclimbExample.better 1
          = Ok [HillclimbExample.seed; HillclimbExample.better]) as Hns'
    by (vm_compute; reflexivity).
  assert (∀ cur, cur = HillclimbExample.seed ∨ cur = HillclimbExample.better →
            hillclimb_pass prob_gt HillclimbExample.probability
              [HillclimbExample.seed; HillclimbExample.better] cur
            = HillclimbExample.better) as Hpass.
  { intros cur Hcur. unfold hillclimb_pass.
    destruct (set_iter_pair HillclimbExample.seed HillclimbExample.better)
      as [-> | ->]; destruct Hcur as [-> | ->]; vm_compute; reflexivity. }
  assert (hillclimb_loop prob_gt HillclimbExample.probability 2
            HillclimbExample.seed 1 = Ok HillclimbExample.better) as Hloop.
  { rewrite hillclimb_loop_S, Hns, bind_Ok_l, Hpass by (by left).
    replace (AlignmentInfo.eq HillclimbExample.better HillclimbExample.seed)
      with false by reflexivity.
    rewrite hillclimb_loop_S, Hns', bind_Ok_l, Hpass by (by right).
    reflexivity. }
  split; [exact Hloop|].
  split; [by eapply hillclimb_of_loop|].
  split; [|vm_compute; reflexivity].
  exists [HillclimbExample.seed; HillclimbExample.better].
  split; [exact Hns | right; left].
Qed.

(** ** A target sentence of one word (C10) *)

Lemma set_iter_nil `{SetIteration} : set_iter [] = [].
Proof. apply Permutation_nil_r. apply set_iter_perm. Qed.

Lemma neighboring_single_target (a : AlignmentInfo) :
  length (trg_sentence a) = 1%nat → neighboring a 1 = Ok [].
Proof.
  intros Hm. unfold neighboring, add_moves, add_swaps, len. rewrite Hm.
  reflexivity.
Qed.

Lemma hillclimb_single_target {P : Type} (gt : P → P → bool)
    `{SetIteration} (probability : AlignmentInfo → P) (fuel : nat)
    (a : AlignmentInfo) :
  length (trg_sentence a) = 1%nat →
  hillclimb gt probability (S fuel) a 1 = Ok a.
Proof.
  intros Hm. unfold hillclimb. simpl.
  rewrite neighboring_single_target by done. simpl.
  unfold hillclimb_pass. rewrite set_iter_nil. simpl.
  unfold AlignmentInfo.eq. rewrite bool_decide_eq_true_2 by done. done.
Qed.

Section MethodLoops.

Context {P : Type} `{Prob P}.

Lemma method_bind_eq {A B} (c : method P A) (f : A → method P B)
    (self s : IBMModel P) (a : A) :
  c self = (Ok a, s) → (c ≫= f) self = f a s.
Proof. unfold mbind, method_bind. by intros ->. Qed.

Lemma for_each_method_skip {A B} (xs : list A) (body : B → A → method P B)
    (acc : B) (self : IBMModel P) :
  (∀ x, x ∈ xs → body acc x self = (Ok acc, self)) →
  for_each xs body acc self = (Ok acc, self).
Proof.
  induction xs as [|x xs IH]; intros Hbody; [done|].
  simpl. rewrite (method_bind_eq _ _ _ self acc) by (apply Hbody; left).
  apply IH. intros y Hy. apply Hbody. by right.
Qed.

End MethodLoops.

(** C10. For a target sentence of exactly one word, [sample] returns the
    empty set, for every source sentence: the only target position is the
    pegged one, so no neighbourhood has a member. (The loop of [hillclimb]
    breaks in its first round; the model's state is not touched.) *)
Theorem sample_single_target_word
    {P : Type} `{Prob P} `{SetIteration}
    (probability : AlignmentInfo → P) (fuel : nat)
    (trg_sentence : list string) (src_sentence : list (option string))
    (self : IBMModel P) :
  length trg_sentence = 1%nat →
  (0 < fuel)%nat →
  sample probability fuel trg_sentence src_sentence self = (Ok [], self).
Proof.
  intros Hm Hfuel. destruct fuel as [|fuel]; [lia|].
  unfold sample. apply for_each_method_skip. intros i Hi%elem_of_py_range.
  unfold len. rewrite Hm. change (py_range 1 (Z.of_nat 1 + 1)) with [1].
  cbn [for_each]. unfold sample_peg, initial_alignment, len. rewrite Hm.
  change (py_setitem (py_repeat 0 (Z.of_nat 1 + 1)) 1 i) with (Ok [0; i]).
  assert (py_setitem (py_repeat 0 (Z.of_nat (length src_sentence) - 1 + 1)) i 1
          = Ok (<[Z.to_nat i := 1]>
                  (py_repeat 0 (Z.of_nat (length src_sentence) - 1 + 1))))
    as Hfe.
  { apply py_setitem_nonneg; [lia|]. split; [|done].
    unfold len, py_repeat. rewrite length_replicate. unfold len in Hi. lia. }
  rewrite Hfe. change (py_range 1 (Z.of_nat 1 + 1)) with [1].
  cbn [for_each]. unfold pure, mret, method_ret, mbind, method_bind.
  rewrite decide_False by (intros Hne; by apply Hne).
  rewrite hillclimb_single_target by done.
  rewrite neighboring_single_target by done.
  unfold set_update. rewrite set_iter_nil. done.
Qed.

Lemma sample_single_target_word_witness :
  @sample float _ insertion_order (fun _ => 0.5%float) 1
    ["x"]%string [None; Some "a"; Some "b"]%string (init [])
  = (Ok [], init []).
Proof.
  apply sample_single_target_word; [reflexivity | lia].
Defined.

(** ** The fertility invariant *)

Section Counting.

Lemma sum_over_ext {A} (f g : A → Z) (xs : list A) :
  (∀ x, x ∈ xs → f x = g x) → sum_over f xs = sum_over g xs.
Proof.
  induction xs as [|x xs IH]; intros Hfg; simpl; [done|].
  rewrite (Hfg x) by left. rewrite IH; [done|].
  intros y Hy. apply Hfg. by right.
Qed.

Lemma sum_over_add {A} (f g : A → Z) (xs : list A) :
  sum_over (fun x => f x + g x) xs = sum_over f xs + sum_over g xs.
Proof. induction xs as [|x xs IH]; simpl; lia. Qed.

Lemma sum_over_zero {A} (xs : list A) : sum_over (fun _ => 0) xs = 0.
Proof. induction xs as [|x xs IH]; simpl; lia. Qed.

Lemma len_filter_sum {A} (Q : A → Prop) `{∀ x, Decision (Q x)}
    (xs : list A) :
  len (filter Q xs) = sum_over (fun x => Z.b2z (bool_decide (Q x))) xs.
Proof.
  unfold len. induction xs as [|x xs IH]; simpl; [done|].
  rewrite filter_cons. rewrite <- IH. case_bool_decide.
  - rewrite decide_True by done. simpl. lia.
  - rewrite decide_False by done. simpl. lia.
Qed.

(** Counting by rows or by columns. *)
Lemma sum_over_len_filter {A B} (Q : A → B → Prop)
    `{∀ x y, Decision (Q x y)} (xs : list A) (ys : list B) :
  sum_over (fun x => len (filter (Q x) ys)) xs =
  sum_over (fun y => len (filter (fun x => Q x y) xs)) ys.
Proof.
  induction ys as [|y ys IH]; simpl.
  - apply sum_over_zero.
  - rewrite (len_filter_sum (fun x => Q x y) xs), <- IH, <- sum_over_add.
    apply sum_over_ext. intros x _. rewrite filter_cons. unfold len.
    case_bool_decide.
    + rewrite decide_True by done. simpl. lia.
    + rewrite decide_False by done. simpl. lia.
Qed.

(** A value is hit by at most one index of a duplicate-free list. *)
Lemma len_filter_hit (x : result Z) (xs : list Z) :
  NoDup xs →
  len (filter (fun i => x = Ok i) xs) =
  Z.b2z (bool_decide (returned_in x xs)).
Proof.
  unfold len. induction 1 as [|i xs Hi Hnd IH]; simpl.
  - rewrite bool_decide_eq_false_2; [done|].
    destruct x; simpl; [apply not_elem_of_nil | tauto..].
  - rewrite filter_cons. destruct (decide (x = Ok i)) as [-> | Hne].
    + simpl. rewrite Nat2Z.inj_succ, IH. simpl.
      rewrite (bool_decide_eq_false_2 (i ∈ xs)) by done.
      rewrite bool_decide_eq_true_2 by left. done.
    + rewrite IH. f_equal. apply bool_decide_ext.
      destruct x as [v| |]; simpl; [|done..].
      rewrite elem_of_cons. split; [by right|].
      intros [-> | Hv]; done.
Qed.

Lemma sum_over_b2z_le {A} (Q : A → Prop) `{∀ x, Decision (Q x)}
    (xs : list A) :
  sum_over (fun x => Z.b2z (bool_decide (Q x))) xs ≤ len xs.
Proof.
  unfold len. induction xs as [|x xs IH]; simpl; [done|].
  case_bool_decide; simpl; lia.
Qed.

Lemma sum_over_b2z_all {A} (Q : A → Prop) `{∀ x, Decision (Q x)}
    (xs : list A) :
  sum_over (fun x => Z.b2z (bool_decide (Q x))) xs = len xs ↔ Forall Q xs.
Proof.
  unfold len. induction xs as [|x xs IH]; simpl.
  - split; [constructor | done].
  - pose proof (sum_over_b2z_le Q xs) as Hle. unfold len in Hle.
    rewrite Forall_cons. case_bool_decide; simpl.
    + rewrite <- IH. split; [intros; split; [done | lia] | lia].
    + split; [lia | tauto].
Qed.

End Counting.

Section FertilityInvariant.

Lemma len_py_range (lo hi : Z) : lo ≤ hi → len (py_range lo hi) = hi - lo.
Proof.
  intros Hle. unfold len, py_range. rewrite length_map, length_seq. lia.
Qed.

Lemma len_nonneg {A} (xs : list A) : 0 ≤ len xs.
Proof. unfold len. lia. Qed.

Lemma sum_aligned_to (a : AlignmentInfo) :
  sum_over (aligned_to a) (py_range 0 (len (src_sentence a) - 1 + 1)) =
  len (filter (aligned_in_range a) (py_range 1 (len (trg_sentence a) + 1))).
Proof.
  unfold aligned_to.
  rewrite (sum_over_len_filter
             (fun i j => py_getitem (alignment a) j = Ok i)).
  rewrite len_filter_sum. apply sum_over_ext. intros j _.
  apply len_filter_hit, NoDup_py_range.
Qed.

(** The invariant says that the vector counts, and that every target
    position is aligned to a source position [0..l]. *)
Lemma fertility_invariant_alt (a : AlignmentInfo) :
  fertility_invariant a ↔
  Forall (fun i => py_getitem (fertility_of_i a) i = Ok (aligned_to a i))
         (py_range 0 (len (src_sentence a) - 1 + 1)) ∧
  Forall (aligned_in_range a) (py_range 1 (len (trg_sentence a) + 1)).
Proof.
  unfold fertility_invariant.
  enough (Forall (fun i => py_getitem (fertility_of_i a) i
                           = Ok (aligned_to a i))
                 (py_range 0 (len (src_sentence a) - 1 + 1)) →
          sum_over (fertility_at a) (py_range 0 (len (src_sentence a) - 1 + 1))
          = len (trg_sentence a) ↔
          Forall (aligned_in_range a) (py_range 1 (len (trg_sentence a) + 1)))
    by tauto.
  intros Hcount.
  rewrite (sum_over_ext (fertility_at a) (aligned_to a)).
  - rewrite sum_aligned_to, len_filter_sum, <- sum_over_b2z_all.
    rewrite len_py_range by (pose proof (len_nonneg (trg_sentence a)); lia).
    by replace (len (trg_sentence a) + 1 - 1) with (len (trg_sentence a))
      by lia.
  - intros i Hi. rewrite Forall_forall in Hcount.
    unfold fertility_at. by rewrite (Hcount i Hi).
Qed.

Lemma aligned_in_range_spec (a : AlignmentInfo) (j : Z) :
  aligned_in_range a j ↔
  ∃ v, py_getitem (alignment a) j = Ok v ∧ 0 ≤ v ≤ len (src_sentence a) - 1.
Proof.
  unfold aligned_in_range.
  destruct (py_getitem (alignment a) j) as [v| |]; simpl.
  - rewrite elem_of_py_range. split.
    + intros Hv. exists v. split; [done | lia].
    + intros (v' & [= <-] & Hv). lia.
  - split; [done | by intros (v & [=] & _)].
  - split; [done | by intros (v & [=] & _)].
Qed.

(** Changing the predicate at one element of a duplicate-free list. *)
Lemma len_filter_update {A} (Q Q' : A → Prop)
    `{∀ x, Decision (Q x)} `{∀ x, Decision (Q' x)} (xs : list A) (x0 : A) :
  NoDup xs → x0 ∈ xs →
  (∀ x, x ∈ xs → x ≠ x0 → (Q' x ↔ Q x)) →
  len (filter Q' xs) =
  len (filter Q xs) + Z.b2z (bool_decide (Q' x0)) - Z.b2z (bool_decide (Q x0)).
Proof.
  intros Hnd Hin Hext. rewrite !len_filter_sum.
  induction Hnd as [|x xs Hx Hnd IH]; [by apply elem_of_nil in Hin|].
  simpl. apply elem_of_cons in Hin as [<- | Hin].
  - rewrite (sum_over_ext (fun x => Z.b2z (bool_decide (Q' x)))
               (fun x => Z.b2z (bool_decide (Q x)))); [lia|].
    intros y Hy. f_equal. apply bool_decide_ext, Hext; [by right|].
    intros ->. done.
  - rewrite IH; [|done|].
    + rewrite (bool_decide_ext (Q' x) (Q x)); [lia|].
      apply Hext; [left|]. intros ->. done.
    + intros y Hy. apply Hext. by right.
Qed.

Lemma aligned_to_insert (a n : AlignmentInfo) (j v old i : Z) :
  1 ≤ j ≤ len (trg_sentence a) →
  trg_sentence n = trg_sentence a →
  alignment a !! Z.to_nat j = Some old →
  alignment n = <[Z.to_nat j := v]> (alignment a) →
  aligned_to n i =
  aligned_to a i + Z.b2z (bool_decide (v = i)) - Z.b2z (bool_decide (old = i)).
Proof.
  intros Hj Htrg Hold Hal. unfold aligned_to. rewrite Htrg.
  rewrite (len_filter_update
             (fun j => py_getitem (alignment a) j = Ok i)
             (fun j => py_getitem (alignment n) j = Ok i) _ j).
  - assert (py_getitem (alignment n) j = Ok v) as ->.
    { apply py_getitem_nonneg; [lia|]. rewrite Hal.
      apply list_lookup_insert_eq. by eapply lookup_lt_Some. }
    assert (py_getitem (alignment a) j = Ok old) as ->.
    { apply py_getitem_nonneg; [lia | done]. }
    f_equal; [f_equal|]; f_equal; apply bool_decide_ext;
      split; congruence.
  - apply NoDup_py_range.
  - apply elem_of_py_range. lia.
  - intros j' Hj'%elem_of_py_range Hne. rewrite Hal.
    rewrite py_getitem_insert_ne by lia. done.
Qed.

Lemma py_additem_nonneg (xs ys : list Z) (k d : Z) :
  0 ≤ k →
  py_additem xs k d = Ok ys ↔
  ∃ x, xs !! Z.to_nat k = Some x ∧ ys = <[Z.to_nat k := x + d]> xs.
Proof.
  intros Hk. rewrite py_additem_Ok. split.
  - intros (i & x & Hi & Hx & ->). rewrite py_index_nonneg in Hi by done.
    case_decide; [|done]. injection Hi as <-. eauto.
  - intros (x & Hx & ->). exists (Z.to_nat k), x. split; [|done].
    rewrite py_index_nonneg by done. apply lookup_lt_Some in Hx.
    rewrite decide_True by lia. done.
Qed.

Lemma py_additem_getitem (xs ys : list Z) (k d k' x : Z) :
  0 ≤ k → 0 ≤ k' →
  py_additem xs k d = Ok ys →
  py_getitem xs k' = Ok x →
  py_getitem ys k' = Ok (x + if decide (k' = k) then d else 0).
Proof.
  intros Hk Hk' (y & Hy & ->)%py_additem_nonneg Hx; [|done].
  apply py_getitem_nonneg in Hx; [|done].
  case_decide as Heq.
  - subst k'. apply py_getitem_nonneg; [done|].
    rewrite list_lookup_insert_eq by (by eapply lookup_lt_Some). congruence.
  - rewrite py_getitem_insert_ne by lia.
    apply py_getitem_nonneg; [done|]. by rewrite Z.add_0_r.
Qed.

End FertilityInvariant.

Section Preservation.

Variable a : AlignmentInfo.
Hypothesis Hinv : fertility_invariant a.

Let l : Z := len (src_sentence a) - 1.
Let m : Z := len (trg_sentence a).

Lemma invariant_alignment_lookup (j : Z) :
  1 ≤ j ≤ m →
  ∃ v, alignment a !! Z.to_nat j = Some v ∧ 0 ≤ v ≤ l.
Proof.
  intros Hj. apply fertility_invariant_alt in Hinv as [_ Hrange].
  rewrite Forall_forall in Hrange.
  destruct (proj1 (aligned_in_range_spec a j)) as (v & Hv & Hvl).
  - apply Hrange, elem_of_py_range. subst m. lia.
  - apply py_getitem_nonneg in Hv; [|lia]. eauto.
Qed.

Lemma invariant_fertility_lookup (i : Z) :
  0 ≤ i ≤ l →
  fertility_of_i a !! Z.to_nat i = Some (aligned_to a i).
Proof.
  intros Hi. apply fertility_invariant_alt in Hinv as [Hcount _].
  rewrite Forall_forall in Hcount.
  apply py_getitem_nonneg; [lia|]. apply Hcount, elem_of_py_range.
  subst l. lia.
Qed.

Lemma move_candidate_total (j i : Z) :
  1 ≤ j ≤ m → 0 ≤ i ≤ l → ∃ n, move_candidate a j i = Ok n.
Proof.
  intros Hj Hi.
  destruct (invariant_alignment_lookup j Hj) as (old & Hold & Hrange).
  pose proof (invariant_fertility_lookup i Hi) as Hfi.
  pose proof (invariant_fertility_lookup old Hrange) as Hfo.
  unfold move_candidate.
  assert (py_setitem (alignment a) j i
          = Ok (<[Z.to_nat j := i]> (alignment a))) as ->.
  { apply py_setitem_nonneg; [lia|]. split; [|done].
    apply lookup_lt_Some in Hold. unfold len. lia. }
  assert (py_additem (fertility_of_i a) i 1
          = Ok (<[Z.to_nat i := aligned_to a i + 1]> (fertility_of_i a)))
    as ->.
  { apply py_additem_nonneg; [lia|]. eauto. }
  assert (py_getitem (alignment a) j = Ok old) as ->.
  { apply py_getitem_nonneg; [lia | done]. }
  simpl.
  destruct (<[Z.to_nat i := aligned_to a i + 1]> (fertility_of_i a)
              !! Z.to_nat old) as [y|] eqn:Hy.
  - assert (py_additem
              (<[Z.to_nat i := aligned_to a i + 1]> (fertility_of_i a))
              old (-1)
            = Ok (<[Z.to_nat old := y + -1]>
                    (<[Z.to_nat i := aligned_to a i + 1]> (fertility_of_i a))))
      as ->.
    { apply py_additem_nonneg; [lia|]. eauto. }
    simpl. eauto.
  - apply lookup_ge_None in Hy. rewrite length_insert in Hy.
    apply lookup_lt_Some in Hfo. lia.
Qed.

Lemma move_candidate_preserves (j i : Z) (n : AlignmentInfo) :
  1 ≤ j ≤ m → 0 ≤ i ≤ l →
  move_candidate a j i = Ok n → fertility_invariant n.
Proof.
  intros Hj Hi Hn.
  apply move_candidate_Ok in Hn
    as (old & fe & Hlt & Hold & Hal & Hfe & Hfe' & Hsrc & Htrg); [|lia].
  destruct (invariant_alignment_lookup j Hj) as (old' & Hold' & Hrange).
  assert (old' = old) as -> by congruence.
  apply fertility_invariant_alt. rewrite Hsrc, Htrg. split.
  - apply Forall_forall. intros k Hk%elem_of_py_range.
    rewrite (aligned_to_insert a n j i old k) by done.
    assert (py_getitem (fertility_of_i a) k = Ok (aligned_to a k)) as Hx.
    { apply py_getitem_nonneg; [lia|]. apply invariant_fertility_lookup.
      subst l. lia. }
    assert (0 ≤ i ∧ 0 ≤ k ∧ 0 ≤ old) as (Hi0 & Hk0 & Ho0) by lia.
    pose proof (py_additem_getitem _ _ _ _ _ _ Hi0 Hk0 Hfe Hx) as Hx1.
    pose proof (py_additem_getitem _ _ _ _ _ _ Ho0 Hk0 Hfe' Hx1) as Hx2.
    rewrite Hx2. f_equal.
    repeat case_decide; repeat case_bool_decide; simpl; lia.
  - apply Forall_forall. intros j' Hj'%elem_of_py_range.
    apply aligned_in_range_spec. rewrite Hsrc, Hal.
    destruct (decide (j' = j)) as [-> | Hne].
    + exists i. split; [|done]. apply py_getitem_nonneg; [lia|].
      apply list_lookup_insert_eq. by eapply lookup_lt_Some.
    + rewrite py_getitem_insert_ne by lia.
      destruct (invariant_alignment_lookup j') as (v & Hv & Hvl);
        [subst m; lia|].
      exists v. split; [|done]. apply py_getitem_nonneg; [lia | done].
Qed.

Lemma swap_candidate_total (j other_j : Z) :
  1 ≤ j ≤ m → 1 ≤ other_j ≤ m → ∃ n, swap_candidate a j other_j = Ok n.
Proof.
  intros Hj Hoj.
  destruct (invariant_alignment_lookup j Hj) as (aj & Haj & _).
  destruct (invariant_alignment_lookup other_j Hoj) as (ao & Hao & _).
  unfold swap_candidate.
  assert (py_getitem (alignment a) other_j = Ok ao) as ->.
  { apply py_getitem_nonneg; [lia | done]. }
  rewrite bind_Ok_l.
  assert (py_setitem (alignment a) j ao
          = Ok (<[Z.to_nat j := ao]> (alignment a))) as ->.
  { apply py_setitem_nonneg; [lia|]. split; [|done].
    apply lookup_lt_Some in Haj. unfold len. lia. }
  assert (py_getitem (alignment a) j = Ok aj) as ->.
  { apply py_getitem_nonneg; [lia | done]. }
  rewrite !bind_Ok_l.
  assert (py_setitem (<[Z.to_nat j := ao]> (alignment a)) other_j aj
          = Ok (<[Z.to_nat other_j := aj]>
                  (<[Z.to_nat j := ao]> (alignment a)))) as ->.
  { apply py_setitem_nonneg; [lia|]. split; [|done].
    apply lookup_lt_Some in Hao. unfold len. rewrite length_insert. lia. }
  rewrite bind_Ok_l. eauto.
Qed.

Lemma swap_candidate_preserves (j other_j : Z) (n : AlignmentInfo) :
  1 ≤ j ≤ m → 1 ≤ other_j ≤ m → other_j ≠ j →
  swap_candidate a j other_j = Ok n → fertility_invariant n.
Proof.
  intros Hj Hoj Hne Hn.
  apply swap_candidate_Ok in Hn
    as (aj & ao & Haj & Hao & Hal & Hfe & Hsrc & Htrg); [|lia..].
  destruct (invariant_alignment_lookup j Hj) as (aj' & Haj' & Hajl).
  destruct (invariant_alignment_lookup other_j Hoj) as (ao' & Hao' & Haol).
  assert (aj' = aj) as -> by congruence.
  assert (ao' = ao) as -> by congruence.
  (* the alignment after the first of the two assignments *)
  set (a1 := mkAlignmentInfo (<[Z.to_nat j := ao]> (alignment a))
               (src_sentence a) (trg_sentence a) (fertility_of_i a)).
  apply fertility_invariant_alt. rewrite Hsrc, Htrg, Hfe. split.
  - apply Forall_forall. intros k Hk%elem_of_py_range.
    rewrite (aligned_to_insert a1 n other_j aj ao k); try done.
    + rewrite (aligned_to_insert a a1 j ao aj k) by done.
      replace (aligned_to a k + Z.b2z (bool_decide (ao = k))
               - Z.b2z (bool_decide (aj = k))
               + Z.b2z (bool_decide (aj = k))
               - Z.b2z (bool_decide (ao = k)))
        with (aligned_to a k) by lia.
      apply py_getitem_nonneg; [lia|]. apply invariant_fertility_lookup.
      subst l. lia.
    + simpl. rewrite list_lookup_insert_ne by lia. done.
  - apply Forall_forall. intros j' Hj'%elem_of_py_range.
    apply aligned_in_range_spec. rewrite Hsrc, Hal.
    destruct (decide (j' = other_j)) as [-> | Hne1].
    { exists aj. split; [|done]. apply py_getitem_nonneg; [lia|].
      apply list_lookup_insert_eq. rewrite length_insert.
      by eapply lookup_lt_Some. }
    rewrite py_getitem_insert_ne by lia.
    destruct (decide (j' = j)) as [-> | Hne2].
    { exists ao. split; [|done]. apply py_getitem_nonneg; [lia|].
      apply list_lookup_insert_eq. by eapply lookup_lt_Some. }
    rewrite py_getitem_insert_ne by lia.
    destruct (invariant_alignment_lookup j') as (v & Hv & Hvl);
      [subst m; lia|].
    exists v. split; [|done]. apply py_getitem_nonneg; [lia | done].
Qed.

End Preservation.

(** ** Neighbourhoods of alignments that satisfy the invariant *)

Lemma for_each_total {A B} (xs : list A) (body : B → A → result B) (acc : B) :
  (∀ b x, x ∈ xs → ∃ b', body b x = Ok b') →
  ∃ r, for_each xs body acc = Ok r.
Proof.
  revert acc. induction xs as [|x xs IH]; intros acc Hbody; simpl; [by eexists|].
  destruct (Hbody acc x) as (b' & ->); [left|]. rewrite bind_Ok_l.
  apply IH. intros b y Hy. apply Hbody. by right.
Qed.

Lemma neighboring_total (a : AlignmentInfo) (j_pegged : Z) :
  fertility_invariant a → ∃ ns, neighboring a j_pegged = Ok ns.
Proof.
  intros Hinv. unfold neighboring.
  assert (∀ ns, ∃ ns', add_moves a j_pegged ns = Ok ns') as Hmoves.
  { intros ns. unfold add_moves. apply for_each_total.
    intros b j Hj%elem_of_py_range. case_decide; [|by eexists].
    apply for_each_total. intros c i Hi%elem_of_py_range.
    destruct (move_candidate_total a Hinv j i) as (n & ->); [lia..|].
    rewrite bind_Ok_l. by eexists. }
  assert (∀ ns, ∃ ns', add_swaps a j_pegged ns = Ok ns') as Hswaps.
  { intros ns. unfold add_swaps. apply for_each_total.
    intros b j Hj%elem_of_py_range. case_decide; [|by eexists].
    apply for_each_total. intros c oj Hoj%elem_of_py_range.
    case_decide; [|by eexists].
    destruct (swap_candidate_total a Hinv j oj) as (n & ->); [lia..|].
    rewrite bind_Ok_l. by eexists. }
  destruct (Hmoves []) as (ns & ->). rewrite bind_Ok_l. apply Hswaps.
Qed.

Lemma neighboring_preserves (a : AlignmentInfo) (j_pegged : Z)
    (ns : list AlignmentInfo) (n : AlignmentInfo) :
  fertility_invariant a →
  neighboring a j_pegged = Ok ns → n ∈ ns → fertility_invariant n.
Proof.
  intros Hinv Hns Hn.
  destruct (neighboring_members _ _ _ _ Hns Hn) as [Hm | Hs].
  - destruct Hm as (j & i & Hj & _ & Hi & Hm).
    by eapply (move_candidate_preserves a Hinv j i).
  - destruct Hs as (j & oj & Hj & _ & Hoj & _ & Hne & Hs).
    by eapply (swap_candidate_preserves a Hinv j oj).
Qed.

(** Members of a neighbourhood describe the sentence pair of the input and
    have its shape. *)
Lemma neighboring_shape (a : AlignmentInfo) (j_pegged : Z)
    (ns : list AlignmentInfo) (n : AlignmentInfo) :
  neighboring a j_pegged = Ok ns → n ∈ ns →
  src_sentence n = src_sentence a ∧ trg_sentence n = trg_sentence a ∧
  length (alignment n) = length (alignment a) ∧
  length (fertility_of_i n) = length (fertility_of_i a) ∧
  alignment n !! 0%nat = alignment a !! 0%nat ∧
  (Forall (fun x => x = 0) (alignment a) →
   len (src_sentence a) - 1 = 0 →
   Forall (fun x => x = 0) (alignment n)).
Proof.
  intros Hns Hn.
  destruct (neighboring_members _ _ _ _ Hns Hn) as [Hm | Hs].
  - destruct Hm as (j & i & Hj & _ & Hi & Hm).
    apply move_candidate_Ok in Hm
      as (old & fe & Hlt & Hold & Hal & Hfe & Hfe' & Hsrc & Htrg); [|lia].
    apply py_additem_Ok in Hfe as (? & ? & _ & _ & ->).
    apply py_additem_Ok in Hfe' as (? & ? & _ & _ & Hfe').
    rewrite Hal, Hfe', !length_insert.
    rewrite list_lookup_insert_ne by lia.
    repeat split; try done.
    intros Hzero Hl. apply Forall_insert; [done | lia].
  - destruct Hs as (j & oj & Hj & _ & Hoj & _ & Hne & Hs).
    apply swap_candidate_Ok in Hs
      as (aj & ao & Haj & Hao & Hal & Hfe & Hsrc & Htrg); [|lia..].
    rewrite Hal, Hfe, !length_insert.
    rewrite !list_lookup_insert_ne by lia.
    repeat split; try done.
    intros Hzero _. rewrite Forall_forall in Hzero.
    apply Forall_insert; [apply Forall_insert; [by apply Forall_forall|]|].
    + apply Hzero. by eapply list_elem_of_lookup_2.
    + apply Hzero. by eapply list_elem_of_lookup_2.
Qed.

(** ** The initial alignments of [sample] *)

Lemma len_filter_const {A} (Q : A → Prop) `{∀ x, Decision (Q x)}
    (xs : list A) (c : bool) :
  (∀ x, x ∈ xs → Q x ↔ c = true) →
  len (filter Q xs) = if c then len xs else 0.
Proof.
  intros Hc. rewrite len_filter_sum.
  rewrite (sum_over_ext _ (fun _ => Z.b2z c)).
  - unfold len. clear Hc. induction xs as [|x xs IH]; simpl.
    + by destruct c.
    + rewrite IH. destruct c; simpl; lia.
  - intros x Hx. f_equal. destruct c.
    + apply bool_decide_eq_true_2. by apply Hc.
    + apply bool_decide_eq_false_2. intros HQ. by apply Hc in HQ.
Qed.

Section Seed.

Variable src : list (option string).
Variable trg : list string.
Variable j : Z.

Let l : Z := len src - 1.
Let m : Z := len trg.

Lemma seed_inv_skip (rest : list Z) (st : list Z * list Z) :
  seed_inv src trg j (j :: rest) st → seed_inv src trg j rest st.
Proof.
  intros (Hnd & Hrest & Hal & Hfe & H0 & Hrange & Hzero & Hcount).
  apply NoDup_cons in Hnd as [_ Hnd].
  split_and!; try done.
  - intros jj Hjj. apply Hrest. by right.
  - intros jj Hjj. apply Hzero. by right.
  - intros k Hk. rewrite (Hcount k Hk).
    assert (pending j (j :: rest) = pending j rest) as ->; [|done].
    unfold pending. rewrite filter_cons.
    destruct (decide (j ≠ j)) as [Hne | _]; [by destruct Hne | done].
Qed.

Lemma seed_inv_step (jj best : Z) (rest al fe al' fe' : list Z) :
  seed_inv src trg j (jj :: rest) (al, fe) →
  jj ≠ j → 0 ≤ best →
  py_setitem al jj best = Ok al' →
  py_additem fe best 1 = Ok fe' →
  seed_inv src trg j rest (al', fe').
Proof.
  intros (Hnd & Hrest & Hal & Hfe & H0 & Hrange & Hzero & Hcount).
  intros Hne Hbest Hset Hadd. simpl in *.
  apply NoDup_cons in Hnd as [Hjj Hnd].
  assert (1 ≤ jj ≤ m) as Hjjm by (apply Hrest; left).
  apply py_setitem_nonneg in Hset as [_ ->]; [|lia].
  apply py_additem_nonneg in Hadd as (x & Hx & ->); [|done].
  assert (0 ≤ best ≤ l) as Hbl.
  { apply lookup_lt_Some in Hx. subst l. unfold len. lia. }
  assert (al !! Z.to_nat jj = Some 0) as Hold by (apply Hzero; [left | done]).
  assert (pending j (jj :: rest) = pending j rest + 1) as Hpend.
  { unfold pending, len. rewrite filter_cons, decide_True by done.
    simpl. lia. }
  set (cur := mkAlignmentInfo al src trg fe).
  set (cur' := mkAlignmentInfo (<[Z.to_nat jj := best]> al) src trg
                 (<[Z.to_nat best := x + 1]> fe)).
  assert (∀ k, aligned_to cur' k =
               aligned_to cur k + Z.b2z (bool_decide (best = k))
               - Z.b2z (bool_decide (0 = k))) as Hupd.
  { intros k. by apply (aligned_to_insert cur cur' jj best 0 k). }
  unfold seed_inv. simpl. fold cur'.
  split_and!; try done.
  - intros jj' Hjj'. apply Hrest. by right.
  - by rewrite length_insert.
  - by rewrite length_insert.
  - rewrite list_lookup_insert_ne by lia. done.
  - apply Forall_forall. intros jj' Hjj'.
    apply aligned_in_range_spec. simpl.
    destruct (decide (jj' = jj)) as [-> | Hne'].
    + exists best. split; [|done]. apply py_getitem_nonneg; [lia|].
      apply list_lookup_insert_eq. by eapply lookup_lt_Some.
    + apply elem_of_py_range in Hjj' as Hjj'r.
      rewrite py_getitem_insert_ne by lia.
      rewrite Forall_forall in Hrange.
      apply (aligned_in_range_spec cur), Hrange, Hjj'.
  - intros jj' Hjj' Hne'. rewrite list_lookup_insert_ne.
    + apply Hzero; [by right | done].
    + assert (1 ≤ jj' ≤ m) by (apply Hrest; by right).
      intros Heq. assert (jj' = jj) as -> by lia. done.
  - intros k Hk. rewrite Hupd. specialize (Hcount k Hk) as Hck.
    fold cur in Hck. rewrite Hpend in Hck.
    destruct (decide (k = best)) as [-> | Hkb].
    + rewrite list_lookup_insert_eq by (by eapply lookup_lt_Some).
      rewrite Hx in Hck. injection Hck as ->. f_equal.
      rewrite bool_decide_eq_true_2 by done.
      repeat case_decide; repeat case_bool_decide; simpl; lia.
    + rewrite list_lookup_insert_ne by lia. rewrite Hck. f_equal.
      rewrite (bool_decide_eq_false_2 (best = k)) by done.
      repeat case_decide; repeat case_bool_decide; simpl; lia.
Qed.

Lemma seed_inv_done (al fe : list Z) :
  seed_inv src trg j [] (al, fe) → canonical src trg (mkAlignmentInfo al src trg fe).
Proof.
  intros (_ & _ & Hal & Hfe & H0 & Hrange & _ & Hcount). simpl in *.
  split_and!; try done.
  apply fertility_invariant_alt. simpl. split; [|done].
  apply Forall_forall. intros k Hk%elem_of_py_range.
  apply py_getitem_nonneg; [lia|]. simpl.
  rewrite Hcount by (subst l; lia).
  unfold pending. rewrite filter_nil. unfold len. simpl.
  f_equal. case_decide; lia.
Qed.

Lemma seed_inv_init (i : Z) (al fe : list Z) :
  0 ≤ i ≤ l → 1 ≤ j ≤ m →
  py_setitem (py_repeat 0 (m + 1)) j i = Ok al →
  py_setitem (py_repeat 0 (l + 1)) i 1 = Ok fe →
  seed_inv src trg j (py_range 1 (m + 1)) (al, fe).
Proof.
  intros Hi Hj Hal Hfe.
  apply py_setitem_nonneg in Hal as [_ ->]; [|lia].
  apply py_setitem_nonneg in Hfe as [_ ->]; [|lia].
  set (zero := mkAlignmentInfo (py_repeat 0 (m + 1)) src trg
                 (<[Z.to_nat i := 1]> (py_repeat 0 (l + 1)))).
  set (cur := mkAlignmentInfo (<[Z.to_nat j := i]> (py_repeat 0 (m + 1)))
                src trg (<[Z.to_nat i := 1]> (py_repeat 0 (l + 1)))).
  assert (∀ k : nat, (k < Z.to_nat (m + 1))%nat →
                     py_repeat 0 (m + 1) !! k = Some 0) as Hrep.
  { intros k Hk. unfold py_repeat. by apply lookup_replicate_2. }
  assert (∀ k, aligned_to zero k = if decide (k = 0) then m else 0) as Hz.
  { intros k. unfold aligned_to. simpl.
    rewrite (len_filter_const _ _ (bool_decide (k = 0))).
    - rewrite len_py_range by (subst m; unfold len; lia).
      case_decide; case_bool_decide; try done. subst m. lia.
    - intros jj Hjj%elem_of_py_range.
      rewrite bool_decide_eq_true, py_getitem_nonneg by lia.
      rewrite Hrep by lia. split; congruence. }
  assert (∀ k, aligned_to cur k =
               aligned_to zero k + Z.b2z (bool_decide (i = k))
               - Z.b2z (bool_decide (0 = k))) as Hupd.
  { intros k. apply (aligned_to_insert zero cur j i 0 k); try done.
    simpl. apply Hrep. lia. }
  assert (pending j (py_range 1 (m + 1)) = m - 1) as Hpend.
  { unfold pending.
    rewrite (len_filter_update (fun _ => True) (fun jj => jj ≠ j) _ j).
    - rewrite (len_filter_const _ _ true) by done.
      rewrite len_py_range by lia.
      rewrite bool_decide_eq_false_2 by (intros Hne; by apply Hne).
      rewrite bool_decide_eq_true_2 by done. simpl. lia.
    - apply NoDup_py_range.
    - apply elem_of_py_range. lia.
    - intros jj _ Hne. done. }
  unfold seed_inv. simpl. fold cur.
  split_and!.
  - apply NoDup_py_range.
  - intros jj Hjj%elem_of_py_range. lia.
  - rewrite length_insert. unfold py_repeat. rewrite length_replicate.
    subst m. unfold len. lia.
  - rewrite length_insert. unfold py_repeat. rewrite length_replicate.
    subst l. unfold len in *. lia.
  - rewrite list_lookup_insert_ne by lia. apply Hrep. lia.
  - apply Forall_forall. intros jj Hjj%elem_of_py_range.
    apply aligned_in_range_spec. simpl.
    destruct (decide (jj = j)) as [-> | Hne].
    + exists i. split; [|done]. apply py_getitem_nonneg; [lia|].
      apply list_lookup_insert_eq. unfold py_repeat.
      rewrite length_replicate. lia.
    + rewrite py_getitem_insert_ne by lia. exists 0.
      split; [|subst l; lia]. apply py_getitem_nonneg; [lia|].
      apply Hrep. lia.
  - intros jj Hjj%elem_of_py_range Hne.
    rewrite list_lookup_insert_ne by lia. apply Hrep. lia.
  - intros k Hk. rewrite Hupd, Hz, Hpend.
    assert (Z.to_nat i < length (py_repeat 0%Z (l + 1)))%nat as Hlen.
    { unfold py_repeat. rewrite length_replicate. lia. }
    destruct (decide (k = i)) as [-> | Hki].
    + rewrite list_lookup_insert_eq by done. f_equal.
      rewrite bool_decide_eq_true_2 by done.
      repeat case_decide; repeat case_bool_decide; simpl; lia.
    + rewrite list_lookup_insert_ne by lia.
      unfold py_repeat. rewrite lookup_replicate_2 by lia. f_equal.
      rewrite (bool_decide_eq_false_2 (i = k)) by done.
      repeat case_decide; repeat case_bool_decide; simpl; lia.
Qed.

End Seed.

Section SampleFacts.

Context {P : Type} `{Prob P} `{SetIteration}.

Lemma best_model2_source_nonneg trg src (jj : Z) (s s' : IBMModel P)
    (best_i : Z) :
  best_model2_source trg src jj s = (Ok best_i, s') → 0 ≤ best_i.
Proof.
  unfold best_model2_source. intros Hb.
  apply method_bind_Ok in Hb as (r & s1 & Hloop & Hret).
  apply method_ret_Ok in Hret as [<- _].
  apply (for_each_method_inv
           (fun rest (acc : P * Z) => (∀ x, x ∈ rest → 0 ≤ x) ∧ 0 ≤ acc.2)
           _ _ _ _ _ _ Hloop).
  - split; [|simpl; lia]. intros x Hx%elem_of_py_range. lia.
  - intros ii rest [mx b] t [mx' b'] t' [Hrest Hb] Hbody. simpl in *.
    split; [intros x Hx; apply Hrest; by right|].
    apply method_bind_Ok in Hbody as (? & ? & _ & Hbody).
    apply method_bind_Ok in Hbody as (? & ? & _ & Hbody).
    apply method_bind_Ok in Hbody as (? & ? & _ & Hbody).
    apply method_bind_Ok in Hbody as (? & ? & _ & Hbody).
    destruct (prob_gt _ _); apply method_ret_Ok in Hbody as [[= _ <-] _].
    + apply Hrest. left.
    + done.
Qed.

Lemma initial_alignment_canonical trg src (i j : Z) (s s' : IBMModel P)
    (seed : AlignmentInfo) :
  0 ≤ i ≤ len src - 1 → 1 ≤ j ≤ len trg →
  initial_alignment trg src i j s = (Ok seed, s') →
  canonical src trg seed.
Proof.
  intros Hi Hj. unfold initial_alignment. intros Hs.
  apply method_bind_Ok in Hs as (al & s1 & Hal%pure_Ok & Hs).
  apply method_bind_Ok in Hs as (fe & s2 & Hfe%pure_Ok & Hs).
  apply method_bind_Ok in Hs as ([al' fe'] & s3 & Hloop & Hret).
  apply method_ret_Ok in Hret as [<- _]. simpl.
  destruct Hal as [Hal _], Hfe as [Hfe _].
  apply seed_inv_done with (j := j).
  apply (for_each_method_inv (seed_inv src trg j) _ _ _ _ _ _ Hloop).
  - by eapply seed_inv_init.
  - intros jj rest [al1 fe1] t [al2 fe2] t' Hinv Hbody.
    case_decide as Hne.
    + apply method_bind_Ok in Hbody
        as (best & ? & Hbest%best_model2_source_nonneg & Hbody).
      apply method_bind_Ok in Hbody as (al3 & ? & [Hset _]%pure_Ok & Hbody).
      apply method_bind_Ok in Hbody as (fe3 & ? & [Hadd _]%pure_Ok & Hbody).
      apply method_ret_Ok in Hbody as [[= <- <-] _].
      by eapply seed_inv_step.
    + apply method_ret_Ok in Hbody as [[= <- <-] _].
      assert (jj = j) as -> by (destruct (decide (jj = j)); tauto).
      by apply seed_inv_skip.
Qed.

Lemma sample_members probability fuel trg src (self self' : IBMModel P)
    (sampled : list AlignmentInfo) (n : AlignmentInfo) :
  sample probability fuel trg src self = (Ok sampled, self') →
  n ∈ sampled → peg_neighbor P trg src n.
Proof.
  unfold sample. intros Hs. revert n.
  pose (I := fun lo hi (rest : list Z) (acc : list AlignmentInfo) =>
               (∀ x, x ∈ rest → lo ≤ x ≤ hi) ∧
               ∀ n, n ∈ acc → peg_neighbor P trg src n).
  apply (for_each_method_inv (I 0 (len src - 1)) _ _ _ _ _ _ Hs).
  - split; [|by intros n Hn%elem_of_nil].
    intros x Hx%elem_of_py_range. lia.
  - intros i rest acc s acc' s' [Hrest Hacc] Hbody.
    split; [intros x Hx; apply Hrest; by right|].
    assert (0 ≤ i ≤ len src - 1) as Hi by (apply Hrest; left).
    apply (for_each_method_inv (I 1 (len trg)) _ _ _ _ _ _ Hbody).
    + split; [|done]. intros x Hx%elem_of_py_range. lia.
    + clear Hbody. intros j rest' b t b' t' [Hrest' Hb] Hpeg.
      split; [intros x Hx; apply Hrest'; by right|].
      assert (1 ≤ j ≤ len trg) as Hj by (apply Hrest'; left).
      unfold sample_peg in Hpeg.
      apply method_bind_Ok in Hpeg as (seed & t1 & Hseed & Hpeg).
      apply method_bind_Ok in Hpeg as (best & ? & [Hclimb _]%pure_Ok & Hpeg).
      apply method_bind_Ok in Hpeg as (ns & ? & [Hns _]%pure_Ok & Hpeg).
      apply method_ret_Ok in Hpeg as [<- _].
      apply hillclimb_returns_argument in Hclimb as ->.
      intros n [Hn | Hn]%elem_of_set_update; [by apply Hb|].
      by exists i, j, seed, ns, t, t1.
Qed.

End SampleFacts.

Lemma canonical_null_source src trg (a : AlignmentInfo) :
  canonical src trg a → len src - 1 = 0 →
  Forall (fun x => x = 0) (alignment a).
Proof.
  intros (Hsrc & Htrg & Hal & _ & H0 & Hinv) Hl.
  apply Forall_lookup. intros idx x Hx.
  destruct idx as [|idx]; [congruence|].
  destruct (invariant_alignment_lookup a Hinv (Z.of_nat (S idx)))
    as (v & Hv & Hvl).
  - apply lookup_lt_Some in Hx. rewrite Htrg. unfold len. lia.
  - rewrite Nat2Z.id in Hv. rewrite Hsrc in Hvl. assert (x = v) by congruence.
    lia.
Qed.

(** ** The fertility invariant of generated alignments (C4) *)

(** C4. Every [AlignmentInfo] in a set that [sample] returns satisfies the
    fertility invariant; and for an input that satisfies it, [neighboring]
    returns a set, all of whose members satisfy it: the fertilities of the
    source positions sum to [m], and [fertility_of_i[i]] is the number of
    target positions [j] in [1..m] with [alignment[j] == i]. *)
Theorem generated_alignments_satisfy_fertility_invariant
    {P : Type} `{Prob P} `{SetIteration}
    (probability : AlignmentInfo → P) (fuel : nat)
    (trg_sentence : list string) (src_sentence : list (option string))
    (self : IBMModel P) (a : AlignmentInfo) (j_pegged : Z) :
  (∀ sampled self' n,
      sample probability fuel trg_sentence src_sentence self
      = (Ok sampled, self') →
      n ∈ sampled → fertility_invariant n) ∧
  (fertility_invariant a →
   ∃ ns, neighboring a j_pegged = Ok ns ∧
         ∀ n, n ∈ ns → fertility_invariant n).
Proof.
  split.
  - intros sampled self' n Hs Hn.
    destruct (sample_members _ _ _ _ _ _ _ _ Hs Hn)
      as (i & j & seed & ns & s & s' & Hi & Hj & Hseed & Hns & Hin).
    apply initial_alignment_canonical in Hseed
      as (_ & _ & _ & _ & _ & Hinv); [|done..].
    by eapply neighboring_preserves.
  - intros Hinv. destruct (neighboring_total a j_pegged Hinv) as (ns & Hns).
    exists ns. split; [done|]. intros n Hn. by eapply neighboring_preserves.
Qed.

Lemma generated_alignments_satisfy_fertility_invariant_witness :
  (∃ sampled, SampleExample.run.1 = Ok sampled ∧
              SampleExample.both_to_a ∈ sampled) ∧
  fertility_invariant SampleExample.both_to_a ∧
  ∃ ns, neighboring SampleExample.both_to_a 1 = Ok ns ∧
        ∀ n, n ∈ ns → fertility_invariant n.
Proof.
  assert (∃ sampled self', SampleExample.run = (Ok sampled, self') ∧
            SampleExample.both_to_a ∈ sampled) as (sampled & self' & Hrun & Hin).
  { eexists _, _. split; [vm_compute; reflexivity|].
    do 3 right. left. }
  destruct (generated_alignments_satisfy_fertility_invariant
              (H0 := insertion_order)
              (fun _ => 0.5%float) 1 SampleExample.trg SampleExample.src
              (init []) SampleExample.both_to_a 1) as [Hsample Hneighbors].
  pose proof (Hsample sampled self' _ Hrun Hin) as Hinv.
  split; [|split; [exact Hinv | exact (Hneighbors Hinv)]].
  exists sampled. split; [|exact Hin].
  unfold SampleExample.run in *. by rewrite Hrun.
Defined.

(** ** A source sentence that is only NULL (C2) *)

(** C2. When the source sentence has length 1 (the NULL token alone, so
    [l = 0]), every alignment in a set that [sample] returns has all its
    entries equal to 0. *)
Theorem sample_null_source_aligns_to_null
    {P : Type} `{Prob P} `{SetIteration}
    (probability : AlignmentInfo → P) (fuel : nat)
    (trg_sentence : list string) (src_sentence : list (option string))
    (self self' : IBMModel P) (sampled : list AlignmentInfo)
    (n : AlignmentInfo) :
  length src_sentence = 1%nat →
  sample probability fuel trg_sentence src_sentence self
  = (Ok sampled, self') →
  n ∈ sampled →
  Forall (fun i => i = 0) (alignment n).
Proof.
  intros Hl Hs Hn.
  destruct (sample_members _ _ _ _ _ _ _ _ Hs Hn)
    as (i & j & seed & ns & s & s' & Hi & Hj & Hseed & Hns & Hin).
  apply initial_alignment_canonical in Hseed as Hcan; [|done..].
  assert (len src_sentence - 1 = 0) as Hl0 by (unfold len; lia).
  pose proof (canonical_null_source _ _ _ Hcan Hl0) as Hzero.
  destruct Hcan as (Hsrc & _).
  destruct (neighboring_shape _ _ _ _ Hns Hin) as (_ & _ & _ & _ & _ & Hz).
  apply Hz; [done|]. by rewrite Hsrc.
Qed.

Lemma sample_null_source_aligns_to_null_witness :
  ∃ sampled self',
    @sample float _ insertion_order (fun _ => 0.5%float) 1
      ["x"; "y"]%string [None] NullSourceExample.model = (Ok sampled, self') ∧
    NullSourceExample.all_null ∈ sampled ∧
    Forall (fun i => i = 0) (alignment NullSourceExample.all_null).
Proof.
  eexists _, _.
  assert (length [@None string] = 1%nat) as Hl by reflexivity.
  pose proof (fun sampled self' Hs =>
                sample_null_source_aligns_to_null (H0 := insertion_order)
                  (fun _ => 0.5%float) 1 ["x"; "y"]%string [None]
                  NullSourceExample.model self' sampled
                  NullSourceExample.all_null Hl Hs) as Hw.
  split; [vm_compute; reflexivity|].
  split; [left|]. eapply Hw; [vm_compute; reflexivity | left].
Defined.

(** With tables that give no candidate a probability above the floor,
    [best_i] keeps its initial value 1, which is not a source position when
    [l = 0]: [fertility_of_i[best_i] += 1] raises and [sample] returns no
    set. *)
Example sample_null_source_may_raise :
  (@sample float _ insertion_order (fun _ => 0.5%float) 1
     ["x"; "y"]%string [None] (init [])).1 = IndexError.
Proof. vm_compute. reflexivity. Qed.

(** ** The search space of the hill climber *)

Section SearchSpace.

Lemma elem_of_assignments (n : nat) (range w : list Z) :
  w ∈ assignments n range ↔ length w = n ∧ Forall (fun x => x ∈ range) w.
Proof.
  revert w. induction n as [|n IH]; intros w; simpl.
  - rewrite list_elem_of_singleton. split.
    + intros ->. by split.
    + intros [Hlen _]. by destruct w.
  - rewrite list_elem_of_bind. split.
    + intros (x & Hw & Hx). apply list_elem_of_fmap in Hw as (w' & -> & Hw').
      apply IH in Hw' as [<- Hall]. split; [done|]. by constructor.
    + intros [Hlen Hall]. destruct w as [|x w]; [done|].
      apply Forall_cons in Hall as [Hx Hall]. exists x. split; [|done].
      apply list_elem_of_fmap. exists w. split; [done|].
      apply IH. split; [|done]. simpl in Hlen. lia.
Qed.

Lemma length_bind_cons (range : list Z) (ws : list (list Z)) :
  length (x ← range; (fun w => x :: w) <$> ws)
  = (length range * length ws)%nat.
Proof.
  induction range as [|x range IH]; csimpl; [done|].
  rewrite length_app, length_fmap, IH. done.
Qed.

Lemma length_assignments (n : nat) (range : list Z) :
  length (assignments n range) = (length range ^ n)%nat.
Proof.
  induction n as [|n IH]; simpl; [done|].
  rewrite length_bind_cons, IH. done.
Qed.

End SearchSpace.

Section Universe.

Variable src : list (option string).
Variable trg : list string.

Lemma lookup_py_range (lo hi : Z) (k : nat) :
  (k < Z.to_nat (hi - lo))%nat →
  py_range lo hi !! k = Some (lo + Z.of_nat k).
Proof.
  intros Hk. unfold py_range. rewrite list_lookup_fmap.
  rewrite lookup_seq_lt by done. done.
Qed.

Lemma length_py_range (lo hi : Z) :
  length (py_range lo hi) = Z.to_nat (hi - lo).
Proof. unfold py_range. by rewrite length_map, length_seq. Qed.

Lemma canonical_in_universe (a : AlignmentInfo) :
  canonical src trg a → a ∈ universe src trg.
Proof.
  intros (Hsrc & Htrg & Hal & Hfe & H0 & Hinv).
  unfold universe. apply list_elem_of_fmap.
  destruct a as [al s t fe]. simpl in *. subst s t.
  destruct al as [|h w]; [done|]. injection H0 as ->.
  exists w. split.
  - unfold canon. f_equal. apply list_eq. intros idx.
    rewrite list_lookup_fmap.
    destruct (decide (idx < length src)%nat) as [Hlt | Hge].
    + rewrite lookup_py_range by (unfold len; lia). simpl.
      rewrite Z.add_0_l.
      pose proof (invariant_fertility_lookup _ Hinv (Z.of_nat idx)) as Hf.
      simpl in Hf. rewrite Nat2Z.id in Hf. rewrite Hf by (unfold len; lia).
      done.
    + rewrite !lookup_ge_None_2; [done | |lia].
      rewrite length_py_range. unfold len. lia.
  - apply elem_of_assignments. split; [simpl in Hal; lia|].
    apply Forall_lookup. intros idx x Hx.
    destruct (invariant_alignment_lookup _ Hinv (Z.of_nat (S idx)))
      as (v & Hv & Hvl).
    + simpl. apply lookup_lt_Some in Hx. simpl in Hal. unfold len. lia.
    + rewrite Nat2Z.id in Hv. simpl in Hv, Hvl.
      assert (x = v) as -> by congruence.
      apply elem_of_py_range. lia.
Qed.

Lemma length_universe :
  length (universe src trg) = (length src ^ length trg)%nat.
Proof.
  unfold universe. rewrite length_fmap, length_assignments, length_py_range.
  f_equal. unfold len. lia.
Qed.

Lemma neighboring_canonical (a n : AlignmentInfo) (j_pegged : Z)
    (ns : list AlignmentInfo) :
  canonical src trg a → neighboring a j_pegged = Ok ns → n ∈ ns →
  canonical src trg n.
Proof.
  intros (Hsrc & Htrg & Hal & Hfe & H0 & Hinv) Hns Hn.
  destruct (neighboring_shape _ _ _ _ Hns Hn)
    as (Hsrc' & Htrg' & Hal' & Hfe' & H0' & _).
  unfold canonical. split_and!; try congruence.
  by eapply neighboring_preserves.
Qed.

End Universe.

(** ** Termination of the hill climber *)

Lemma length_filter_lt {A} (Q Q' : A → Prop)
    `{∀ x, Decision (Q x)} `{∀ x, Decision (Q' x)} (xs : list A) (x0 : A) :
  x0 ∈ xs → Q x0 → ¬ Q' x0 → (∀ x, Q' x → Q x) →
  (length (filter Q' xs) < length (filter Q xs))%nat.
Proof.
  intros Hin HQ HQ' Himp.
  assert (∀ ys : list A, (length (filter Q' ys) ≤ length (filter Q ys))%nat)
    as Hle.
  { induction ys as [|y ys IH]; [done|]. rewrite !filter_cons.
    destruct (decide (Q' y)) as [Hy|Hy].
    - rewrite decide_True by auto. simpl. lia.
    - destruct (decide (Q y)); simpl; lia. }
  induction xs as [|x xs IH]; [by apply elem_of_nil in Hin|].
  rewrite !filter_cons. apply elem_of_cons in Hin as [<- | Hin].
  - rewrite decide_False, decide_True by done. simpl.
    specialize (Hle xs). lia.
  - specialize (IH Hin). destruct (decide (Q' x)) as [Hx|Hx].
    + rewrite decide_True by auto. simpl. lia.
    + destruct (decide (Q x)); simpl; lia.
Qed.

Section Termination.

Context {P : Type} (gt : P → P → bool) `{SetIteration}.
Variable probability : AlignmentInfo → P.

(** [>] on probabilities is a strict order. *)
Hypothesis gt_irrefl : ∀ x, gt x x = false.
Hypothesis gt_trans :
  ∀ x y z, gt x y = true → gt y z = true → gt x z = true.

Variable src : list (option string).
Variable trg : list string.

(** After a pass the rolling best is the alignment the pass started
    from, or a neighbour that is strictly more probable than it. *)
Lemma hillclimb_pass_spec (ns : list AlignmentInfo) (cur : AlignmentInfo) :
  hillclimb_pass gt probability ns cur = cur ∨
  (hillclimb_pass gt probability ns cur ∈ ns ∧
   gt (probability (hillclimb_pass gt probability ns cur))
      (probability cur) = true).
Proof.
  unfold hillclimb_pass.
  assert (∀ x, x ∈ set_iter ns → x ∈ ns) as Hsub.
  { intros x. by rewrite (set_iter_perm ns). }
  revert Hsub. generalize (set_iter ns) as xs. intros xs.
  enough (∀ acc,
             acc = cur ∨ (acc ∈ ns ∧ gt (probability acc) (probability cur) = true) →
             (∀ x, x ∈ xs → x ∈ ns) →
             let r := foldl (fun alignment neighbor_alignment =>
                               if gt (probability neighbor_alignment)
                                     (probability alignment)
                               then neighbor_alignment else alignment) acc xs in
             r = cur ∨ (r ∈ ns ∧ gt (probability r) (probability cur) = true))
    as Hgen by (intros Hsub; apply Hgen; [by left | done]).
  induction xs as [|x xs IH]; intros acc Hacc Hsub; simpl; [done|].
  apply IH; [|intros y Hy; apply Hsub; by right].
  destruct (gt (probability x) (probability acc)) eqn:Hgt; [|done].
  right. split; [apply Hsub; left|].
  destruct Hacc as [-> | [_ Hacc]]; [done|]. by eapply gt_trans.
Qed.

Lemma better_than_decreases (cur n : AlignmentInfo) :
  canonical src trg n →
  gt (probability n) (probability cur) = true →
  (length (better_than gt probability src trg n) < length (better_than gt probability src trg cur))%nat.
Proof.
  intros Hn Hgt. unfold better_than.
  apply (length_filter_lt _ _ _ n).
  - by apply canonical_in_universe.
  - done.
  - by rewrite gt_irrefl.
  - intros x Hx. by eapply gt_trans.
Qed.

Lemma better_than_bound (cur : AlignmentInfo) :
  (length (better_than gt probability src trg cur) ≤ length src ^ length trg)%nat.
Proof.
  unfold better_than. rewrite <- length_universe. apply length_filter.
Qed.

(** The loop breaks before its fuel is spent. *)
Lemma hillclimb_loop_terminates (fuel : nat) (cur : AlignmentInfo)
    (j_pegged : Z) :
  canonical src trg cur →
  (length (better_than gt probability src trg cur) < fuel)%nat →
  ∃ best, hillclimb_loop gt probability fuel cur j_pegged = Ok best.
Proof.
  revert cur. induction fuel as [|fuel IH]; intros cur Hcan Hfuel; [lia|].
  simpl.
  destruct (neighboring_total cur j_pegged) as (ns & Hns);
    [by destruct Hcan as (_ & _ & _ & _ & _ & ?)|].
  rewrite Hns, bind_Ok_l.
  destruct (AlignmentInfo.eq (hillclimb_pass gt probability ns cur) cur)
    eqn:Heq; [by eexists|].
  destruct (hillclimb_pass_spec ns cur) as [Hsame | [Hin Hgt]].
  - rewrite Hsame in Heq. unfold AlignmentInfo.eq in Heq.
    by rewrite bool_decide_eq_true_2 in Heq.
  - assert (canonical src trg (hillclimb_pass gt probability ns cur)) as Hcan'
      by (by eapply neighboring_canonical).
    apply IH; [done|].
    pose proof (better_than_decreases cur _ Hcan' Hgt). lia.
Qed.

Lemma hillclimb_terminates (fuel : nat) (seed : AlignmentInfo)
    (j_pegged : Z) :
  canonical src trg seed →
  (length src ^ length trg < fuel)%nat →
  hillclimb gt probability fuel seed j_pegged = Ok seed.
Proof.
  intros Hcan Hfuel.
  destruct (hillclimb_loop_terminates fuel seed j_pegged Hcan) as (best & Hb).
  - pose proof (better_than_bound seed). lia.
  - by eapply hillclimb_of_loop.
Qed.

End Termination.

(** ** The sample does not depend on the scoring function (C9) *)

Section Independence.

Context {P : Type} `{Prob P} `{SetIteration}.

Lemma fuel_free_ret {A} (a : A) : fuel_free (P := P) (mret a).
Proof. intros self. done. Qed.

Lemma fuel_free_pure {A} (r : result A) :
  r ≠ OutOfFuel → fuel_free (P := P) (pure r).
Proof. intros Hr self. done. Qed.

Lemma fuel_free_bind {A B} (c : method P A) (f : A → method P B) :
  fuel_free c → (∀ a, fuel_free (f a)) → fuel_free (c ≫= f).
Proof.
  intros Hc Hf self. specialize (Hc self). unfold mbind, method_bind.
  destruct (c self) as [[a| |] s]; simpl in *; try done. apply Hf.
Qed.

Lemma fuel_free_for_each {A B} (xs : list A) (body : B → A → method P B)
    (acc : B) :
  (∀ b x, fuel_free (body b x)) → fuel_free (for_each xs body acc).
Proof.
  intros Hbody. revert acc. induction xs as [|x xs IH]; intros acc; simpl.
  - apply fuel_free_ret.
  - apply fuel_free_bind; [apply Hbody | intros a; apply IH].
Qed.

Lemma of_option_fuel {A} (o : option A) : of_option o ≠ OutOfFuel.
Proof. by destruct o. Qed.

Lemma py_additem_fuel (xs : list Z) (k d : Z) :
  py_additem xs k d ≠ OutOfFuel.
Proof.
  unfold py_additem, py_getitem.
  destruct (of_option _) as [x| |] eqn:E; simpl; try done.
  - apply of_option_fuel.
  - by apply of_option_fuel in E.
Qed.

Lemma fuel_free_initial_alignment trg src (i j : Z) :
  fuel_free (initial_alignment trg src i j).
Proof.
  unfold initial_alignment.
  apply fuel_free_bind; [apply fuel_free_pure, of_option_fuel | intros al].
  apply fuel_free_bind; [apply fuel_free_pure, of_option_fuel | intros fe].
  apply fuel_free_bind; [|intros; apply fuel_free_ret].
  apply fuel_free_for_each. intros [al' fe'] jj.
  case_decide; [|apply fuel_free_ret].
  apply fuel_free_bind; [|intros best_i].
  - unfold best_model2_source.
    apply fuel_free_bind; [|intros; apply fuel_free_ret].
    apply fuel_free_for_each. intros [mx b] ii.
    apply fuel_free_bind; [apply fuel_free_pure, of_option_fuel | intros s].
    apply fuel_free_bind; [apply fuel_free_pure, of_option_fuel | intros t].
    apply fuel_free_bind; [|intros pt].
    { intros self. unfold translation_table_getitem.
      by destruct (dd_nested _ _ _ _). }
    apply fuel_free_bind; [|intros pa].
    { intros self. unfold alignment_table_getitem.
      by destruct (dd_nested _ _ _ _). }
    simpl. destruct (prob_gt _ _); apply fuel_free_ret.
  - apply fuel_free_bind; [apply fuel_free_pure, of_option_fuel | intros al''].
    apply fuel_free_bind; [apply fuel_free_pure, py_additem_fuel | intros fe''].
    apply fuel_free_ret.
Qed.

(** Two loops whose bodies agree and never run out of fuel. *)
Lemma for_each_method_agree {A B} (xs : list A)
    (body1 body2 : B → A → method P B) (acc : B) (self : IBMModel P) :
  (∀ b x s, x ∈ xs →
            body1 b x s = body2 b x s ∧ (body1 b x s).1 ≠ OutOfFuel) →
  for_each xs body1 acc self = for_each xs body2 acc self ∧
  (for_each xs body1 acc self).1 ≠ OutOfFuel.
Proof.
  revert acc self. induction xs as [|x xs IH]; intros acc self Hbody; [done|].
  simpl. unfold mbind, method_bind.
  destruct (Hbody acc x self) as [<- Hfuel]; [left|].
  destruct (body1 acc x self) as [[a| |] s]; simpl in *; try done.
  apply IH. intros b y t Hy. apply Hbody. by right.
Qed.

(** Whatever [>] is: a climb from a canonical alignment returns the
    alignment or runs out of fuel, so two runs that both return agree. *)
Lemma hillclimb_pass_elem (gt : P → P → bool)
    (probability : AlignmentInfo → P) (ns : list AlignmentInfo)
    (cur : AlignmentInfo) :
  hillclimb_pass gt probability ns cur = cur ∨
  hillclimb_pass gt probability ns cur ∈ ns.
Proof.
  unfold hillclimb_pass.
  assert (∀ x, x ∈ set_iter ns → x ∈ ns) as Hsub.
  { intros x. by rewrite (set_iter_perm ns). }
  revert Hsub. generalize (set_iter ns) as xs. intros xs.
  enough (∀ acc, acc = cur ∨ acc ∈ ns →
                 (∀ x, x ∈ xs → x ∈ ns) →
                 let r := foldl (fun alignment neighbor_alignment =>
                                   if gt (probability neighbor_alignment)
                                         (probability alignment)
                                   then neighbor_alignment else alignment)
                                acc xs in
                 r = cur ∨ r ∈ ns)
    as Hgen by (intros Hsub; apply Hgen; [by left | done]).
  induction xs as [|x xs IH]; intros acc Hacc Hsub; simpl; [done|].
  apply IH; [|intros y Hy; apply Hsub; by right].
  destruct (gt _ _); [|done]. right. apply Hsub. left.
Qed.

Lemma hillclimb_loop_canonical (gt : P → P → bool)
    (probability : AlignmentInfo → P) src trg (fuel : nat)
    (cur : AlignmentInfo) (j_pegged : Z) :
  canonical src trg cur →
  hillclimb_loop gt probability fuel cur j_pegged ≠ IndexError.
Proof.
  revert cur. induction fuel as [|fuel IH]; intros cur Hcan; [done|].
  rewrite hillclimb_loop_S.
  destruct (neighboring_total cur j_pegged) as (ns & Hns);
    [by destruct Hcan as (_ & _ & _ & _ & _ & ?)|].
  rewrite Hns, bind_Ok_l.
  destruct (AlignmentInfo.eq _ cur) eqn:Heq; [done|].
  apply IH.
  destruct (hillclimb_pass_elem gt probability ns cur) as [-> | Hin];
    [done | by eapply neighboring_canonical].
Qed.

Lemma sample_peg_agree_unless_out_of_fuel
    (probability1 probability2 : AlignmentInfo → P) (fuel1 fuel2 : nat)
    trg src (sampled : list AlignmentInfo) (i j : Z) (self : IBMModel P) :
  0 ≤ i ≤ len src - 1 → 1 ≤ j ≤ len trg →
  (sample_peg probability1 fuel1 trg src sampled i j self).1 ≠ OutOfFuel →
  (sample_peg probability2 fuel2 trg src sampled i j self).1 ≠ OutOfFuel →
  sample_peg probability1 fuel1 trg src sampled i j self
  = sample_peg probability2 fuel2 trg src sampled i j self.
Proof.
  intros Hi Hj. unfold sample_peg, mbind, method_bind.
  destruct (initial_alignment trg src i j self) as [[seed| |] s] eqn:Hseed;
    simpl; try done.
  apply initial_alignment_canonical in Hseed as Hcan; [|done..].
  unfold pure, hillclimb.
  pose proof (hillclimb_loop_canonical prob_gt probability1 src trg fuel1
                seed j Hcan) as H1.
  pose proof (hillclimb_loop_canonical prob_gt probability2 src trg fuel2
                seed j Hcan) as H2.
  destruct (hillclimb_loop prob_gt probability1 fuel1 seed j);
    destruct (hillclimb_loop prob_gt probability2 fuel2 seed j);
    simpl; done.
Qed.

Lemma for_each_method_agree_unless_out_of_fuel {A B} (xs : list A)
    (body1 body2 : B → A → method P B) (acc : B) (self : IBMModel P) :
  (∀ b x s, x ∈ xs →
            (body1 b x s).1 ≠ OutOfFuel → (body2 b x s).1 ≠ OutOfFuel →
            body1 b x s = body2 b x s) →
  (for_each xs body1 acc self).1 ≠ OutOfFuel →
  (for_each xs body2 acc self).1 ≠ OutOfFuel →
  for_each xs body1 acc self = for_each xs body2 acc self.
Proof.
  revert acc self. induction xs as [|x xs IH]; intros acc self Hbody; [done|].
  simpl. unfold mbind, method_bind.
  pose proof (Hbody acc x self) as Hx.
  destruct (body1 acc x self) as [[a1| |] s1] eqn:E1;
    destruct (body2 acc x self) as [[a2| |] s2] eqn:E2; simpl in *;
    intros H1 H2; try done;
    try (specialize (Hx ltac:(left) ltac:(done) ltac:(done)); by inversion Hx).
  specialize (Hx ltac:(left) ltac:(done) ltac:(done)).
  injection Hx as <- <-. apply IH; try done.
  intros b y t Hy. apply Hbody. by right.
Qed.

Lemma sample_agree_unless_out_of_fuel
    (probability1 probability2 : AlignmentInfo → P) (fuel1 fuel2 : nat)
    trg src (self : IBMModel P) :
  (sample probability1 fuel1 trg src self).1 ≠ OutOfFuel →
  (sample probability2 fuel2 trg src self).1 ≠ OutOfFuel →
  sample probability1 fuel1 trg src self
  = sample probability2 fuel2 trg src self.
Proof.
  unfold sample. apply for_each_method_agree_unless_out_of_fuel.
  intros sampled i s Hi%elem_of_py_range.
  apply for_each_method_agree_unless_out_of_fuel.
  intros sampled' j s' Hj%elem_of_py_range.
  apply sample_peg_agree_unless_out_of_fuel; lia.
Qed.

Hypothesis gt_irrefl : ∀ x : P, prob_gt x x = false.
Hypothesis gt_trans :
  ∀ x y z : P, prob_gt x y = true → prob_gt y z = true → prob_gt x z = true.

Lemma sample_peg_agree (probability1 probability2 : AlignmentInfo → P)
    (fuel : nat) trg src (sampled : list AlignmentInfo) (i j : Z)
    (self : IBMModel P) :
  (length src ^ length trg < fuel)%nat →
  0 ≤ i ≤ len src - 1 → 1 ≤ j ≤ len trg →
  sample_peg probability1 fuel trg src sampled i j self
  = sample_peg probability2 fuel trg src sampled i j self ∧
  (sample_peg probability1 fuel trg src sampled i j self).1 ≠ OutOfFuel.
Proof.
  intros Hfuel Hi Hj. unfold sample_peg, mbind, method_bind.
  pose proof (fuel_free_initial_alignment trg src i j self) as Hff.
  destruct (initial_alignment trg src i j self) as [[seed| |] s] eqn:Hseed;
    simpl in *; try done.
  apply initial_alignment_canonical in Hseed as Hcan; [|done..].
  unfold pure.
  rewrite !(hillclimb_terminates prob_gt _ gt_irrefl gt_trans src trg)
    by done.
  destruct (neighboring_total seed j) as (ns & ->);
    [by destruct Hcan as (_ & _ & _ & _ & _ & ?)|].
  done.
Qed.

End Independence.

(** C9. Two models that differ only in their scoring function return the
    same sample for every sentence pair, and leave the same state behind:
    with [>] a strict order on probabilities, every climb ends (fuel above
    [(l + 1) ^ m] is never spent), and what [sample] does, set or
    [IndexError], is the same for both. *)
Theorem sample_independent_of_probability
    {P : Type} `{Prob P} `{SetIteration}
    (probability1 probability2 : AlignmentInfo → P) (fuel : nat)
    (trg_sentence : list string) (src_sentence : list (option string))
    (self : IBMModel P) :
  (∀ x : P, prob_gt x x = false) →
  (∀ x y z : P, prob_gt x y = true → prob_gt y z = true → prob_gt x z = true) →
  (length src_sentence ^ length trg_sentence < fuel)%nat →
  sample probability1 fuel trg_sentence src_sentence self
  = sample probability2 fuel trg_sentence src_sentence self ∧
  (sample probability1 fuel trg_sentence src_sentence self).1 ≠ OutOfFuel.
Proof.
  intros Hirr Htrans Hfuel. unfold sample.
  apply for_each_method_agree. intros sampled i s Hi%elem_of_py_range.
  apply for_each_method_agree. intros sampled' j s' Hj%elem_of_py_range.
  apply sample_peg_agree; (done || lia).
Qed.

(** ** [>] on binary64 floats is a strict order *)

Section FloatOrder.

Lemma SFltb_irrefl (x : spec_float) : SFltb x x = false.
Proof.
  unfold SFltb, SFcompare.
  destruct x as [s|s| |s m e]; try destruct s; try reflexivity;
    rewrite Z.compare_refl, Pos.compare_cont_refl; reflexivity.
Qed.

Lemma SFltb_trans (x y z : spec_float) :
  SFltb x y = true → SFltb y z = true → SFltb x z = true.
Proof.
  unfold SFltb, SFcompare.
  destruct x as [sx|sx| |sx mx ex], y as [sy|sy| |sy my ey],
           z as [sz|sz| |sz mz ez];
    try destruct sx; try destruct sy; try destruct sz;
    try discriminate; try reflexivity;
    intros H1 H2;
    repeat match goal with
    | H : context [Z.compare ?a ?b] |- _ =>
        destruct (Z.compare_spec a b); try discriminate
    | |- context [Z.compare ?a ?b] => destruct (Z.compare_spec a b)
    end; subst; try lia; try reflexivity;
    change (Pos.compare_cont Eq ?a ?b) with (Pos.compare a b) in *;
    repeat match goal with
    | H : context [Pos.compare ?a ?b] |- _ =>
        destruct (Pos.compare_spec a b); try discriminate
    | |- context [Pos.compare ?a ?b] => destruct (Pos.compare_spec a b)
    end; subst; simpl in *; try discriminate; try lia; try reflexivity.
Qed.

Lemma float_gt_irrefl (x : float) : prob_gt x x = false.
Proof. simpl. rewrite ltb_spec. apply SFltb_irrefl. Qed.

Lemma float_gt_trans (x y z : float) :
  prob_gt x y = true → prob_gt y z = true → prob_gt x z = true.
Proof.
  simpl. rewrite !ltb_spec. intros Hxy Hyz. by eapply SFltb_trans.
Qed.

End FloatOrder.

(** On floats the order needs no assumption. *)
Corollary sample_independent_of_probability_float `{SetIteration}
    (probability1 probability2 : AlignmentInfo → float) (fuel : nat)
    (trg_sentence : list string) (src_sentence : list (option string))
    (self : IBMModel float) :
  (length src_sentence ^ length trg_sentence < fuel)%nat →
  sample probability1 fuel trg_sentence src_sentence self
  = sample probability2 fuel trg_sentence src_sentence self.
Proof.
  intros Hfuel.
  eapply proj1, sample_independent_of_probability;
    [apply float_gt_irrefl | apply float_gt_trans | done].
Qed.

Lemma sample_independent_of_probability_witness :
  @sample float _ insertion_order HillclimbExample.probability 5
    SampleExample.trg SampleExample.src (init [])
  = @sample float _ insertion_order (fun _ => 0.5%float) 5
      SampleExample.trg SampleExample.src (init []) ∧
  (@sample float _ insertion_order HillclimbExample.probability 5
     SampleExample.trg SampleExample.src (init [])).1 ≠ OutOfFuel.
Proof.
  apply (sample_independent_of_probability (H0 := insertion_order)
           HillclimbExample.probability (fun _ => 0.5%float) 5
           SampleExample.trg SampleExample.src (init [])
           float_gt_irrefl float_gt_trans).
  vm_compute. lia.
Defined.

(** * Further properties of the code *)

(** ** The vocabularies of a new model *)

Lemma init_vocab_foldl (corpus : list AlignedSent)
    (sv : gset (option string)) (tv : gset string) :
  let r := foldl (fun '(src_vocab, trg_vocab) aligned_sentence =>
                    (src_vocab ∪ list_to_set (mots aligned_sentence),
                     trg_vocab ∪ list_to_set (words aligned_sentence)))
                 (sv, tv) corpus in
  (∀ s, s ∈ r.1 ↔ s ∈ sv ∨ ∃ sent, sent ∈ corpus ∧ s ∈ mots sent) ∧
  (∀ t, t ∈ r.2 ↔ t ∈ tv ∨ ∃ sent, sent ∈ corpus ∧ t ∈ words sent).
Proof.
  revert sv tv. induction corpus as [|sent corpus IH]; intros sv tv; simpl.
  - split; intros x; (split; [by left|]);
      (intros [? | (sent & Hs%elem_of_nil & _)]; done).
  - destruct (IH (sv ∪ list_to_set (mots sent))
                 (tv ∪ list_to_set (words sent))) as [Hs Ht].
    split; intros x; [rewrite Hs | rewrite Ht];
      rewrite elem_of_union, elem_of_list_to_set; split.
    + intros [[? | ?] | (sent' & Hin & Hx)]; [by left| |].
      * right. exists sent. split; [left | done].
      * right. exists sent'. split; [by right | done].
    + intros [? | (sent' & Hin & Hx)]; [by left; left|].
      apply elem_of_cons in Hin as [-> | Hin]; [by left; right|].
      right. by exists sent'.
    + intros [[? | ?] | (sent' & Hin & Hx)]; [by left| |].
      * right. exists sent. split; [left | done].
      * right. exists sent'. split; [by right | done].
    + intros [? | (sent' & Hin & Hx)]; [by left; left|].
      apply elem_of_cons in Hin as [-> | Hin]; [by left; right|].
      right. by exists sent'.
Qed.

(** X1. A model made by [__init__] knows exactly the words of its corpus:
    the source vocabulary is the NULL token and the source words ([mots]) of
    the sentence pairs, the target vocabulary is their target words
    ([words]); its three tables are empty and [p1] is 0.5. *)
Theorem init_vocabularies {P : Type} `{Prob P}
    (sentence_aligned_corpus : list AlignedSent)
    (s : option string) (t : string) :
  (s ∈ src_vocab (init sentence_aligned_corpus) ↔
   s = None ∨ ∃ sent, sent ∈ sentence_aligned_corpus ∧ s ∈ mots sent) ∧
  (t ∈ trg_vocab (init sentence_aligned_corpus) ↔
   ∃ sent, sent ∈ sentence_aligned_corpus ∧ t ∈ words sent) ∧
  translation_table (init sentence_aligned_corpus) = ∅ ∧
  alignment_table (init sentence_aligned_corpus) = ∅ ∧
  fertility_table (init sentence_aligned_corpus) = ∅ ∧
  p1 (init sentence_aligned_corpus) = prob_half.
Proof.
  unfold init, init_vocab.
  pose proof (init_vocab_foldl sentence_aligned_corpus ∅ ∅) as Hfold.
  destruct (foldl _ _ sentence_aligned_corpus) as [sv tv].
  simpl in *. destruct Hfold as [Hs Ht]. split_and!; try done.
  - rewrite elem_of_union, elem_of_singleton, Hs.
    pose proof (not_elem_of_empty (C := gset (option string)) s). tauto.
  - rewrite Ht.
    pose proof (not_elem_of_empty (C := gset string) t). tauto.
Qed.

(** ** Subscripts of the tables: what is read is what is stored *)

Section TableRoundTrip.

Context {P : Type} `{Prob P}.

Lemma dd_getitem_present `{Countable K} {V} (f v : V) (k : K) (d : gmap K V) :
  d !! k = Some v → dd_getitem f k d = (v, d).
Proof. unfold dd_getitem. by intros ->. Qed.

Lemma dd_nested_present `{Countable K} {V R} (f v : V) (k : K)
    (inner : V → R * V) (r : R) (d : gmap K V) :
  d !! k = Some v → inner v = (r, v) → dd_nested f k inner d = (r, d).
Proof.
  intros Hk Hinner. unfold dd_nested.
  rewrite (dd_getitem_present _ v) by done. rewrite Hinner.
  by rewrite insert_id.
Qed.

Lemma dd_getitem_lookup `{Countable K} (k k' : K) (d : gmap K P) :
  (dd_getitem MIN_PROB k d).2 !! k' =
  if decide (k' = k) then Some (default MIN_PROB (d !! k)) else d !! k'.
Proof.
  rewrite dd_getitem_snd. case_decide as Hk.
  - subst k'. by rewrite lookup_insert_eq.
  - by rewrite lookup_insert_ne.
Qed.

(** One more level of nesting: the entries after a read are the entries
    before it, but for the entry read, which holds what the read returned. *)
Lemma dd_nested_entry `{Countable K} {V R E} `{EqDecision E}
    (entry : V → E → option P) (f : V) (inner : V → R * V) (e0 : E)
    (k k' : K) (e : E) (d : gmap K V) :
  (∀ e, entry f e = None) →
  (∀ v e, entry (inner v).2 e =
          if decide (e = e0) then Some (default MIN_PROB (entry v e0))
          else entry v e) →
  (dd_nested f k inner d).2 !! k' ≫= (fun v => entry v e) =
  if decide ((k', e) = (k, e0))
  then Some (default MIN_PROB (d !! k ≫= fun v => entry v e0))
  else d !! k' ≫= (fun v => entry v e).
Proof.
  intros Hf Hinner. rewrite dd_nested_snd.
  destruct (decide (k' = k)) as [-> | Hk].
  - rewrite lookup_insert_eq. simpl. rewrite Hinner.
    destruct (decide (e = e0)) as [-> | He].
    + rewrite decide_True by done. by destruct (d !! k); simpl; rewrite ?Hf.
    + rewrite decide_False by congruence.
      by destruct (d !! k); simpl; rewrite ?Hf.
  - rewrite lookup_insert_ne by done. rewrite decide_False by congruence. done.
Qed.

Lemma translation_entry_after (self : IBMModel P) (t t' : string)
    (s s' : option string) :
  translation_entry (translation_table_getitem t s self).2 t' s' =
  if decide ((t', s') = (t, s))
  then Some (default MIN_PROB (translation_entry self t s))
  else translation_entry self t' s'.
Proof.
  unfold translation_table_getitem, translation_entry.
  rewrite (surjective_pairing (dd_nested _ _ _ _)). simpl.
  apply (dd_nested_entry (fun (row : gmap (option string) P) s => row !! s)).
  - intros e. apply lookup_empty.
  - intros v e. apply dd_getitem_lookup.
Qed.

Lemma alignment_entry_after (self : IBMModel P) (i j l m i' j' l' m' : Z) :
  alignment_entry (alignment_table_getitem i j l m self).2 i' j' l' m' =
  if decide ((i', (j', (l', m'))) = (i, (j, (l, m))))
  then Some (default MIN_PROB (alignment_entry self i j l m))
  else alignment_entry self i' j' l' m'.
Proof.
  unfold alignment_table_getitem, alignment_entry.
  rewrite (surjective_pairing (dd_nested _ _ _ _)). simpl.
  apply (dd_nested_entry
           (fun (d : gmap Z (gmap Z (gmap Z P))) (e : Z * (Z * Z)) =>
              d !! e.1 ≫= (fun d => d !! e.2.1 ≫= (fun d => d !! e.2.2)))
           _ _ (j, (l, m)) _ _ (j', (l', m'))).
  { intros e. by rewrite lookup_empty. }
  intros d1 [j1 [l1 m1]]; simpl.
  apply (dd_nested_entry
           (fun (d : gmap Z (gmap Z P)) (e : Z * Z) =>
              d !! e.1 ≫= (fun d => d !! e.2))
           _ _ (l, m) _ _ (l1, m1)).
  { intros e. by rewrite lookup_empty. }
  intros d2 [l2 m2]; simpl.
  apply (dd_nested_entry (fun (d : gmap Z P) (e : Z) => d !! e)).
  { intros e. apply lookup_empty. }
  intros d3 m3. apply dd_getitem_lookup.
Qed.

Lemma translation_table_getitem_present (self : IBMModel P) (t : string)
    (s : option string) (p : P) :
  translation_entry self t s = Some p →
  translation_table_getitem t s self = (Ok p, self).
Proof.
  unfold translation_entry, translation_table_getitem. intros He.
  destruct (translation_table self !! t) as [row|] eqn:Hrow; [|done].
  simpl in He.
  rewrite (dd_nested_present _ row _ _ p); [by destruct self|done|].
  by apply dd_getitem_present.
Qed.

Lemma alignment_table_getitem_present (self : IBMModel P) (i j l m : Z)
    (p : P) :
  alignment_entry self i j l m = Some p →
  alignment_table_getitem i j l m self = (Ok p, self).
Proof.
  unfold alignment_entry, alignment_table_getitem. intros He.
  destruct (alignment_table self !! i) as [d1|] eqn:H1; [|done].
  simpl in He. destruct (d1 !! j) as [d2|] eqn:H2; [|done].
  simpl in He. destruct (d2 !! l) as [d3|] eqn:H3; [|done].
  simpl in He.
  rewrite (dd_nested_present _ d1 _ _ p); [by destruct self|done|].
  apply (dd_nested_present _ d2); [done|].
  apply (dd_nested_present _ d3); [done|].
  by apply dd_getitem_present.
Qed.

End TableRoundTrip.

(** X2. [translation_table[t][s]] returns the entry under [(t, s)], or
    [MIN_PROB] where there is none; afterwards that entry holds the value
    returned and every other entry is what it was; a table that had the entry
    is left as it was, so repeating the subscript returns the same value and
    changes nothing more. *)
Theorem translation_table_getitem_round_trip {P : Type} `{Prob P}
    (self : IBMModel P) (t : string) (s : option string) :
  let p := default MIN_PROB (translation_entry self t s) in
  let self' := (translation_table_getitem t s self).2 in
  (translation_table_getitem t s self).1 = Ok p ∧
  (∀ t' s', translation_entry self' t' s' =
            if decide ((t', s') = (t, s)) then Some p
            else translation_entry self t' s') ∧
  (is_Some (translation_entry self t s) → self' = self) ∧
  translation_table_getitem t s self' = (Ok p, self').
Proof.
  intros p self'. split_and!.
  - apply translation_table_getitem_fst.
  - intros t' s'. apply translation_entry_after.
  - intros [v Hv]. unfold self'.
    by rewrite (translation_table_getitem_present _ _ _ _ Hv).
  - apply translation_table_getitem_present. unfold self'.
    rewrite translation_entry_after. by rewrite decide_True.
Qed.

(** X3. The same for [alignment_table[i][j][l][m]], through its four
    levels: the value returned is the entry or [MIN_PROB], it is stored under
    the four keys, no other entry changes, and a table that had the entry is
    not changed at all. *)
Theorem alignment_table_getitem_round_trip {P : Type} `{Prob P}
    (self : IBMModel P) (i j l m : Z) :
  let p := default MIN_PROB (alignment_entry self i j l m) in
  let self' := (alignment_table_getitem i j l m self).2 in
  (alignment_table_getitem i j l m self).1 = Ok p ∧
  (∀ i' j' l' m', alignment_entry self' i' j' l' m' =
                  if decide ((i', (j', (l', m'))) = (i, (j, (l, m))))
                  then Some p else alignment_entry self i' j' l' m') ∧
  (is_Some (alignment_entry self i j l m) → self' = self) ∧
  alignment_table_getitem i j l m self' = (Ok p, self').
Proof.
  intros p self'. split_and!.
  - apply alignment_table_getitem_fst.
  - intros i' j' l' m'. apply alignment_entry_after.
  - intros [v Hv]. unfold self'.
    by rewrite (alignment_table_getitem_present _ _ _ _ _ _ Hv).
  - apply alignment_table_getitem_present. unfold self'.
    rewrite alignment_entry_after. by rewrite decide_True.
Qed.

(** ** More on neighbourhoods *)

(** X4. Whatever the input, every member of a neighbourhood describes the
    sentence pair of the input, its alignment and fertility vectors have the
    lengths of the input's, and slot 0 of the alignment is the input's. *)
Theorem neighboring_keeps_sentences_and_lengths
    (a : AlignmentInfo) (j_pegged : Z) (ns : list AlignmentInfo)
    (n : AlignmentInfo) :
  neighboring a j_pegged = Ok ns → n ∈ ns →
  src_sentence n = src_sentence a ∧ trg_sentence n = trg_sentence a ∧
  length (alignment n) = length (alignment a) ∧
  length (fertility_of_i n) = length (fertility_of_i a) ∧
  alignment n !! 0%nat = alignment a !! 0%nat.
Proof.
  intros Hns Hn.
  destruct (neighboring_shape _ _ _ _ Hns Hn) as (? & ? & ? & ? & ? & _).
  done.
Qed.

Lemma neighboring_keeps_sentences_and_lengths_witness :
  ∃ ns n,
    neighboring example_alignment 2 = Ok ns ∧ n ∈ ns ∧
    alignment n = [0; 2; 2; 0] ∧
    src_sentence n = src_sentence example_alignment ∧
    length (fertility_of_i n) = 3%nat.
Proof.
  pose (n := mkAlignmentInfo [0; 2; 2; 0]
               [None; Some "a"; Some "b"]%string ["x"; "y"; "z"]%string
               [1; 0; 2]).
  assert (∃ ns, neighboring example_alignment 2 = Ok ns ∧ n ∈ ns)
    as (ns & Hns & Hn).
  { eexists. split; [vm_compute; reflexivity|]. do 2 right. left. }
  destruct (neighboring_keeps_sentences_and_lengths _ _ _ _ Hns Hn)
    as (Hsrc & _ & _ & Hfe & _).
  exists ns, n. by split_and!.
Defined.

(** A loop that reaches [x] establishes what the iteration for [x]
    establishes, if every iteration keeps it. *)
Lemma for_each_Ok_visit {A B} (Q : B → Prop) (xs : list A) (x : A)
    (body : B → A → result B) (acc r : B) :
  for_each xs body acc = Ok r → x ∈ xs →
  (∀ b b', body b x = Ok b' → Q b') →
  (∀ y b b', body b y = Ok b' → Q b → Q b') →
  Q r.
Proof.
  intros Hr Hx Hat Hkeep. revert acc Hr.
  induction xs as [|y xs IH]; intros acc Hr; [by apply elem_of_nil in Hx|].
  simpl in Hr. inv_bind Hr.
  apply elem_of_cons in Hx as [<- | Hx].
  - apply Hat in E. clear IH Hat. revert a E Hr.
    induction xs as [|z xs IH]; intros b Hb Hr; simpl in Hr.
    + by injection Hr as <-.
    + inv_bind Hr. eapply IH; [|exact Hr]. by eapply Hkeep.
  - by eapply IH.
Qed.

(** A set has a member with the alignment [al]. *)
Lemma set_add_has (s : list AlignmentInfo) (x : AlignmentInfo) :
  ∃ y, y ∈ set_add s x ∧ alignment y = alignment x.
Proof.
  unfold set_add. destruct (set_contains x s) eqn:E.
  - apply set_contains_spec in E as (y & Hy & He). eauto.
  - exists x. split; [|done]. apply elem_of_app. right. by left.
Qed.

Lemma set_add_keeps (s : list AlignmentInfo) (x y : AlignmentInfo) :
  y ∈ s → y ∈ set_add s x.
Proof.
  intros Hy. unfold set_add. destruct (set_contains x s); [done|].
  apply elem_of_app. by left.
Qed.

Lemma add_moves_keeps (a : AlignmentInfo) (j_pegged : Z)
    (ns ns' : list AlignmentInfo) (y : AlignmentInfo) :
  add_moves a j_pegged ns = Ok ns' → y ∈ ns → y ∈ ns'.
Proof.
  intros Hadd Hy. unfold add_moves in Hadd.
  apply (for_each_Ok_inv (fun acc => y ∈ acc) _ _ _ _ Hadd); [done|].
  intros b j b' _ Hb Hbody. case_decide; [|by injection Hbody as <-].
  apply (for_each_Ok_inv (fun acc => y ∈ acc) _ _ _ _ Hbody); [done|].
  intros c i c' _ Hc Hstep. inv_bind Hstep. injection Hstep as <-.
  by apply set_add_keeps.
Qed.

Lemma add_swaps_keeps (a : AlignmentInfo) (j_pegged : Z)
    (ns ns' : list AlignmentInfo) (y : AlignmentInfo) :
  add_swaps a j_pegged ns = Ok ns' → y ∈ ns → y ∈ ns'.
Proof.
  intros Hadd Hy. unfold add_swaps in Hadd.
  apply (for_each_Ok_inv (fun acc => y ∈ acc) _ _ _ _ Hadd); [done|].
  intros b j b' _ Hb Hbody. case_decide; [|by injection Hbody as <-].
  apply (for_each_Ok_inv (fun acc => y ∈ acc) _ _ _ _ Hbody); [done|].
  intros c i c' _ Hc Hstep. case_decide; [|by injection Hstep as <-].
  inv_bind Hstep. injection Hstep as <-. by apply set_add_keeps.
Qed.

Lemma add_moves_complete (a : AlignmentInfo) (j_pegged j i : Z)
    (ns ns' : list AlignmentInfo) :
  add_moves a j_pegged ns = Ok ns' →
  1 ≤ j ≤ len (trg_sentence a) → j ≠ j_pegged →
  0 ≤ i ≤ len (src_sentence a) - 1 →
  ∃ n, n ∈ ns' ∧ alignment n = <[Z.to_nat j := i]> (alignment a).
Proof.
  intros Hadd Hj Hne Hi. unfold add_moves in Hadd.
  pose (Q := fun acc : list AlignmentInfo =>
               ∃ n, n ∈ acc ∧ alignment n = <[Z.to_nat j := i]> (alignment a)).
  assert (∀ (k : Z) b b',
             (if decide (k ≠ j_pegged)
              then for_each (py_range 0 (len (src_sentence a) - 1 + 1))
                     (fun neighbors i =>
                        new_alignment_info ← move_candidate a k i;
                        Ok (set_add neighbors new_alignment_info)) b
              else Ok b) = Ok b' → Q b → Q b') as Hkeep.
  { intros k b b' Hbody (n & Hn & Hal). exists n. split; [|done].
    case_decide; [|by injection Hbody as <-].
    apply (for_each_Ok_inv (fun acc => n ∈ acc) _ _ _ _ Hbody); [done|].
    intros c i' c' _ Hc Hstep. inv_bind Hstep. injection Hstep as <-.
    by apply set_add_keeps. }
  apply (for_each_Ok_visit Q _ j _ _ _ Hadd);
    [apply elem_of_py_range; lia | | exact Hkeep].
  intros b b' Hbody. rewrite decide_True in Hbody by done.
  apply (for_each_Ok_visit Q _ i _ _ _ Hbody); [apply elem_of_py_range; lia| |].
  - intros c c' Hstep. inv_bind Hstep. injection Hstep as <-.
    destruct (set_add_has c a0) as (y & Hy & Hal). exists y. split; [done|].
    apply move_candidate_Ok in E as (? & ? & _ & _ & Hal' & _); [|lia].
    congruence.
  - intros i' c c' Hstep (n & Hn & Hal). inv_bind Hstep.
    injection Hstep as <-. exists n. split; [by apply set_add_keeps | done].
Qed.

Lemma add_swaps_complete (a : AlignmentInfo) (j_pegged j other_j a_j a_other : Z)
    (ns ns' : list AlignmentInfo) :
  add_swaps a j_pegged ns = Ok ns' →
  1 ≤ j ≤ len (trg_sentence a) → j ≠ j_pegged →
  1 ≤ other_j ≤ len (trg_sentence a) → other_j ≠ j_pegged → other_j ≠ j →
  alignment a !! Z.to_nat j = Some a_j →
  alignment a !! Z.to_nat other_j = Some a_other →
  ∃ n, n ∈ ns' ∧
       alignment n =
       <[Z.to_nat other_j := a_j]> (<[Z.to_nat j := a_other]> (alignment a)).
Proof.
  intros Hadd Hj Hne Hoj Hone Hdiff Haj Hao. unfold add_swaps in Hadd.
  pose (Q := fun acc : list AlignmentInfo =>
               ∃ n, n ∈ acc ∧
                    alignment n =
                    <[Z.to_nat other_j := a_j]>
                      (<[Z.to_nat j := a_other]> (alignment a))).
  assert (∀ (k : Z) b b',
             for_each (py_range 1 (len (trg_sentence a) + 1))
               (fun neighbors other_j =>
                  if decide (other_j ≠ j_pegged ∧ other_j ≠ k) then
                    new_alignment_info ← swap_candidate a k other_j;
                    Ok (set_add neighbors new_alignment_info)
                  else Ok neighbors) b = Ok b' →
             ∀ n, n ∈ b → n ∈ b') as Hinner.
  { intros k b b' Hbody n Hn.
    apply (for_each_Ok_inv (fun acc => n ∈ acc) _ _ _ _ Hbody); [done|].
    intros c i' c' _ Hc Hstep. case_decide; [|by injection Hstep as <-].
    inv_bind Hstep. injection Hstep as <-. by apply set_add_keeps. }
  apply (for_each_Ok_visit Q _ j _ _ _ Hadd); [apply elem_of_py_range; lia| |].
  - intros b b' Hbody. rewrite decide_True in Hbody by done.
    apply (for_each_Ok_visit Q _ other_j _ _ _ Hbody);
      [apply elem_of_py_range; lia| |].
    + intros c c' Hstep. rewrite decide_True in Hstep by done.
      inv_bind Hstep. injection Hstep as <-.
      destruct (set_add_has c a0) as (y & Hy & Hal). exists y. split; [done|].
      apply swap_candidate_Ok in E as (? & ? & ? & ? & Hal' & _); [|lia..].
      congruence.
    + intros k c c' Hstep (n & Hn & Hal). exists n. split; [|done].
      case_decide; [|by injection Hstep as <-].
      inv_bind Hstep. injection Hstep as <-. by apply set_add_keeps.
  - intros k b b' Hbody (n & Hn & Hal). exists n. split; [|done].
    case_decide; [|by injection Hbody as <-]. by eapply Hinner.
Qed.

(** X5. A neighbourhood is complete: for every target position [j] in
    [1..m] other than the pegged one and every source position [i] in [0..l]
    it has a member whose alignment is the input's with slot [j] set to
    [i]; and for every two such target positions a member whose alignment
    is the input's with the values of the two slots exchanged. *)
Theorem neighboring_is_complete
    (a : AlignmentInfo) (j_pegged : Z) (ns : list AlignmentInfo) :
  neighboring a j_pegged = Ok ns →
  (∀ j i, 1 ≤ j ≤ len (trg_sentence a) → j ≠ j_pegged →
          0 ≤ i ≤ len (src_sentence a) - 1 →
          ∃ n, n ∈ ns ∧ alignment n = <[Z.to_nat j := i]> (alignment a)) ∧
  (∀ j other_j a_j a_other,
      1 ≤ j ≤ len (trg_sentence a) → j ≠ j_pegged →
      1 ≤ other_j ≤ len (trg_sentence a) → other_j ≠ j_pegged →
      other_j ≠ j →
      alignment a !! Z.to_nat j = Some a_j →
      alignment a !! Z.to_nat other_j = Some a_other →
      ∃ n, n ∈ ns ∧
           alignment n =
           <[Z.to_nat other_j := a_j]>
             (<[Z.to_nat j := a_other]> (alignment a))).
Proof.
  unfold neighboring. intros Hns. inv_bind Hns. rename a0 into moved. split.
  - intros j i Hj Hne Hi.
    destruct (add_moves_complete a j_pegged j i [] moved E Hj Hne Hi)
      as (n & Hn & Hal).
    exists n. split; [by eapply add_swaps_keeps | done].
  - intros j oj aj ao Hj Hne Hoj Hone Hdiff Haj Hao.
    by eapply add_swaps_complete.
Qed.

Lemma neighboring_is_complete_witness :
  ∃ ns n,
    neighboring example_alignment 2 = Ok ns ∧ n ∈ ns ∧
    alignment n = [0; 1; 2; 2].
Proof.
  assert (∃ ns, neighboring example_alignment 2 = Ok ns) as (ns & Hns)
    by (eexists; vm_compute; reflexivity).
  destruct (neighboring_is_complete example_alignment 2 ns Hns) as [Hmoves _].
  destruct (Hmoves 3 2) as (n & Hn & Hal); [vm_compute; split; discriminate
    | lia | vm_compute; split; discriminate |].
  exists ns, n. by split_and!.
Defined.

(** ** Neighbourhoods of ill-formed inputs *)

Lemma bind_fuel {A B} (r : result A) (f : A → result B) :
  r ≠ OutOfFuel → (∀ a, f a ≠ OutOfFuel) → r ≫= f ≠ OutOfFuel.
Proof. destruct r; simpl; auto. Qed.

Lemma for_each_fuel {A B} (xs : list A) (body : B → A → result B) (acc : B) :
  (∀ b x, body b x ≠ OutOfFuel) → for_each xs body acc ≠ OutOfFuel.
Proof.
  intros Hbody. revert acc. induction xs as [|x xs IH]; intros acc; [done|].
  simpl. apply bind_fuel; [apply Hbody | intros b; apply IH].
Qed.

Lemma neighboring_fuel (a : AlignmentInfo) (j_pegged : Z) :
  neighboring a j_pegged ≠ OutOfFuel.
Proof.
  unfold neighboring, add_moves, add_swaps.
  apply bind_fuel; [|intros ns]; apply for_each_fuel; intros b j;
    (case_decide; [|done]); apply for_each_fuel; intros c k.
  - apply bind_fuel; [|done]. unfold move_candidate.
    apply bind_fuel; [apply of_option_fuel | intros ?].
    apply bind_fuel; [apply py_additem_fuel | intros ?].
    apply bind_fuel; [apply of_option_fuel | intros ?].
    apply bind_fuel; [apply py_additem_fuel | done].
  - case_decide; [|done]. apply bind_fuel; [|done]. unfold swap_candidate.
    apply bind_fuel; [apply of_option_fuel | intros ?].
    apply bind_fuel; [apply of_option_fuel | intros ?].
    apply bind_fuel; [apply of_option_fuel | intros ?].
    apply bind_fuel; [apply of_option_fuel | done].
Qed.

(** X6. [neighboring] raises [IndexError] on an input whose vectors are too
    short for its sentence pair: when some target position [j] in [1..m]
    other than the pegged one is not an index of the alignment, or the last
    source position [l] is not an index of the fertility vector (with a
    position to move, and a source sentence that is not empty). *)
Theorem neighboring_raises_on_short_vectors
    (a : AlignmentInfo) (j_pegged j : Z) :
  1 ≤ j ≤ len (trg_sentence a) → j ≠ j_pegged →
  0 ≤ len (src_sentence a) - 1 →
  len (alignment a) ≤ j ∨ len (fertility_of_i a) ≤ len (src_sentence a) - 1 →
  neighboring a j_pegged = IndexError.
Proof.
  intros Hj Hne Hl Hshort.
  pose proof (neighboring_fuel a j_pegged) as Hfuel.
  destruct (neighboring a j_pegged) as [ns| |] eqn:Hns; [exfalso|done..].
  clear Hfuel. unfold neighboring in Hns. inv_bind Hns. clear Hns.
  unfold add_moves in E.
  apply (for_each_Ok_visit (fun _ => False) _ j _ _ _ E);
    [apply elem_of_py_range; lia | | done].
  intros b b' Hbody. rewrite decide_True in Hbody by done.
  apply (for_each_Ok_visit (fun _ => False) _ (len (src_sentence a) - 1)
           _ _ _ Hbody); [apply elem_of_py_range; lia | | done].
  intros c c' Hstep. inv_bind Hstep.
  apply move_candidate_Ok in E0 as (? & fe & Hlt & _ & _ & Hfe & _); [|lia].
  destruct Hshort as [Hal | Hfert]; [lia|].
  apply py_additem_nonneg in Hfe as (x0 & Hx & _); [|lia].
  apply lookup_lt_Some in Hx. unfold len in *. lia.
Qed.

Lemma neighboring_raises_on_short_vectors_witness :
  neighboring (mkAlignmentInfo [0; 1] [None; Some "a"]%string
                 ["x"; "y"]%string [1; 1]) 1 = IndexError.
Proof.
  apply (neighboring_raises_on_short_vectors _ 1 2); vm_compute;
    try (split; discriminate); try discriminate.
  left. discriminate.
Defined.

(** ** Sets hold one member for an alignment *)

Lemma set_add_NoDup (s : list AlignmentInfo) (x : AlignmentInfo) :
  NoDup (alignment <$> s) → NoDup (alignment <$> set_add s x).
Proof.
  intros Hnd. unfold set_add. destruct (set_contains x s) eqn:E; [done|].
  rewrite fmap_app. apply NoDup_app. split_and!; [done| |].
  - intros al Hal Hx. simpl in Hx. apply list_elem_of_singleton in Hx as ->.
    apply list_elem_of_fmap in Hal as (y & Hy & Hin).
    assert (set_contains x s = true) as Hc; [|congruence].
    apply set_contains_spec. eauto.
  - simpl. apply NoDup_singleton.
Qed.

Lemma foldl_set_add_NoDup (xs s : list AlignmentInfo) :
  NoDup (alignment <$> s) → NoDup (alignment <$> foldl set_add s xs).
Proof.
  revert s. induction xs as [|x xs IH]; intros s Hnd; simpl; [done|].
  by apply IH, set_add_NoDup.
Qed.

(** X7. No two members of a set that [neighboring] or [sample] returns have
    the same alignment: an [AlignmentInfo] equal to a member (under
    [__eq__]) is never added. *)
Theorem returned_sets_have_distinct_alignments
    {P : Type} `{Prob P} `{SetIteration}
    (a : AlignmentInfo) (j_pegged : Z)
    (probability : AlignmentInfo → P) (fuel : nat)
    (trg_sentence : list string) (src_sentence : list (option string))
    (self : IBMModel P) :
  (∀ ns, neighboring a j_pegged = Ok ns → NoDup (alignment <$> ns)) ∧
  (∀ sampled self',
      sample probability fuel trg_sentence src_sentence self
      = (Ok sampled, self') →
      NoDup (alignment <$> sampled)).
Proof.
  split.
  - intros ns Hns. unfold neighboring in Hns. inv_bind Hns.
    assert (NoDup (alignment <$> a0)) as Hmoves.
    { unfold add_moves in E.
      apply (for_each_Ok_inv (fun acc => NoDup (alignment <$> acc))
               _ _ _ _ E); [apply NoDup_nil_2|].
      intros b j b' _ Hb Hbody. case_decide; [|by injection Hbody as <-].
      apply (for_each_Ok_inv (fun acc => NoDup (alignment <$> acc))
               _ _ _ _ Hbody); [done|].
      intros c i c' _ Hc Hstep. inv_bind Hstep. injection Hstep as <-.
      by apply set_add_NoDup. }
    unfold add_swaps in Hns.
    apply (for_each_Ok_inv (fun acc => NoDup (alignment <$> acc))
             _ _ _ _ Hns); [done|].
    intros b j b' _ Hb Hbody. case_decide; [|by injection Hbody as <-].
    apply (for_each_Ok_inv (fun acc => NoDup (alignment <$> acc))
             _ _ _ _ Hbody); [done|].
    intros c i c' _ Hc Hstep. case_decide; [|by injection Hstep as <-].
    inv_bind Hstep. injection Hstep as <-. by apply set_add_NoDup.
  - intros sampled self' Hs. unfold sample in Hs.
    apply (for_each_method_inv
             (fun _ acc => NoDup (alignment <$> acc)) _ _ _ _ _ _ Hs);
      [apply NoDup_nil_2|].
    intros i rest acc s acc' s' Hacc Hbody.
    apply (for_each_method_inv
             (fun _ acc => NoDup (alignment <$> acc)) _ _ _ _ _ _ Hbody);
      [done|].
    clear. intros j rest b s b' s' Hb Hpeg. unfold sample_peg in Hpeg.
    apply method_bind_Ok in Hpeg as (seed & ? & _ & Hpeg).
    apply method_bind_Ok in Hpeg as (best & ? & _ & Hpeg).
    apply method_bind_Ok in Hpeg as (ns & ? & _ & Hpeg).
    apply method_ret_Ok in Hpeg as [<- _].
    by apply foldl_set_add_NoDup.
Qed.

(** ** Samples *)

(** X8. With no target word, or with a source sentence that is empty (not
    even the NULL token), there is no peg: [sample] returns the empty set,
    without a round of hill climbing and without touching the tables. *)
Theorem sample_without_pegs {P : Type} `{Prob P} `{SetIteration}
    (probability : AlignmentInfo → P) (fuel : nat)
    (trg_sentence : list string) (src_sentence : list (option string))
    (self : IBMModel P) :
  trg_sentence = [] ∨ src_sentence = [] →
  sample probability fuel trg_sentence src_sentence self = (Ok [], self).
Proof.
  intros [-> | ->]; unfold sample; simpl.
  - apply for_each_method_skip. intros i _. done.
  - done.
Qed.

Lemma sample_without_pegs_witness :
  @sample float _ insertion_order (fun _ => 0.5%float) 0
    [] [None; Some "a"]%string (init [])
  = (Ok [], init []).
Proof. apply sample_without_pegs. by left. Defined.

(** X9. Every member of a set that [sample] returns is an alignment of the
    sentence pair sampled: it carries the two sentences, its alignment has
    [m + 1] slots, slot 0 holding 0 and every other a source position in
    [0..l], and its fertility vector has [l + 1] slots. *)
Theorem sample_members_are_alignments_of_the_pair
    {P : Type} `{Prob P} `{SetIteration}
    (probability : AlignmentInfo → P) (fuel : nat)
    (trg : list string) (src : list (option string))
    (self self' : IBMModel P) (sampled : list AlignmentInfo)
    (n : AlignmentInfo) :
  sample probability fuel trg src self = (Ok sampled, self') →
  n ∈ sampled →
  src_sentence n = src ∧
  trg_sentence n = trg ∧
  length (alignment n) = S (length trg) ∧
  length (fertility_of_i n) = length src ∧
  alignment n !! 0%nat = Some 0 ∧
  ∀ j : nat, (1 ≤ j ≤ length trg)%nat →
             ∃ i, alignment n !! j = Some i ∧ 0 ≤ i ≤ len src - 1.
Proof.
  intros Hs Hn.
  destruct (sample_members _ _ _ _ _ _ _ _ Hs Hn)
    as (i & j & seed & ns & s & s' & Hi & Hj & Hseed & Hns & Hin).
  apply initial_alignment_canonical in Hseed as Hcan; [|done..].
  pose proof (neighboring_canonical _ _ _ _ _ _ Hcan Hns Hin)
    as (Hsrc & Htrg & Hal & Hfe & H0' & Hinv).
  split_and!; try done.
  intros k Hk.
  destruct (invariant_alignment_lookup n Hinv (Z.of_nat k)) as (v & Hv & Hvl).
  - rewrite Htrg. unfold len. lia.
  - rewrite Nat2Z.id in Hv. rewrite Hsrc in Hvl. eauto.
Qed.

Lemma sample_members_are_alignments_of_the_pair_witness :
  ∃ sampled self',
    SampleExample.run = (Ok sampled, self') ∧
    SampleExample.both_to_a ∈ sampled ∧
    length (alignment SampleExample.both_to_a) = 3%nat ∧
    alignment SampleExample.both_to_a !! 0%nat = Some 0.
Proof.
  assert (∃ sampled self', SampleExample.run = (Ok sampled, self') ∧
            SampleExample.both_to_a ∈ sampled) as (sampled & self' & Hrun & Hin).
  { eexists _, _. split; [vm_compute; reflexivity|]. do 3 right. left. }
  destruct (sample_members_are_alignments_of_the_pair
              (H0 := insertion_order) _ _ _ _ _ _ _ _ Hrun Hin)
    as (_ & _ & Hal & _ & H0' & _).
  exists sampled, self'. by split_and!.
Defined.

(** ** What the loop of [hillclimb] finds *)

Lemma canonical_is_canon src trg (a : AlignmentInfo) :
  canonical src trg a → a = canon src trg (tail (alignment a)).
Proof.
  intros Hcan. apply canonical_in_universe in Hcan. unfold universe in Hcan.
  apply list_elem_of_fmap in Hcan as (w & -> & _). done.
Qed.

Lemma canonical_eq src trg (a b : AlignmentInfo) :
  canonical src trg a → canonical src trg b →
  alignment a = alignment b → a = b.
Proof.
  intros Ha%canonical_is_canon Hb%canonical_is_canon Heq.
  rewrite Ha, Hb. by rewrite Heq.
Qed.

Section LocalOptimum.

Context {P : Type} (gt : P → P → bool) `{SetIteration}.
Variable probability : AlignmentInfo → P.

Hypothesis gt_irrefl : ∀ x, gt x x = false.
Hypothesis gt_trans :
  ∀ x y z, gt x y = true → gt y z = true → gt x z = true.

Variable src : list (option string).
Variable trg : list string.

(** A pass leaves the rolling best alone only if no neighbour beats it. *)
Lemma hillclimb_pass_cases (ns : list AlignmentInfo) (cur : AlignmentInfo) :
  (hillclimb_pass gt probability ns cur = cur ∧
   ∀ x, x ∈ ns → gt (probability x) (probability cur) = false) ∨
  (hillclimb_pass gt probability ns cur ∈ ns ∧
   gt (probability (hillclimb_pass gt probability ns cur))
      (probability cur) = true).
Proof.
  unfold hillclimb_pass.
  enough (∀ xs acc,
             let r := foldl (fun alignment neighbor_alignment =>
                               if gt (probability neighbor_alignment)
                                     (probability alignment)
                               then neighbor_alignment else alignment) acc xs in
             (r = acc ∧ ∀ x, x ∈ xs → gt (probability x) (probability acc) = false) ∨
             (r ∈ xs ∧ gt (probability r) (probability acc) = true)) as Hgen.
  { destruct (Hgen (set_iter ns) cur) as [[Hr Hall] | [Hin Hgt]].
    - left. split; [done|]. intros x Hx. apply Hall.
      by rewrite (set_iter_perm ns).
    - right. split; [|done].
      eapply elem_of_Permutation_proper; [symmetry; apply set_iter_perm|].
      exact Hin. }
  induction xs as [|x xs IH]; intros acc; simpl.
  - left. split; [done|]. intros x Hx. by apply elem_of_nil in Hx.
  - destruct (gt (probability x) (probability acc)) eqn:Hgt.
    + right. destruct (IH x) as [[-> _] | [Hin Hgt']].
      * split; [left | done].
      * split; [by right | by eapply gt_trans].
    + destruct (IH acc) as [[Hr Hall] | [Hin Hgt']].
      * left. split; [done|]. intros y [-> | Hy]%elem_of_cons; auto.
      * right. split; [by right | done].
Qed.

Lemma hillclimb_loop_local_optimum (fuel : nat) (cur best : AlignmentInfo)
    (j_pegged : Z) :
  canonical src trg cur →
  hillclimb_loop gt probability fuel cur j_pegged = Ok best →
  canonical src trg best ∧
  (best = cur ∨ gt (probability best) (probability cur) = true) ∧
  ∃ ns, neighboring best j_pegged = Ok ns ∧
        ∀ n, n ∈ ns → gt (probability n) (probability best) = false.
Proof.
  revert cur. induction fuel as [|fuel IH]; intros cur Hcan Hloop; [done|].
  rewrite hillclimb_loop_S in Hloop. inv_bind Hloop. rename a into ns.
  destruct (hillclimb_pass_cases ns cur) as [[Hsame Hall] | [Hin Hgt]].
  - rewrite Hsame in Hloop. unfold AlignmentInfo.eq in Hloop.
    rewrite bool_decide_eq_true_2 in Hloop by done. injection Hloop as <-.
    split; [done|]. split; [by left|]. by exists ns.
  - assert (canonical src trg (hillclimb_pass gt probability ns cur)) as Hcan'
      by (by eapply neighboring_canonical).
    destruct (AlignmentInfo.eq _ cur) eqn:Heq.
    + apply AlignmentInfo_eq_spec in Heq.
      apply (canonical_eq src trg _ _ Hcan' Hcan) in Heq.
      rewrite Heq, gt_irrefl in Hgt. done.
    + destruct (IH _ Hcan' Hloop) as (Hbest & Hup & Hopt).
      split; [done|]. split; [|done]. right.
      destruct Hup as [-> | Hup]; [done | by eapply gt_trans].
Qed.

End LocalOptimum.

(** X10. Started from an alignment of the sentence pair, the [while] loop of
    [hillclimb] breaks, at the latest after [(l + 1) ^ m] rounds, with its
    variable [alignment] at a local optimum: an alignment of the pair that is
    the start or strictly more probable than it, and that no member of its
    own neighbourhood beats. ([>] on probabilities is a strict order.) *)
Theorem hillclimb_loop_finds_local_optimum
    {P : Type} (gt : P → P → bool) `{SetIteration}
    (probability : AlignmentInfo → P)
    (src : list (option string)) (trg : list string)
    (fuel : nat) (seed : AlignmentInfo) (j_pegged : Z) :
  (∀ x, gt x x = false) →
  (∀ x y z, gt x y = true → gt y z = true → gt x z = true) →
  canonical src trg seed →
  (length src ^ length trg < fuel)%nat →
  ∃ best ns,
    hillclimb_loop gt probability fuel seed j_pegged = Ok best ∧
    canonical src trg best ∧
    (best = seed ∨ gt (probability best) (probability seed) = true) ∧
    neighboring best j_pegged = Ok ns ∧
    ∀ n, n ∈ ns → gt (probability n) (probability best) = false.
Proof.
  intros Hirr Htrans Hcan Hfuel.
  destruct (hillclimb_loop_terminates gt probability Hirr Htrans src trg
              fuel seed j_pegged Hcan) as (best & Hloop).
  { pose proof (better_than_bound gt probability src trg seed). lia. }
  destruct (hillclimb_loop_local_optimum gt probability Hirr Htrans src trg
              fuel seed best j_pegged Hcan Hloop)
    as (Hbest & Hup & ns & Hns & Hopt).
  by exists best, ns.
Qed.

Lemma hillclimb_loop_finds_local_optimum_witness :
  ∃ best ns,
    @hillclimb_loop float prob_gt insertion_order HillclimbExample.probability
      5 HillclimbExample.seed 1 = Ok best ∧
    neighboring best 1 = Ok ns ∧
    ∀ n, n ∈ ns →
         prob_gt (HillclimbExample.probability n)
                 (HillclimbExample.probability best) = false.
Proof.
  destruct (hillclimb_loop_finds_local_optimum (H := insertion_order)
              prob_gt HillclimbExample.probability
              [None; Some "a"]%string ["x"; "y"]%string
              5 HillclimbExample.seed 1 float_gt_irrefl float_gt_trans)
    as (best & ns & Hloop & _ & _ & Hns & Hopt).
  - unfold canonical. split_and!; try reflexivity. vm_compute.
    split; [reflexivity|]. repeat constructor.
  - vm_compute. lia.
  - by exists best, ns.
Defined.

(** ** [sample] returns when there is a source word *)

Section SampleReturns.

Context {P : Type} `{Prob P} `{SetIteration}.

(** A loop all of whose iterations return, under an invariant. *)
Lemma for_each_method_total {A B} (I : list A → B → Prop) (xs : list A)
    (body : B → A → method P B) (acc : B) (self : IBMModel P) :
  I xs acc →
  (∀ x rest b s, I (x :: rest) b →
                 ∃ b' s', body b x s = (Ok b', s') ∧ I rest b') →
  ∃ r s', for_each xs body acc self = (Ok r, s') ∧ I [] r.
Proof.
  revert acc self. induction xs as [|x xs IH]; intros acc self Hacc Hstep.
  - by exists acc, self.
  - destruct (Hstep x xs acc self Hacc) as (b' & s' & Hbody & Hb').
    simpl. rewrite (method_bind_eq _ _ _ _ _ Hbody). by apply IH.
Qed.

Lemma method_pure_bind {A B} (a : A) (f : A → method P B)
    (self : IBMModel P) :
  (pure (Ok a) ≫= f) self = f a self.
Proof. reflexivity. Qed.

Lemma translation_table_getitem_Ok (t : string) (s : option string)
    (self : IBMModel P) :
  ∃ p self', translation_table_getitem t s self = (Ok p, self').
Proof.
  unfold translation_table_getitem. destruct (dd_nested _ _ _ _). eauto.
Qed.

Lemma alignment_table_getitem_Ok (i j l m : Z) (self : IBMModel P) :
  ∃ p self', alignment_table_getitem i j l m self = (Ok p, self').
Proof.
  unfold alignment_table_getitem. destruct (dd_nested _ _ _ _). eauto.
Qed.

Lemma py_getitem_total {A} (xs : list A) (k : Z) :
  0 ≤ k < len xs → ∃ x, py_getitem xs k = Ok x.
Proof.
  intros Hk. destruct (lookup_lt_is_Some_2 xs (Z.to_nat k)) as [x Hx].
  - unfold len in Hk. lia.
  - exists x. apply py_getitem_nonneg; [lia | done].
Qed.

Lemma best_model2_source_total trg src (jj : Z) (self : IBMModel P) :
  1 ≤ jj ≤ len trg →
  ∃ best_i self',
    best_model2_source trg src jj self = (Ok best_i, self') ∧
    (best_i = 1 ∨ 0 ≤ best_i ≤ len src - 1).
Proof.
  intros Hjj. unfold best_model2_source.
  destruct (for_each_method_total
              (fun rest (acc : P * Z) =>
                 (∀ x, x ∈ rest → 0 ≤ x ≤ len src - 1) ∧
                 (acc.2 = 1 ∨ 0 ≤ acc.2 ≤ len src - 1))
              (py_range 0 (len src - 1 + 1))
              (fun '(max_alignment_prob, best_i) ii =>
                 s ← pure (py_getitem src ii);
                 t ← pure (py_getitem trg (jj - 1));
                 pt ← translation_table_getitem t s;
                 pa ← alignment_table_getitem ii jj (len src - 1) (len trg);
                 let alignment_prob := prob_mul pt pa in
                 if prob_gt alignment_prob max_alignment_prob
                 then mret (alignment_prob, ii)
                 else mret (max_alignment_prob, best_i))
              (MIN_PROB, 1) self) as (r & s' & Hloop & _ & Hr).
  - split; [|by left]. intros x Hx%elem_of_py_range. lia.
  - intros ii rest [mx b] s [Hrest Hb]. simpl in Hb.
    assert (0 ≤ ii ≤ len src - 1) as Hii by (apply Hrest; left).
    destruct (py_getitem_total src ii) as (sw & Hsw); [lia|].
    destruct (py_getitem_total trg (jj - 1)) as (tw & Htw); [lia|].
    destruct (translation_table_getitem_Ok tw sw s) as (pt & s1 & Hpt).
    destruct (alignment_table_getitem_Ok ii jj (len src - 1) (len trg) s1)
      as (pa & s2 & Hpa).
    rewrite Hsw, Htw. unfold pure at 1 2.
    unfold mbind at 1 2, method_bind at 1 2.
    rewrite (method_bind_eq _ _ _ _ _ Hpt), (method_bind_eq _ _ _ _ _ Hpa).
    simpl. destruct (prob_gt _ _); eexists _, _; (split; [reflexivity|]);
      (split; [intros x Hx; apply Hrest; by right|]); simpl; [by right | done].
  - exists r.2, s'. split; [|done].
    by rewrite (method_bind_eq _ _ _ _ _ Hloop).
Qed.

Lemma initial_alignment_total trg src (i j : Z) (self : IBMModel P) :
  1 ≤ len src - 1 → 0 ≤ i ≤ len src - 1 → 1 ≤ j ≤ len trg →
  ∃ seed self', initial_alignment trg src i j self = (Ok seed, self').
Proof.
  intros Hl Hi Hj. unfold initial_alignment.
  assert (py_setitem (py_repeat 0 (len trg + 1)) j i
          = Ok (<[Z.to_nat j := i]> (py_repeat 0 (len trg + 1)))) as Hal.
  { apply py_setitem_nonneg; [lia|]. split; [|done].
    unfold len, py_repeat. rewrite length_replicate. unfold len in Hj. lia. }
  assert (py_setitem (py_repeat 0 (len src - 1 + 1)) i 1
          = Ok (<[Z.to_nat i := 1]> (py_repeat 0 (len src - 1 + 1)))) as Hfe.
  { apply py_setitem_nonneg; [lia|]. split; [|done].
    unfold len, py_repeat. rewrite length_replicate. unfold len in Hi. lia. }
  rewrite Hal, Hfe, !method_pure_bind.
  destruct (for_each_method_total (seed_inv src trg j)
              (py_range 1 (len trg + 1))
              (fun '(alignment, fertility_of_i) jj =>
                 if decide (jj ≠ j) then
                   best_i ← best_model2_source trg src jj;
                   alignment ← pure (py_setitem alignment jj best_i);
                   fertility_of_i ← pure (py_additem fertility_of_i best_i 1);
                   mret (alignment, fertility_of_i)
                 else mret (alignment, fertility_of_i))
              (<[Z.to_nat j := i]> (py_repeat 0 (len trg + 1)),
               <[Z.to_nat i := 1]> (py_repeat 0 (len src - 1 + 1)))
              self) as (r & s' & Hloop & _).
  - by eapply seed_inv_init.
  - intros jj rest [al fe] s Hinv. case_decide as Hne.
    + assert (1 ≤ jj ≤ len trg) as Hjj.
      { destruct Hinv as (_ & Hrest & _). apply Hrest. left. }
      destruct (best_model2_source_total trg src jj s Hjj)
        as (best & s1 & Hbest & Hrange).
      assert (0 ≤ best ≤ len src - 1) as Hb by lia.
      pose proof Hinv as (Hnd & Hrest & Hlal & Hlfe & Hrest').
      assert (py_setitem al jj best = Ok (<[Z.to_nat jj := best]> al)) as Hset.
      { apply py_setitem_nonneg; [lia|]. split; [|done].
        simpl in Hlal. unfold len in *. lia. }
      destruct (lookup_lt_is_Some_2 fe (Z.to_nat best)) as [x Hx].
      { simpl in Hlfe. unfold len in *. lia. }
      assert (py_additem fe best 1 = Ok (<[Z.to_nat best := x + 1]> fe))
        as Hadd by (apply py_additem_nonneg; [lia | eauto]).
      eexists _, s1. split.
      * rewrite (method_bind_eq _ _ _ _ _ Hbest).
        rewrite Hset, method_pure_bind, Hadd, method_pure_bind.
        reflexivity.
      * apply (seed_inv_step src trg j jj best rest al fe _ _ Hinv Hne);
          [lia | exact Hset | exact Hadd].
    + assert (jj = j) as -> by (destruct (decide (jj = j)); tauto).
      eexists _, s. split; [reflexivity|]. by apply seed_inv_skip.
  - rewrite (method_bind_eq _ _ _ _ _ Hloop). by eexists _, _.
Qed.

End SampleReturns.

(** ** Every peg is represented in the sample *)

Lemma foldl_set_add_keeps (xs s : list AlignmentInfo) (y : AlignmentInfo) :
  y ∈ s → y ∈ foldl set_add s xs.
Proof.
  revert s. induction xs as [|x xs IH]; intros s Hy; simpl; [done|].
  by apply IH, set_add_keeps.
Qed.

Lemma foldl_set_add_has (xs s : list AlignmentInfo) (x : AlignmentInfo) :
  x ∈ xs → ∃ y, y ∈ foldl set_add s xs ∧ alignment y = alignment x.
Proof.
  revert s. induction xs as [|z xs IH]; intros s Hx; [by apply elem_of_nil in Hx|].
  simpl. apply elem_of_cons in Hx as [-> | Hx]; [|by apply IH].
  destruct (set_add_has s z) as (y & Hy & Hal).
  exists y. split; [by apply foldl_set_add_keeps | done].
Qed.

Lemma set_update_keeps `{SetIteration} (s other : list AlignmentInfo)
    (y : AlignmentInfo) :
  y ∈ s → y ∈ set_update s other.
Proof. apply foldl_set_add_keeps. Qed.

Lemma set_update_has `{SetIteration} (s other : list AlignmentInfo)
    (x : AlignmentInfo) :
  x ∈ other → ∃ y, y ∈ set_update s other ∧ alignment y = alignment x.
Proof.
  intros Hx. apply foldl_set_add_has.
  eapply elem_of_Permutation_proper; [apply set_iter_perm | exact Hx].
Qed.

Section Coverage.

Context {P : Type} `{Prob P} `{SetIteration}.

Lemma for_each_method_visit {A B} (Q : B → Prop) (xs : list A) (x : A)
    (body : B → A → method P B) (acc r : B) (self self' : IBMModel P) :
  for_each xs body acc self = (Ok r, self') → x ∈ xs →
  (∀ b s b' s', body b x s = (Ok b', s') → Q b') →
  (∀ y b s b' s', body b y s = (Ok b', s') → Q b → Q b') →
  Q r.
Proof.
  intros Hr Hx Hat Hkeep. revert acc self Hr.
  induction xs as [|y xs IH]; intros acc self Hr; [by apply elem_of_nil in Hx|].
  simpl in Hr. apply method_bind_Ok in Hr as (b & s & Hbody & Hr).
  apply elem_of_cons in Hx as [<- | Hx]; [|by eapply IH].
  apply Hat in Hbody. clear IH Hat. revert b s Hbody Hr.
  induction xs as [|z xs IH]; intros b s Hb Hr; simpl in Hr.
  - by apply method_ret_Ok in Hr as [<- _].
  - apply method_bind_Ok in Hr as (c & t & Hbody & Hr).
    eapply IH; [|exact Hr]. by eapply Hkeep.
Qed.

(** The initial alignment aligns the pegged target position as pegged. *)
Lemma initial_alignment_peg trg src (i j : Z) (s s' : IBMModel P)
    (seed : AlignmentInfo) :
  1 ≤ j →
  initial_alignment trg src i j s = (Ok seed, s') →
  alignment seed !! Z.to_nat j = Some i.
Proof.
  intros Hj. unfold initial_alignment. intros Hs.
  apply method_bind_Ok in Hs as (al & s1 & [Hal _]%pure_Ok & Hs).
  apply method_bind_Ok in Hs as (fe & s2 & _ & Hs).
  apply method_bind_Ok in Hs as ([al' fe'] & s3 & Hloop & Hret).
  apply method_ret_Ok in Hret as [<- _]. simpl.
  apply py_setitem_nonneg in Hal as [Hlt ->]; [|lia].
  apply (for_each_method_inv
           (fun rest (st : list Z * list Z) =>
              (∀ x, x ∈ rest → 1 ≤ x) ∧ st.1 !! Z.to_nat j = Some i)
           _ _ _ _ _ _ Hloop).
  - split; [intros x Hx%elem_of_py_range; lia|].
    apply list_lookup_insert_eq. unfold len in *. lia.
  - intros jj rest [al1 fe1] t [al2 fe2] t' [Hrest Hpeg] Hbody. simpl in *.
    split; [intros x Hx; apply Hrest; by right|].
    case_decide as Hne; [|by apply method_ret_Ok in Hbody as [[= <- <-] _]].
    apply method_bind_Ok in Hbody as (best & ? & _ & Hbody).
    apply method_bind_Ok in Hbody as (al3 & ? & [Hset _]%pure_Ok & Hbody).
    apply method_bind_Ok in Hbody as (fe3 & ? & _ & Hbody).
    apply method_ret_Ok in Hbody as [[= <- <-] _].
    assert (1 ≤ jj) by (apply Hrest; left).
    apply py_setitem_nonneg in Hset as [_ ->]; [|lia].
    rewrite list_lookup_insert_ne by lia. done.
Qed.

(** Members of a neighbourhood keep the slot of a pegged position. *)
Lemma neighboring_pegged_slot (a n : AlignmentInfo) (j_pegged : Z)
    (ns : list AlignmentInfo) :
  0 ≤ j_pegged → neighboring a j_pegged = Ok ns → n ∈ ns →
  alignment n !! Z.to_nat j_pegged = alignment a !! Z.to_nat j_pegged.
Proof.
  intros Hpeg Hns Hn.
  destruct (neighboring_members _ _ _ _ Hns Hn) as [Hm | Hs].
  - destruct Hm as (j & i & Hj & Hne & _ & Hm).
    apply move_candidate_Ok in Hm as (? & ? & _ & _ & -> & _); [|lia].
    apply list_lookup_insert_ne. lia.
  - destruct Hs as (j & oj & Hj & Hne & Hoj & Hone & _ & Hs).
    apply swap_candidate_Ok in Hs as (? & ? & _ & _ & -> & _); [|lia..].
    rewrite !list_lookup_insert_ne by lia. done.
Qed.

Lemma sample_peg_represented probability fuel trg src
    (sampled sampled' : list AlignmentInfo) (i j : Z) (s s' : IBMModel P) :
  (2 ≤ length trg)%nat →
  0 ≤ i ≤ len src - 1 → 1 ≤ j ≤ len trg →
  sample_peg probability fuel trg src sampled i j s = (Ok sampled', s') →
  ∃ n, n ∈ sampled' ∧ alignment n !! Z.to_nat j = Some i.
Proof.
  intros Hm Hi Hj Hpeg. unfold sample_peg in Hpeg.
  apply method_bind_Ok in Hpeg as (seed & t1 & Hseed & Hpeg).
  apply method_bind_Ok in Hpeg as (best & ? & [Hclimb _]%pure_Ok & Hpeg).
  apply method_bind_Ok in Hpeg as (ns & ? & [Hns _]%pure_Ok & Hpeg).
  apply method_ret_Ok in Hpeg as [<- _].
  apply hillclimb_returns_argument in Hclimb as ->.
  apply initial_alignment_canonical in Hseed as Hcan; [|done..].
  apply initial_alignment_peg in Hseed as Hslot; [|lia].
  destruct Hcan as (Hsrc & Htrg & _).
  (* a target position other than the pegged one *)
  set (j' := if decide (j = 1) then 2 else 1).
  assert (1 ≤ j' ≤ len trg ∧ j' ≠ j) as [Hj' Hne].
  { unfold j', len. case_decide; lia. }
  unfold neighboring in Hns. inv_bind Hns. rename a into moved.
  destruct (add_moves_complete seed j j' 0 [] moved E) as (n0 & Hn0 & Hal0);
    [rewrite Htrg; lia | done | rewrite Hsrc; lia |].
  apply (add_swaps_keeps _ _ _ _ _ Hns) in Hn0.
  destruct (set_update_has sampled ns n0 Hn0) as (y & Hy & Hal).
  exists y. split; [done|].
  rewrite Hal, Hal0, list_lookup_insert_ne by lia. done.
Qed.

Lemma sample_peg_keeps probability fuel trg src
    (sampled sampled' : list AlignmentInfo) (i j : Z) (s s' : IBMModel P)
    (n : AlignmentInfo) :
  sample_peg probability fuel trg src sampled i j s = (Ok sampled', s') →
  n ∈ sampled → n ∈ sampled'.
Proof.
  intros Hpeg Hn. unfold sample_peg in Hpeg.
  apply method_bind_Ok in Hpeg as (seed & t1 & _ & Hpeg).
  apply method_bind_Ok in Hpeg as (best & ? & _ & Hpeg).
  apply method_bind_Ok in Hpeg as (ns & ? & _ & Hpeg).
  apply method_ret_Ok in Hpeg as [<- _]. by apply set_update_keeps.
Qed.

Lemma sample_represents_peg probability fuel trg src
    (sampled : list AlignmentInfo) (i j : Z) (self self' : IBMModel P) :
  (2 ≤ length trg)%nat →
  0 ≤ i ≤ len src - 1 → 1 ≤ j ≤ len trg →
  sample probability fuel trg src self = (Ok sampled, self') →
  ∃ n, n ∈ sampled ∧ alignment n !! Z.to_nat j = Some i.
Proof.
  intros Hm Hi Hj Hs. unfold sample in Hs.
  pose (Q := fun acc : list AlignmentInfo =>
               ∃ n, n ∈ acc ∧ alignment n !! Z.to_nat j = Some i).
  assert (∀ (i' : Z) b s b' s',
             for_each (py_range 1 (len trg + 1))
               (fun sampled_alignments j =>
                  sample_peg probability fuel trg src sampled_alignments i' j)
               b s = (Ok b', s') → Q b → Q b') as Hkeep.
  { intros i' b s b' s' Hbody (n & Hn & Hal). exists n. split; [|done].
    apply (for_each_method_inv (fun _ acc => n ∈ acc) _ _ _ _ _ _ Hbody);
      [done|].
    intros k rest c t c' t' Hc Hpeg. by eapply sample_peg_keeps. }
  apply (for_each_method_visit Q _ i _ _ _ _ _ Hs);
    [apply elem_of_py_range; lia | | exact Hkeep].
  intros b s b' s' Hbody.
  apply (for_each_method_visit Q _ j _ _ _ _ _ Hbody);
    [apply elem_of_py_range; lia | |].
  - intros c t c' t' Hpeg. by eapply sample_peg_represented.
  - intros k c t c' t' Hpeg (n & Hn & Hal). exists n.
    split; [by eapply sample_peg_keeps | done].
Qed.

End Coverage.

(** X11. With at least two target words, a set that [sample] returns
    represents every peg: for every source position [i] in [0..l] and every
    target position [j] in [1..m] it has a member that aligns [j] to [i]. *)
Theorem sample_covers_every_peg {P : Type} `{Prob P} `{SetIteration}
    (probability : AlignmentInfo → P) (fuel : nat)
    (trg : list string) (src : list (option string))
    (self self' : IBMModel P) (sampled : list AlignmentInfo) (i j : Z) :
  (2 ≤ length trg)%nat →
  0 ≤ i ≤ len src - 1 → 1 ≤ j ≤ len trg →
  sample probability fuel trg src self = (Ok sampled, self') →
  ∃ n, n ∈ sampled ∧ py_getitem (alignment n) j = Ok i.
Proof.
  intros Hm Hi Hj Hs.
  destruct (sample_represents_peg _ _ _ _ _ i j _ _ Hm Hi Hj Hs)
    as (n & Hn & Hal).
  exists n. split; [done|]. apply py_getitem_nonneg; [lia | done].
Qed.

Lemma sample_covers_every_peg_witness :
  ∃ sampled self' n,
    SampleExample.run = (Ok sampled, self') ∧
    n ∈ sampled ∧ py_getitem (alignment n) 2 = Ok 1.
Proof.
  assert (2 ≤ length SampleExample.trg)%nat as Hm by (simpl; lia).
  assert (0 ≤ 1 ≤ len SampleExample.src - 1) as Hi
    by (vm_compute; split; discriminate).
  assert (1 ≤ 2 ≤ len SampleExample.trg) as Hj
    by (vm_compute; split; discriminate).
  pose proof (fun sampled self' =>
                sample_covers_every_peg (H0 := insertion_order)
                  (fun _ => 0.5%float) 1 SampleExample.trg SampleExample.src
                  (init []) self' sampled 1 2 Hm Hi Hj) as Hw.
  assert (∃ sampled self', SampleExample.run = (Ok sampled, self'))
    as (sampled & self' & Hrun)
    by (eexists _, _; vm_compute; reflexivity).
  destruct (Hw sampled self' Hrun) as (n & Hn & Hal).
  exists sampled, self', n. split; [exact Hrun|]. split; [exact Hn | exact Hal].
Defined.

Section SampleTotal.

Context {P : Type} `{Prob P} `{SetIteration}.

Hypothesis gt_irrefl : ∀ x : P, prob_gt x x = false.
Hypothesis gt_trans :
  ∀ x y z : P, prob_gt x y = true → prob_gt y z = true → prob_gt x z = true.

Lemma sample_peg_total probability fuel trg src
    (sampled : list AlignmentInfo) (i j : Z) (self : IBMModel P) :
  1 ≤ len src - 1 → (length src ^ length trg < fuel)%nat →
  0 ≤ i ≤ len src - 1 → 1 ≤ j ≤ len trg →
  ∃ sampled' self',
    sample_peg probability fuel trg src sampled i j self
    = (Ok sampled', self').
Proof.
  intros Hl Hfuel Hi Hj. unfold sample_peg.
  destruct (initial_alignment_total trg src i j self Hl Hi Hj)
    as (seed & s1 & Hseed).
  rewrite (method_bind_eq _ _ _ _ _ Hseed).
  apply initial_alignment_canonical in Hseed as Hcan; [|done..].
  rewrite (hillclimb_terminates prob_gt _ gt_irrefl gt_trans src trg) by done.
  rewrite method_pure_bind.
  destruct (neighboring_total seed j) as (ns & ->);
    [by destruct Hcan as (_ & _ & _ & _ & _ & ?)|].
  rewrite method_pure_bind. by eexists _, _.
Qed.

Lemma sample_total probability fuel trg src (self : IBMModel P) :
  1 ≤ len src - 1 → (length src ^ length trg < fuel)%nat →
  ∃ sampled self',
    sample probability fuel trg src self = (Ok sampled, self').
Proof.
  intros Hl Hfuel. unfold sample.
  destruct (for_each_method_total
              (fun rest (_ : list AlignmentInfo) =>
                 ∀ x, x ∈ rest → 0 ≤ x ≤ len src - 1)
              (py_range 0 (len src - 1 + 1))
              (fun sampled_alignments i =>
                 for_each (py_range 1 (len trg + 1))
                   (fun sampled_alignments j =>
                      sample_peg probability fuel trg src
                        sampled_alignments i j) sampled_alignments)
              [] self) as (r & s' & Hr & _); [| |by exists r, s'].
  - intros x Hx%elem_of_py_range. lia.
  - intros i rest b s Hrest.
    destruct (for_each_method_total
                (fun rest (_ : list AlignmentInfo) =>
                   ∀ x, x ∈ rest → 1 ≤ x ≤ len trg)
                (py_range 1 (len trg + 1))
                (fun sampled_alignments j =>
                   sample_peg probability fuel trg src sampled_alignments i j)
                b s) as (r & s' & Hr & _).
    + intros x Hx%elem_of_py_range. lia.
    + intros j rest' c t Hrest'.
      destruct (sample_peg_total probability fuel trg src c i j t Hl Hfuel)
        as (c' & t' & Hpeg); [apply Hrest; left | apply Hrest'; left |].
      exists c', t'. split; [done|]. intros x Hx. apply Hrest'. by right.
    + exists r, s'. split; [done|]. intros x Hx. apply Hrest. by right.
Qed.

End SampleTotal.

(** X12. When the source sentence has a word besides NULL ([l >= 1]),
    [sample] returns a set: no subscript raises, and every climb ends ([>]
    on probabilities being a strict order, fuel above [(l + 1) ^ m] is not
    spent). With at least two target words the set is not empty. *)
Theorem sample_returns_with_a_source_word
    {P : Type} `{Prob P} `{SetIteration}
    (probability : AlignmentInfo → P) (fuel : nat)
    (trg : list string) (src : list (option string)) (self : IBMModel P) :
  (∀ x : P, prob_gt x x = false) →
  (∀ x y z : P, prob_gt x y = true → prob_gt y z = true → prob_gt x z = true) →
  (2 ≤ length src)%nat →
  (length src ^ length trg < fuel)%nat →
  ∃ sampled self',
    sample probability fuel trg src self = (Ok sampled, self') ∧
    ((2 ≤ length trg)%nat → sampled ≠ []).
Proof.
  intros Hirr Htrans Hl Hfuel.
  destruct (sample_total Hirr Htrans probability fuel trg src self)
    as (sampled & self' & Hs); [unfold len; lia | done |].
  exists sampled, self'. split; [done|]. intros Hm ->.
  destruct (sample_represents_peg probability fuel trg src [] 0 1 self self')
    as (n & Hn & _); [done | unfold len; lia | unfold len; lia | done |].
  by apply elem_of_nil in Hn.
Qed.

Lemma sample_returns_with_a_source_word_witness :
  ∃ sampled self',
    @sample float _ insertion_order HillclimbExample.probability 5
      SampleExample.trg SampleExample.src (init [])
    = (Ok sampled, self') ∧
    sampled ≠ [].
Proof.
  assert (2 ≤ length SampleExample.src)%nat as Hl by (simpl; lia).
  assert (length SampleExample.src ^ length SampleExample.trg < 5)%nat
    as Hfuel by (simpl; lia).
  assert (2 ≤ length SampleExample.trg)%nat as Hm by (simpl; lia).
  destruct (sample_returns_with_a_source_word (H0 := insertion_order)
              HillclimbExample.probability 5
              SampleExample.trg SampleExample.src (init [])
              float_gt_irrefl float_gt_trans Hl Hfuel)
    as (sampled & self' & Hs & Hne).
  exists sampled, self'. split; [exact Hs | exact (Hne Hm)].
Defined.

(** ** A source sentence without a word

    [best_i] starts at 1, not at 0: with [l = 0] it is a valid index of
    [fertility_of_i] only when some candidate beats [MIN_PROB]. *)

Section NullSourceError.
Context {P : Type} `{Prob P} `{SetIteration}.

Lemma py_range_cons (lo hi : Z) :
  lo < hi → py_range lo hi = lo :: py_range (lo + 1) hi.
Proof.
  intros Hlt. unfold py_range.
  replace (Z.to_nat (hi - lo)) with (S (Z.to_nat (hi - (lo + 1)))) by lia.
  simpl. f_equal; [lia|]. rewrite <- fmap_S_seq, <- list_fmap_compose.
  apply list_fmap_ext. intros _ k _. simpl. lia.
Qed.

Lemma method_bind_error {A B} (c : method P A) (f : A → method P B)
    (self s : IBMModel P) :
  c self = (IndexError, s) → (c ≫= f) self = (IndexError, s).
Proof. unfold mbind, method_bind. by intros ->. Qed.

Lemma method_mret_bind {A B} (a : A) (f : A → method P B)
    (self : IBMModel P) :
  (mret a ≫= f) self = f a self.
Proof. reflexivity. Qed.

Lemma best_model2_source_null (s0 : option string) (t1 t2 : string)
    (rest : list string) (self : IBMModel P) :
  prob_gt (prob_mul (default MIN_PROB (translation_entry self t2 s0))
             (default MIN_PROB
                (alignment_entry self 0 2 0 (len (t1 :: t2 :: rest)))))
          MIN_PROB = false →
  ∃ self', best_model2_source (t1 :: t2 :: rest) [s0] 2 self = (Ok 1, self').
Proof.
  intros Hlow. unfold best_model2_source.
  change (py_range 0 (len [s0] - 1 + 1)) with [0].
  cbn [for_each].
  change (py_getitem [s0] 0) with (Ok s0).
  assert (py_getitem (t1 :: t2 :: rest) (2 - 1) = Ok t2) as ->
    by (apply py_getitem_nonneg; [lia | reflexivity]).
  change (len [s0] - 1) with 0.
  unfold mbind, method_bind, pure, mret, method_ret.
  pose proof (translation_table_getitem_fst self t2 s0) as Hr1.
  assert (alignment_entry (translation_table_getitem t2 s0 self).2
            0 2 0 (len (t1 :: t2 :: rest))
          = alignment_entry self 0 2 0 (len (t1 :: t2 :: rest))) as Hsame.
  { unfold translation_table_getitem, alignment_entry.
    by rewrite (surjective_pairing (dd_nested _ _ _ _)). }
  destruct (translation_table_getitem t2 s0 self) as [r1 s1].
  simpl in Hr1, Hsame. subst r1.
  pose proof (alignment_table_getitem_fst s1 0 2 0 (len (t1 :: t2 :: rest)))
    as Hr2.
  rewrite Hsame in Hr2.
  destruct (alignment_table_getitem 0 2 0 (len (t1 :: t2 :: rest)) s1)
    as [r2 s2].
  simpl in Hr2. subst r2. rewrite Hlow. by exists s2.
Qed.

Lemma initial_alignment_null (s0 : option string) (t1 t2 : string)
    (rest : list string) (self : IBMModel P) :
  prob_gt (prob_mul (default MIN_PROB (translation_entry self t2 s0))
             (default MIN_PROB
                (alignment_entry self 0 2 0 (len (t1 :: t2 :: rest)))))
          MIN_PROB = false →
  ∃ self', initial_alignment (t1 :: t2 :: rest) [s0] 0 1 self
           = (IndexError, self').
Proof.
  intros Hlow. unfold initial_alignment.
  destruct (best_model2_source_null s0 t1 t2 rest self Hlow) as (s' & Hbest).
  exists s'.
  assert (py_setitem (py_repeat 0 (len (t1 :: t2 :: rest) + 1)) 1 0
          = Ok (<[1%nat := 0]> (py_repeat 0 (len (t1 :: t2 :: rest) + 1))))
    as ->.
  { apply py_setitem_nonneg; [lia|]. split; [|done].
    unfold len, py_repeat. rewrite length_replicate. simpl. lia. }
  change (py_setitem (py_repeat 0 (len [s0] - 1 + 1)) 0 1) with (Ok [1]).
  rewrite !method_pure_bind.
  rewrite (py_range_cons 1) by (unfold len; simpl; lia).
  rewrite (py_range_cons (1 + 1)) by (unfold len; simpl; lia).
  cbn [for_each].
  rewrite decide_False by (intros Hne; by apply Hne).
  apply method_bind_error.
  rewrite method_mret_bind.
  apply method_bind_error.
  rewrite decide_True by lia.
  rewrite (method_bind_eq _ _ _ _ _ Hbest).
  assert (py_setitem (<[1%nat := 0]> (py_repeat 0 (len (t1 :: t2 :: rest) + 1)))
            (1 + 1) 1
          = Ok (<[2%nat := 1]>
                  (<[1%nat := 0]> (py_repeat 0 (len (t1 :: t2 :: rest) + 1)))))
    as ->.
  { apply py_setitem_nonneg; [lia|]. split; [|done].
    unfold len, py_repeat. rewrite length_insert, length_replicate.
    simpl. lia. }
  rewrite method_pure_bind.
  change (py_additem [1] 1 1) with (@IndexError (list Z)).
  reflexivity.
Qed.

End NullSourceError.

(** X13. When the source sentence holds the NULL token only ([l = 0]) and
    the target sentence has at least two words, [sample] raises
    [IndexError] as soon as the model-2 score of the second target word
    against NULL, [translation_table[t][s] * alignment_table[0][2][0][m]],
    is not above [MIN_PROB]: in the first peg [best_i] keeps its initial
    value 1 and [fertility_of_i[best_i] += 1] indexes a vector of length
    1. The score is read off the tables as they are, a missing entry
    counting as [MIN_PROB]. *)
Theorem sample_raises_without_a_source_word
    {P : Type} `{Prob P} `{SetIteration}
    (probability : AlignmentInfo → P) (fuel : nat) (s0 : option string)
    (t1 t2 : string) (rest : list string) (self : IBMModel P) :
  prob_gt (prob_mul (default MIN_PROB (translation_entry self t2 s0))
             (default MIN_PROB
                (alignment_entry self 0 2 0 (len (t1 :: t2 :: rest)))))
          MIN_PROB = false →
  (sample probability fuel (t1 :: t2 :: rest) [s0] self).1 = IndexError.
Proof.
  intros Hlow.
  destruct (initial_alignment_null s0 t1 t2 rest self Hlow) as (s' & Hinit).
  unfold sample.
  change (py_range 0 (len [s0] - 1 + 1)) with [0].
  rewrite (py_range_cons 1) by (unfold len; simpl; lia).
  cbn [for_each]. unfold sample_peg.
  rewrite (method_bind_error _ _ self s'); [done|].
  apply method_bind_error. apply method_bind_error. exact Hinit.
Qed.

Lemma sample_raises_without_a_source_word_witness :
  (@sample float _ insertion_order HillclimbExample.probability 1
     ["x"; "y"; "z"]%string [None] (init [])).1 = IndexError.
Proof.
  apply (sample_raises_without_a_source_word (H0 := insertion_order)).
  vm_compute. reflexivity.
Defined.
